(** * AI_slip: the extraction-and-aggregation core of [src/index.jsx]

    A shallow embedding of the payment-slip application's logic:
    the amount normalizer, the per-image extraction loop
    ([processSlipWithAI]), the dashboard aggregations
    ([filteredExtractedData], [dailyFrequencyData],
    [topRecipientAccountsData], [bankUsageData]) and the CSV export
    ([generateCsv]).

    Conventions of the embedding.
    - A JavaScript string is a [string]: the UTF-8 bytes of its text.
      Substring search, deletion of characters by an ASCII class and
      quote doubling commute with that encoding.
    - A field that is [undefined] or [null] is [None].
    - A JavaScript number other than [NaN] is the rational it denotes;
      a decimal literal stands for its exact value.  The double that
      [parseFloat] returns is the rounding of that value ([Infinity]
      when it is too large): it is [NaN] or below zero exactly when the
      exact value is, and it is the exact value itself when that is an
      integer of magnitude at most [2^53].  Sums are taken with an
      addition that is a parameter of the development, so that no law
      of exact arithmetic is used for them.
    - A plain object used as a dictionary is the list of its own
      properties in creation order ([JsObject]); [Object.keys] lists the
      array-index keys first, in ascending numeric order, and then the
      other keys in creation order.  Reading [o[k]] looks at the own
      properties and then at [Object.prototype], whose members every
      plain object inherits ([prototypeMembers]); when an aggregation
      starts, [Object.prototype] has the members the language gives it
      and no others.  The source is a module, hence strict code.
    - [Array.prototype.sort] is stable; with the comparator
      [(a, b) => b.count - a.count] it is modelled by a stable insertion
      sort on descending counts.  When a count is a text the comparator
      is not consistent and the language leaves the order to the engine:
      the order the model gives then is one of the possible ones, and
      nothing is stated about it.
    - The network and the document store are oracles: for each call they
      say what the call's outcome is. *)

From Stdlib Require Import String Ascii List Bool Arith ZArith NArith QArith Lia.
From Stdlib Require Import Sorting.Sorted Sorting.Permutation.
From Stdlib Require DecimalString DecimalNat.
Import ListNotations.

Local Open Scope string_scope.
Local Open Scope list_scope.
Local Open Scope nat_scope.

Set Implicit Arguments.

(* ================================================================= *)
(** ** Strings *)

(** The double-quote and line-feed characters. *)
Definition dquote : ascii := "034"%char.
Definition newline : ascii := "010"%char.

Definition isDigit (c : ascii) : bool :=
  (48 <=? nat_of_ascii c) && (nat_of_ascii c <=? 57).

(** [String.prototype.includes]: [needle] occurs in [hay]. *)
Fixpoint includes (hay needle : string) : bool :=
  String.prefix needle hay ||
  match hay with
  | EmptyString => false
  | String _ hay' => includes hay' needle
  end.

(** [Array.prototype.join]. *)
Fixpoint join (sep : string) (parts : list string) : string :=
  match parts with
  | [] => ""
  | [p] => p
  | p :: rest => p ++ sep ++ join sep rest
  end.


Definition lowerChar (c : ascii) : ascii :=
  let n := nat_of_ascii c in
  if (65 <=? n) && (n <=? 90) then ascii_of_nat (n + 32) else c.

Fixpoint lowerAscii (s : string) : string :=
  match s with
  | EmptyString => EmptyString
  | String c s' => String (lowerChar c) (lowerAscii s')
  end.

Definition isSpaceChar (c : ascii) : bool :=
  let n := nat_of_ascii c in
  ((9 <=? n) && (n <=? 13)) || (n =? 32).

Fixpoint trimStartAscii (s : string) : string :=
  match s with
  | EmptyString => EmptyString
  | String c s' => if isSpaceChar c then trimStartAscii s' else s
  end.

Fixpoint trimEndAscii (s : string) : string :=
  match s with
  | EmptyString => EmptyString
  | String c s' =>
      match trimEndAscii s' with
      | EmptyString => if isSpaceChar c then EmptyString else String c EmptyString
      | t => String c t
      end
  end.

Definition trimAscii (s : string) : string := trimEndAscii (trimStartAscii s).

(* ================================================================= *)
(** ** Numbers and the amount normalizer *)

Inductive JsNumber : Type :=
| JsNaN
| JsNum (q : Q).

(** [x >= 0] on numbers; every comparison with [NaN] is false. *)
Definition geZero (x : JsNumber) : bool :=
  match x with
  | JsNaN => false
  | JsNum q => Qle_bool 0 q
  end.

Definition isNaN (x : JsNumber) : bool :=
  match x with
  | JsNaN => true
  | JsNum _ => false
  end.

(** [x || 0]: [NaN] and zero are falsy. *)
Definition orZero (x : JsNumber) : JsNumber :=
  match x with
  | JsNaN => JsNum 0
  | JsNum q => if Qeq_bool q 0 then JsNum 0 else x
  end.

(** The character class [[0-9.-]] of line 370. *)
Definition amountChar (c : ascii) : bool :=
  isDigit c || Ascii.eqb c "." || Ascii.eqb c "-".

(** [s.replace(/[^0-9.-]+/g, "")]: every character outside the class is
    deleted. *)
Fixpoint stripAmount (s : string) : string :=
  match s with
  | EmptyString => EmptyString
  | String c s' =>
      if amountChar c then String c (stripAmount s') else stripAmount s'
  end.

(** The longest run of decimal digits at the head of a string, and what
    follows it. *)
Fixpoint spanDigits (s : string) : string * string :=
  match s with
  | EmptyString => (EmptyString, EmptyString)
  | String c s' =>
      if isDigit c
      then let (ds, rest) := spanDigits s' in (String c ds, rest)
      else (EmptyString, s)
  end.

Fixpoint digitsValue (acc : Z) (ds : string) : Z :=
  match ds with
  | EmptyString => acc
  | String c ds' => digitsValue (10 * acc + Z.of_nat (nat_of_ascii c - 48)) ds'
  end.

(** The number written [ip.fp]. *)
Definition decimalValue (ip fp : string) : Q :=
  Qmake (digitsValue 0 (ip ++ fp)) (Z.to_pos (10 ^ Z.of_nat (String.length fp))).

(** The unsigned part of a [StrDecimalLiteral]: [digits], [digits.],
    [digits.digits] or [.digits]; the longest such prefix is read. *)
Definition parseUnsigned (s : string) : option Q :=
  let (ip, rest) := spanDigits s in
  match rest with
  | String "." rest' =>
      let (fp, _) := spanDigits rest' in
      match ip, fp with
      | EmptyString, EmptyString => None
      | _, _ => Some (decimalValue ip fp)
      end
  | _ =>
      match ip with
      | EmptyString => None
      | _ => Some (decimalValue ip EmptyString)
      end
  end.

(** [parseFloat] on text made of digits, ['.'] and ['-'] (the only
    characters [stripAmount] keeps: no white space, no ['+'], no
    exponent and no [Infinity] can reach it): an optional minus sign
    and the longest decimal prefix, [NaN] when there is none. *)
Definition parseFloat (s : string) : JsNumber :=
  match s with
  | String "-" rest =>
      match parseUnsigned rest with
      | Some q => JsNum (Qopp q)
      | None => JsNaN
      end
  | _ =>
      match parseUnsigned s with
      | Some q => JsNum q
      | None => JsNaN
      end
  end.

(** [x || '0'] on a string that may be undefined. *)
Definition orZeroText (x : option string) : string :=
  match x with
  | None => "0"
  | Some EmptyString => "0"
  | Some s => s
  end.

(** Line 370: [parseFloat(amount?.replace(/[^0-9.-]+/g, "") || '0')]. *)
Definition parsedAmountOf (amount : option string) : JsNumber :=
  parseFloat (orZeroText (option_map stripAmount amount)).

Definition parseAmount (s : string) : JsNumber := parsedAmountOf (Some s).

(* ================================================================= *)
(** ** Stable sorting and plain objects *)

Section StableSort.
Variable A : Type.
(** [before a b]: the comparator puts [a] strictly before [b]
    (it returns a negative number on [(a, b)]). *)
Variable before : A -> A -> bool.

Fixpoint insertSorted (x : A) (l : list A) : list A :=
  match l with
  | [] => [x]
  | y :: l' => if before y x then y :: insertSorted x l' else x :: y :: l'
  end.

(** Elements that compare equal keep their relative order. *)
Definition stableSort (l : list A) : list A :=
  fold_right insertSorted [] l.
End StableSort.

(** A string is an array index when it is the canonical decimal form of
    an integer below [2^32 - 1]. *)
Definition arrayIndex (k : string) : option Z :=
  match k with
  | EmptyString => None
  | String c rest =>
      if forallb isDigit (list_ascii_of_string k)
         && (negb (Ascii.eqb c "0") || String.eqb rest EmptyString)
         && (digitsValue 0 k <? 4294967295)%Z
      then Some (digitsValue 0 k)
      else None
  end.

Definition isArrayIndex (k : string) : bool :=
  match arrayIndex k with
  | Some _ => true
  | None => false
  end.

Definition indexOf (k : string) : Z :=
  match arrayIndex k with
  | Some i => i
  | None => 0%Z
  end.

(** The order in which the own keys of an object are listed, given the
    order in which they were created. *)
Definition keyOrder (ks : list string) : list string :=
  stableSort (fun a b => (indexOf a <? indexOf b)%Z) (filter isArrayIndex ks)
  ++ filter (fun k => negb (isArrayIndex k)) ks.

(** The names of the members of [Object.prototype]: [constructor], six
    methods, the four legacy helpers for accessors, and the accessor
    [__proto__].  All of them are functions, except [__proto__], which
    reads as [Object.prototype] itself. *)
Definition prototypeMembers : list string :=
  [ "constructor"; "hasOwnProperty"; "isPrototypeOf"; "propertyIsEnumerable";
    "toLocaleString"; "toString"; "valueOf";
    "__defineGetter__"; "__defineSetter__"; "__lookupGetter__";
    "__lookupSetter__"; "__proto__" ].

Definition isPrototypeMember (k : string) : bool :=
  existsb (String.eqb k) prototypeMembers.

Section JsObject.
Variable V : Type.

(** The own properties of an object literal [{}] that is filled by
    assignments [o[k] = v], in creation order. *)
Definition JsObject : Type := list (string * V).

(** The own property of a name, if the object has one. *)
Fixpoint getOwn (k : string) (o : JsObject) : option V :=
  match o with
  | [] => None
  | (k', v) :: o' => if String.eqb k' k then Some v else getOwn k o'
  end.

(** What reading [o[k]] finds. *)
Inductive Lookup : Type :=
| Own (v : V)                  (** the value of an own property *)
| Inherited (member : string)  (** that member of [Object.prototype] *)
| Undefined.                   (** nothing: [undefined] *)

(** [o[k]]: an own property first, then [Object.prototype]. *)
Definition getProp (k : string) (o : JsObject) : Lookup :=
  match getOwn k o with
  | Some v => Own v
  | None => if isPrototypeMember k then Inherited k else Undefined
  end.

(** An own property is given a value: an existing one keeps its place,
    a new one is created last. *)
Fixpoint setOwn (k : string) (v : V) (o : JsObject) : JsObject :=
  match o with
  | [] => [(k, v)]
  | (k', v') :: o' =>
      if String.eqb k' k then (k, v) :: o' else (k', v') :: setOwn k v o'
  end.

(** [o[k] = v].  Under the name [__proto__] the assignment runs the
    setter of [Object.prototype], which does nothing for a value that
    is a number or a string and creates no property; [frequencyMap] and
    [bankMap] are assigned numbers and strings only, and
    [accountStatsMap] is never assigned under that name (line 586 finds
    the prototype there).  The other members are writable and an
    assignment under their names creates an own property. *)
Definition setProp (k : string) (v : V) (o : JsObject) : JsObject :=
  if String.eqb k "__proto__" then o else setOwn k v o.

(** [Object.keys(o)]: array indices in ascending numeric order, then
    the other keys in creation order. *)
Definition objectKeys (o : JsObject) : list string :=
  keyOrder (map fst o).
End JsObject.

Arguments Inherited {V} member.
Arguments Undefined {V}.

(* ================================================================= *)
(** ** Data model *)

(** The object the model answers with ([responseSchema], lines
    329-349): eleven string fields, any of which may be missing. *)
Record ParsedJson : Type := {
  senderName : option string;
  recipientName : option string;
  amount : option string;
  transactionDate : option string;
  transactionTime : option string;
  transactionId : option string;
  senderBankName : option string;
  senderBankAccountNumber : option string;
  recipientBankName : option string;
  recipientBankAccountNumber : option string;
  country : option string
}.

(** [{ ...parsedJson, parsedAmount }] (line 371). *)
Record Extracted : Type := {
  fields : ParsedJson;
  parsedAmount : JsNumber
}.

(** [x || ''] on a string field. *)
Definition orEmpty (x : option string) : string :=
  match x with
  | Some s => s
  | None => ""
  end.

(** A string field is truthy when it is present and not empty. *)
Definition truthy (x : option string) : option string :=
  match x with
  | Some EmptyString => None
  | _ => x
  end.

(** An element of the [extractedData] array, [{ imageId, data }].  The
    extraction loop tests [data] for [null] ([D] is [option Extracted]);
    the dashboards and the export read [item.data.field] and so work on
    items whose payload is there ([D] is [Extracted]). *)
Record ExtractedItem (D : Type) : Type := {
  imageId : string;
  data : D
}.

Definition StateItem : Type := ExtractedItem (option Extracted).
Definition Slip : Type := ExtractedItem Extracted.

(** The items of a state array as the dashboards read them; [None] is
    the [TypeError] of [item.data.field] on a [null] payload. *)
Fixpoint payloads (items : list StateItem) : option (list Slip) :=
  match items with
  | [] => Some []
  | item :: rest =>
      match data item, payloads rest with
      | Some d, Some slips =>
          Some ({| imageId := imageId item; data := d |} :: slips)
      | _, _ => None
      end
  end.

(** An element of [selectedImages]. *)
Record ImageObj : Type := {
  id : string;
  dataUrl : string;
  timestamp : option Z
}.

(** A document of the [slips] collection. *)
Record SlipDoc : Type := {
  docId : option string;
  docDataUrl : option string;
  docTimestamp : option Z;
  docExtractedData : option Extracted
}.

(* ================================================================= *)
(** ** Ingestion and loading (lines 73-171) *)

(** The document [processFiles] writes for a new image (lines 147-152). *)
Definition newSlipDoc (uniqueId imageDataUrl : string) (now : Z) : SlipDoc :=
  {| docId := Some uniqueId;
     docDataUrl := Some imageDataUrl;
     docTimestamp := Some now;
     docExtractedData := None |}.

(** [t || 0] on a timestamp. *)
Definition timeOrZero (t : option Z) : Z :=
  match t with
  | Some z => z
  | None => 0%Z
  end.

(** The [snapshot.forEach] of lines 83-91. *)
Fixpoint loadDocs (docs : list SlipDoc) : list ImageObj * list StateItem :=
  match docs with
  | [] => ([], [])
  | doc :: rest =>
      let (loadedImages, loadedData) := loadDocs rest in
      match truthy (docId doc), truthy (docDataUrl doc) with
      | Some i, Some u =>
          ({| id := i; dataUrl := u; timestamp := docTimestamp doc |} :: loadedImages,
           match docExtractedData doc with
           | Some e => {| imageId := i; data := Some e |} :: loadedData
           | None => loadedData
           end)
      | _, _ => (loadedImages, loadedData)
      end
  end.

(** [imgA?.timestamp || 0] for the image found by id. *)
Definition imageTime (images : list ImageObj) (i : string) : Z :=
  match find (fun img => String.eqb (id img) i) images with
  | Some img => timeOrZero (timestamp img)
  | None => 0%Z
  end.

(** The [onSnapshot] callback (lines 80-101): the new values of
    [selectedImages] and [extractedData]. *)
Definition onSnapshot (docs : list SlipDoc) : list ImageObj * list StateItem :=
  let (loadedImages, loadedData) := loadDocs docs in
  let sortedImages :=
    stableSort
      (fun a b => (timeOrZero (timestamp a) <? timeOrZero (timestamp b))%Z)
      loadedImages in
  (sortedImages,
   stableSort
     (fun a b =>
        (imageTime sortedImages (imageId a) <? imageTime sortedImages (imageId b))%Z)
     loadedData).

(* ================================================================= *)
(** ** The extraction loop (lines 264-403) *)

(** What the call to the model comes to for one image. *)
Inductive ApiOutcome : Type :=
| FetchRejected (message : string)
    (** [fetch] or [response.json()] rejects with [err.message] *)
| NoCandidates
    (** the answer has no [candidates[0].content.parts[0]] *)
| UnparsableText
    (** [JSON.parse(jsonText)] throws, or the value it returns has an
        [amount] without a [replace] method *)
| JsonObject (parsedJson : ParsedJson).

(** The outside world: the answer to the [n]-th model call and the
    success of the [n]-th [setDoc] of a batch run. *)
Record World : Type := {
  fetch : nat -> ImageObj -> ApiOutcome;
  setDoc : nat -> string -> Extracted -> bool
}.

(** The state of one run: the array being built, the calls made to the
    model, the writes sent to the store, and the message shown by
    [setError]. *)
Record Batch : Type := {
  updatedExtractedData : list StateItem;
  apiCalls : list string;
  storeWrites : list (string * Extracted);
  error : option string
}.

Definition emptyBatch : Batch :=
  {| updatedExtractedData := []; apiCalls := []; storeWrites := []; error := None |}.

Definition msgNoImages : string := "กรุณาอัปโหลดรูปภาพสลิปโอนเงินก่อน".
Definition msgNotReady : string :=
  "Firebase not initialized or user not authenticated. Please wait.".
Definition msgParse : string :=
  "ไม่สามารถแยกวิเคราะห์ข้อมูลที่ได้รับจาก AI สำหรับบางรูปภาพได้".
Definition msgNoData : string :=
  "ไม่ได้รับข้อมูลที่ถูกต้องจาก AI สำหรับบางรูปภาพ โปรดลองอีกครั้ง".
Definition msgApi : string := "เกิดข้อผิดพลาดในการประมวลผลสำหรับบางรูปภาพ: ".

Definition setError (msg : string) (st : Batch) : Batch :=
  {| updatedExtractedData := updatedExtractedData st;
     apiCalls := apiCalls st;
     storeWrites := storeWrites st;
     error := Some msg |}.

Definition pushItem (item : StateItem) (st : Batch) : Batch :=
  {| updatedExtractedData := updatedExtractedData st ++ [item];
     apiCalls := apiCalls st;
     storeWrites := storeWrites st;
     error := error st |}.

Definition logCall (i : string) (st : Batch) : Batch :=
  {| updatedExtractedData := updatedExtractedData st;
     apiCalls := apiCalls st ++ [i];
     storeWrites := storeWrites st;
     error := error st |}.

Definition logWrite (i : string) (e : Extracted) (st : Batch) : Batch :=
  {| updatedExtractedData := updatedExtractedData st;
     apiCalls := apiCalls st;
     storeWrites := storeWrites st ++ [(i, e)];
     error := error st |}.

(** Lines 285-286: the item found for the image, when its payload is
    not [null]. *)
Definition existingExtracted (extractedData : list StateItem) (imageObj : ImageObj)
  : option StateItem :=
  match find (fun item => String.eqb (imageId item) (id imageObj)) extractedData with
  | Some item =>
      match data item with
      | Some _ => Some item
      | None => None
      end
  | None => None
  end.

(** Lines 370-371: [extracted]. *)
Definition extractedOf (parsedJson : ParsedJson) : Extracted :=
  {| fields := parsedJson; parsedAmount := parsedAmountOf (amount parsedJson) |}.

(** Lines 368-384: the [try] around parsing, the store write and the
    push; a [setDoc] that rejects lands in the same [catch]. *)
Definition handleJson (w : World) (imageObj : ImageObj) (parsedJson : ParsedJson)
    (st : Batch) : Batch :=
  let extracted := extractedOf parsedJson in
  let st' := logWrite (id imageObj) extracted st in
  if setDoc w (List.length (storeWrites st)) (id imageObj) extracted
  then pushItem {| imageId := id imageObj; data := Some extracted |} st'
  else setError msgParse st'.

(** Lines 292-392: the model call for one image and what follows it. *)
Definition extractImage (w : World) (imageObj : ImageObj) (st : Batch) : Batch :=
  let st' := logCall (id imageObj) st in
  match fetch w (List.length (apiCalls st)) imageObj with
  | FetchRejected message => setError (msgApi ++ message) st'
  | NoCandidates => setError msgNoData st'
  | UnparsableText => setError msgParse st'
  | JsonObject parsedJson => handleJson w imageObj parsedJson st'
  end.

(** The body of the [for] loop (lines 283-393). *)
Definition processImage (w : World) (extractedData : list StateItem)
    (st : Batch) (imageObj : ImageObj) : Batch :=
  match existingExtracted extractedData imageObj with
  | Some item => pushItem item st
  | None => extractImage w imageObj st
  end.

(** The loop over [selectedImages], from an empty
    [updatedExtractedData] and a cleared error (lines 275-393). *)
Definition processBatch (w : World) (selectedImages : list ImageObj)
    (extractedData : list StateItem) : Batch :=
  fold_left (processImage w extractedData) selectedImages emptyBatch.

(** [processSlipWithAI]: the two guards of lines 265-272, then the loop;
    [updatedExtractedData] of the result is the [extractedData] state
    after the call. *)
Definition processSlipWithAI (w : World) (ready : bool)
    (selectedImages : list ImageObj) (extractedData : list StateItem) : Batch :=
  match selectedImages with
  | [] =>
      {| updatedExtractedData := extractedData; apiCalls := [];
         storeWrites := []; error := Some msgNoImages |}
  | _ =>
      if ready
      then processBatch w selectedImages extractedData
      else {| updatedExtractedData := extractedData; apiCalls := [];
              storeWrites := []; error := Some msgNotReady |}
  end.

(* ================================================================= *)
(** ** Dashboard values (lines 525-644) *)

(** A value of [frequencyMap] or of [bankMap] (lines 561 and 631).  It
    is the number a counter has reached, or, for a counter that started
    from an inherited member, a text: the string form of that member
    followed by one character 1 for each [+ 1] applied to it. *)
Inductive Count : Type :=
| Num (n : nat)
| Text (member : string) (ones : nat).

(** [{ date, count }], an element of [dailyFrequencyData]. *)
Record DateCount : Type := {
  date : string;
  count : Count
}.

(** A value of [accountStatsMap]. *)
Record AccountStats : Type := {
  statCount : nat;
  statTotalAmount : JsNumber;
  statBankName : string
}.

(** An element of [topRecipientAccountsData]. *)
Record AccountRow : Type := {
  accountNumber : string;
  transactionCount : nat;
  totalAmountTransferred : JsNumber;
  bankName : string
}.

(** [{ name, value }], an element of [bankUsageData]. *)
Record BankCount : Type := {
  name : string;
  value : Count
}.

(** [(found || 0) + 1]: a number is incremented and [undefined] gives
    1; an inherited member is an object, hence truthy, and [+] turns it
    into its string form followed by the character 1; a text is truthy
    too and gets one more character. *)
Definition plusOne (found : Lookup Count) : Count :=
  match found with
  | Own (Num n) => Num (n + 1)
  | Own (Text member ones) => Text member (ones + 1)
  | Inherited member => Text member 1
  | Undefined => Num 1
  end.

(** [m[k] = (m[k] || 0) + 1]. *)
Definition bump (m : JsObject Count) (k : string) : JsObject Count :=
  setProp k (plusOne (getProp k m)) m.

(** [x - y < 0] for two counts: a text converts to [NaN], and no
    difference with [NaN] is negative. *)
Definition countBelow (x y : Count) : bool :=
  match x, y with
  | Num a, Num b => a <? b
  | _, _ => false
  end.

(** [accountStatsMap] together with what the loop of lines 579-597 has
    written into [Object.prototype].  For the account [__proto__],
    line 586 finds the prototype itself and lines 589-594 write
    [count], [totalAmount] (both [NaN]) and possibly [bankName] into
    it; of these only [bankName] is truthy, and every plain object and
    every string inherits it from then on. *)
Record AccountsState : Type := {
  statsMap : JsObject AccountStats;
  prototypeBankName : string
}.

(** A loop whose body may throw: the state after the last element, or
    [None] when an exception stops it. *)
Fixpoint forEachUnlessThrown (S A : Type) (body : S -> A -> option S)
    (l : list A) (s : S) : option S :=
  match l with
  | [] => Some s
  | a :: l' =>
      match body s a with
      | Some s' => forEachUnlessThrown body l' s'
      | None => None
      end
  end.

(** [if (x || y) ... ] written for strings: [x || '-']. *)
Definition orDash (s : string) : string :=
  match s with
  | EmptyString => "-"
  | _ => s
  end.

Section Dashboard.
(** [String.prototype.toLowerCase] and [String.prototype.trim]. *)
Variable toLowerCase : string -> string.
Variable trim : string -> string.
(** Addition of numbers. *)
Variable jsAdd : JsNumber -> JsNumber -> JsNumber.

Definition totalSlips (extractedData : list Slip) : nat :=
  List.length extractedData.

Definition totalAmount (extractedData : list Slip) : JsNumber :=
  fold_left (fun sum item => jsAdd sum (orZero (parsedAmount (data item))))
    extractedData (JsNum 0).

(** [field?.toLowerCase().includes(lowerCaseQuery)]. *)
Definition fieldIncludes (lowerCaseQuery : string) (field : option string) : bool :=
  match field with
  | Some s => includes (toLowerCase s) lowerCaseQuery
  | None => false
  end.

(** The predicate of the [filter] of lines 535-551. *)
Definition matchesQuery (lowerCaseQuery : string) (item : Slip) : bool :=
  let f := fields (data item) in
  fieldIncludes lowerCaseQuery (Some (imageId item)) ||
  fieldIncludes lowerCaseQuery (senderName f) ||
  fieldIncludes lowerCaseQuery (recipientName f) ||
  fieldIncludes lowerCaseQuery (amount f) ||
  fieldIncludes lowerCaseQuery (transactionDate f) ||
  fieldIncludes lowerCaseQuery (transactionTime f) ||
  fieldIncludes lowerCaseQuery (transactionId f) ||
  fieldIncludes lowerCaseQuery (senderBankName f) ||
  fieldIncludes lowerCaseQuery (senderBankAccountNumber f) ||
  fieldIncludes lowerCaseQuery (recipientBankName f) ||
  fieldIncludes lowerCaseQuery (recipientBankAccountNumber f) ||
  fieldIncludes lowerCaseQuery (country f).

Definition filteredExtractedData (searchQuery : string) (extractedData : list Slip)
  : list Slip :=
  match searchQuery with
  | EmptyString => extractedData
  | _ => filter (matchesQuery (toLowerCase searchQuery)) extractedData
  end.

(** Lines 557-563. *)
Definition frequencyStep (frequencyMap : JsObject Count) (item : Slip)
  : JsObject Count :=
  match truthy (transactionDate (fields (data item))) with
  | Some d => bump frequencyMap d
  | None => frequencyMap
  end.

(** Lines 556-573.  The keys that [Object.keys] lists are own, so
    [frequencyMap[date]] finds an own value for each of them. *)
Definition dailyFrequencyData (extractedData : list Slip) : list DateCount :=
  let frequencyMap := fold_left frequencyStep extractedData [] in
  let dataArray :=
    map (fun d => {| date := d;
                     count := match getProp d frequencyMap with
                              | Own c => c
                              | _ => Num 0
                              end |})
      (objectKeys frequencyMap) in
  stableSort (fun a b => countBelow (count b) (count a)) dataArray.

(** Lines 581-596, for one record.
    - An own entry, or none at all: the entry is created if need be and
      its three fields are updated.
    - An inherited function (the account is called [constructor],
      [toString], ...): it is truthy, so line 587 is skipped, and lines
      589-594 write into that function; the dictionary gets no entry.
    - The prototype itself (the account is called [__proto__]): the
      same, and the fields are written into [Object.prototype].
    - The account is called [bankName] and a bank name was written into
      [Object.prototype] before: line 586 finds that string, line 587
      is skipped, and line 589 assigns a property of a string, which
      throws a [TypeError] in strict code. *)
Definition accountStep (st : AccountsState) (item : Slip) : option AccountsState :=
  match truthy (recipientBankAccountNumber (fields (data item))) with
  | Some acc =>
      let amount := orZero (parsedAmount (data item)) in
      let bank := orEmpty (recipientBankName (fields (data item))) in
      let firstNonEmpty := fun (kept : string) =>
        match kept, bank with
        | EmptyString, String _ _ => bank
        | _, _ => kept
        end in
      let updated := fun (s : AccountStats) =>
        Some {| statsMap :=
                  setProp acc
                    {| statCount := statCount s + 1;
                       statTotalAmount := jsAdd (statTotalAmount s) amount;
                       statBankName := firstNonEmpty (statBankName s) |}
                    (statsMap st);
                prototypeBankName := prototypeBankName st |} in
      match getProp acc (statsMap st) with
      | Own s => updated s
      | Undefined =>
          if String.eqb acc "bankName"
             && negb (String.eqb (prototypeBankName st) EmptyString)
          then None
          else updated {| statCount := 0; statTotalAmount := JsNum 0;
                          statBankName := bank |}
      | Inherited member =>
          if String.eqb member "__proto__"
          then Some {| statsMap := statsMap st;
                       prototypeBankName := firstNonEmpty (prototypeBankName st) |}
          else Some st
      end
  | None => Some st
  end.

Definition emptyStats : AccountStats :=
  {| statCount := 0; statTotalAmount := JsNum 0; statBankName := "" |}.

(** Lines 576-611; [None] when the loop throws.  The keys that
    [Object.keys] lists are own, so [accountStatsMap[accountNumber]]
    finds an own entry for each of them. *)
Definition topRecipientAccountsData (extractedData : list Slip)
  : option (list AccountRow) :=
  match forEachUnlessThrown accountStep extractedData
          {| statsMap := []; prototypeBankName := EmptyString |} with
  | Some st =>
      let accountStatsMap := statsMap st in
      let rows :=
        map (fun acc =>
               let s := match getProp acc accountStatsMap with
                        | Own s => s
                        | _ => emptyStats
                        end in
               {| accountNumber := acc;
                  transactionCount := statCount s;
                  totalAmountTransferred := statTotalAmount s;
                  bankName := orDash (statBankName s) |})
          (objectKeys accountStatsMap) in
      Some (firstn 5
              (stableSort (fun a b => transactionCount b <? transactionCount a) rows))
  | None => None
  end.

(** Lines 619-628: the canonical name of a bank. *)
Definition canonicalizeBankName (recipientBankName : string) : string :=
  let bank := trim recipientBankName in
  if includes (toLowerCase bank) "krungsri" then "กรุงศรี"
  else if includes bank "กสิกร" || includes (toLowerCase bank) "kasikorn"
  then "กสิกรไทย"
  else if includes (toLowerCase bank) "scb" || includes bank "ไทยพาณิชย์"
  then "ไทยพาณิชย์"
  else bank.

(** Lines 617-633. *)
Definition bankStep (bankMap : JsObject Count) (item : Slip) : JsObject Count :=
  match truthy (recipientBankName (fields (data item))) with
  | Some b => bump bankMap (canonicalizeBankName b)
  | None => bankMap
  end.

(** Lines 614-644. *)
Definition bankUsageData (extractedData : list Slip) : list BankCount :=
  let bankMap := fold_left bankStep extractedData [] in
  let banks :=
    map (fun b => {| name := b;
                     value := match getProp b bankMap with
                              | Own c => c
                              | _ => Num 0
                              end |})
      (objectKeys bankMap) in
  stableSort (fun a b => countBelow (value b) (value a)) banks.

End Dashboard.

(* ================================================================= *)
(** ** The CSV export (lines 211-248) *)

Definition headers : list string :=
  [ "Image ID"; "View Image URL"; "ชื่อผู้ส่ง"; "ชื่อผู้รับ"; "จำนวนเงิน";
    "วันที่ทำรายการ"; "เวลาทำรายการ"; "รหัสอ้างอิงการทำรายการ";
    "ชื่อธนาคารต้นทาง"; "เลขบัญชีต้นทาง"; "ชื่อธนาคารปลายทาง";
    "เลขบัญชีปลายทาง"; "ประเทศ" ].

(** The [replace] of line 244: every double quote is written twice. *)
Fixpoint doubleQuotes (field : string) : string :=
  match field with
  | EmptyString => EmptyString
  | String c rest =>
      if Ascii.eqb c dquote
      then String dquote (String dquote (doubleQuotes rest))
      else String c (doubleQuotes rest)
  end.

(** The quoting of line 244. *)
Definition quoteField (field : string) : string :=
  String dquote (doubleQuotes field ++ String dquote EmptyString).

Section CsvExport.
(** [viewerUrlBase], [__app_id] (or its default) and [userId]. *)
Variable viewerUrlBase appId userId : string.

Definition viewImageUrl (item : Slip) : string :=
  viewerUrlBase ++ "?imageId=" ++ imageId item ++ "&appId=" ++ appId
  ++ "&userId=" ++ userId.

(** The thirteen values pushed into [row] (lines 231-243). *)
Definition rowOf (item : Slip) : list string :=
  let f := fields (data item) in
  [ imageId item;
    viewImageUrl item;
    orEmpty (senderName f);
    orEmpty (recipientName f);
    orEmpty (amount f);
    orEmpty (transactionDate f);
    orEmpty (transactionTime f);
    orEmpty (transactionId f);
    orEmpty (senderBankName f);
    orEmpty (senderBankAccountNumber f);
    orEmpty (recipientBankName f);
    orEmpty (recipientBankAccountNumber f);
    orEmpty (country f) ].

Definition csvRows (data : list Slip) : list string :=
  join "," headers
  :: map (fun item => join "," (map quoteField (rowOf item))) data.

Definition generateCsv (data : list Slip) : string :=
  join (String newline EmptyString) (csvRows data).

End CsvExport.

(** *** Reading a CSV document

    The reader the round trip of the specification speaks of: it splits
    a document into rows at line feeds and into columns at commas, a
    field that opens with a quote runs to its closing quote, and a
    doubled quote inside it stands for one quote character. *)
Inductive CsvMode : Type :=
| FieldStart   (** at the first character of a field *)
| Bare         (** inside a field that is not quoted *)
| Quoted       (** inside a quoted field *)
| QuoteSeen.   (** just after a quote inside a quoted field *)

(** The document read so far is kept as the field being read, the
    fields that follow it in its row, and the rows after that row. *)
Definition CsvTail : Type := (string * list string * list (list string))%type.

Definition addChar (c : ascii) (t : CsvTail) : CsvTail :=
  let '(f, fs, rows) := t in (String c f, fs, rows).

Definition endField (t : CsvTail) : CsvTail :=
  let '(f, fs, rows) := t in (EmptyString, f :: fs, rows).

Definition endRow (t : CsvTail) : CsvTail :=
  let '(f, fs, rows) := t in (EmptyString, [], (f :: fs) :: rows).

Fixpoint readFrom (m : CsvMode) (s : string) : CsvTail :=
  match s with
  | EmptyString => (EmptyString, [], [])
  | String c s' =>
      if Ascii.eqb c dquote then
        match m with
        | FieldStart => readFrom Quoted s'
        | Bare => addChar c (readFrom Bare s')
        | Quoted => readFrom QuoteSeen s'
        | QuoteSeen => addChar c (readFrom Quoted s')
        end
      else
        match m with
        | Quoted => addChar c (readFrom Quoted s')
        | _ =>
            if Ascii.eqb c "," then endField (readFrom FieldStart s')
            else if Ascii.eqb c newline then endRow (readFrom FieldStart s')
            else addChar c (readFrom Bare s')
        end
  end.

Definition readCsv (s : string) : list (list string) :=
  let '(f, fs, rows) := readFrom FieldStart s in (f :: fs) :: rows.

(* ================================================================= *)
(** ** Notions used to state the properties *)

(** The image has a prior result: the loop carries it forward. *)
Definition hasPrior (extractedData : list StateItem) (imageObj : ImageObj) : bool :=
  match existingExtracted extractedData imageObj with
  | Some _ => true
  | None => false
  end.

(** The ways in which the processing of an image that has no prior
    result fails, in a run that has reached the state [st]. *)
Inductive ImageFailure (w : World) (st : Batch) (imageObj : ImageObj) : Prop :=
| TransportFailure (message : string) :
    fetch w (List.length (apiCalls st)) imageObj = FetchRejected message ->
    ImageFailure w st imageObj
| MissingPayload :
    fetch w (List.length (apiCalls st)) imageObj = NoCandidates ->
    ImageFailure w st imageObj
| MalformedResponse :
    fetch w (List.length (apiCalls st)) imageObj = UnparsableText ->
    ImageFailure w st imageObj
| PersistenceFailure (parsedJson : ParsedJson) :
    fetch w (List.length (apiCalls st)) imageObj = JsonObject parsedJson ->
    setDoc w (List.length (storeWrites st)) (id imageObj) (extractedOf parsedJson) = false ->
    ImageFailure w st imageObj.

(** The distinct elements of a list, each at its first occurrence. *)
Fixpoint firstSeen (ks : list string) : list string :=
  match ks with
  | [] => []
  | k :: ks' => k :: filter (fun x => negb (String.eqb x k)) (firstSeen ks')
  end.

(** The shape the three grouping loops share as long as no key is the
    name of a member of [Object.prototype]: an element that has a key
    updates the own value stored under the key. *)
Section GroupStep.
Variables A V : Type.
Variable key : A -> option string.
Variable upd : option V -> A -> V.

Definition groupStep (o : JsObject V) (a : A) : JsObject V :=
  match key a with
  | Some k => setOwn k (upd (getOwn k o) a) o
  | None => o
  end.

(** The keys of the elements that have one, in the order of the list. *)
Definition keysOf (l : list A) : list string :=
  flat_map (fun a => match key a with Some k => [k] | None => [] end) l.

(** The elements filed under a key. *)
Definition groupOf (k : string) (l : list A) : list A :=
  filter (fun a => match key a with Some k' => String.eqb k' k | None => false end) l.

(** The object has no property of that name yet. *)
Definition notKeyOf (o : JsObject V) (k : string) : bool :=
  match getOwn k o with
  | Some _ => false
  | None => true
  end.
End GroupStep.

(** The update of a counting loop, [(m[k] || 0) + 1], on own values. *)
Definition countUpd (A : Type) (old : option Count) (_ : A) : Count :=
  plusOne (match old with Some c => Own c | None => Undefined end).

(** The number a count holds; a text holds none and stands for 0
    here. *)
Definition counted (c : Count) : nat :=
  match c with
  | Num n => n
  | Text _ _ => 0
  end.

(** No key of the list is the name of a member of [Object.prototype]. *)
Definition ownNames (ks : list string) : Prop :=
  forall k, In k ks -> isPrototypeMember k = false.

(** How many times a key occurs in a list of keys. *)
Definition countOf (k : string) (ks : list string) : nat :=
  List.length (filter (String.eqb k) ks).

(** The keys of the three groupings. *)
Definition dateKey (item : Slip) : option string :=
  truthy (transactionDate (fields (data item))).
Definition accountKey (item : Slip) : option string :=
  truthy (recipientBankAccountNumber (fields (data item))).
Definition bankField (item : Slip) : option string :=
  truthy (recipientBankName (fields (data item))).

Section GroupingNotions.
Variable toLowerCase : string -> string.
Variable trim : string -> string.
Variable jsAdd : JsNumber -> JsNumber -> JsNumber.


(** Lines 583-595 as an update of the statistics of an account. *)
Definition accountUpd (old : option AccountStats) (item : Slip) : AccountStats :=
  let amount := orZero (parsedAmount (data item)) in
  let bank := orEmpty (recipientBankName (fields (data item))) in
  let s :=
    match old with
    | Some s => s
    | None => {| statCount := 0; statTotalAmount := JsNum 0; statBankName := bank |}
    end in
  {| statCount := statCount s + 1;
     statTotalAmount := jsAdd (statTotalAmount s) amount;
     statBankName :=
       match statBankName s, bank with
       | EmptyString, String _ _ => bank
       | _, _ => statBankName s
       end |}.

(** The sum of the amounts of a list of records, taken from left to
    right. *)
Definition sumAmounts (start : JsNumber) (g : list Slip) : JsNumber :=
  fold_left (fun sum item => jsAdd sum (orZero (parsedAmount (data item)))) g start.

(** The first bank name that is not empty among the records of a
    list, the empty string when there is none. *)
Fixpoint firstBank (g : list Slip) : string :=
  match g with
  | [] => EmptyString
  | item :: g' =>
      match orEmpty (recipientBankName (fields (data item))) with
      | EmptyString => firstBank g'
      | b => b
      end
  end.

(** The row of an account, from the records filed under it. *)
Definition accountRowOf (extractedData : list Slip) (acc : string) : AccountRow :=
  let g := groupOf accountKey acc extractedData in
  {| accountNumber := acc;
     transactionCount := List.length g;
     totalAmountTransferred := sumAmounts (JsNum 0) g;
     bankName := orDash (firstBank g) |}.
End GroupingNotions.

(** Standard CSV quoting as the specification words it: the value
    between two quotes, each quote of the value written twice. *)
Definition csvQuoted (v : string) : string :=
  string_of_list_ascii
    (dquote
     :: flat_map (fun c => if Ascii.eqb c dquote then [dquote; dquote] else [c])
          (list_ascii_of_string v)
     ++ [dquote]).

(** Text in front of the field being read. *)
Definition prependField (v : string) (t : CsvTail) : CsvTail :=
  let '(f, fs, rows) := t in ((v ++ f)%string, fs, rows).

(** The fields of a row in front of what is read after its closing
    quote. *)
Fixpoint prependRow (vs : list string) (t : CsvTail) : CsvTail :=
  match vs with
  | [] => t
  | [v] => prependField v t
  | v :: vs' => prependField v (endField (prependRow vs' t))
  end.

(** Text that needs no quoting: it holds no quote, comma or line feed. *)
Definition plainText (s : string) : bool :=
  forallb (fun c => negb (Ascii.eqb c dquote || Ascii.eqb c "," || Ascii.eqb c newline))
    (list_ascii_of_string s).

(** The string-valued fields of a result: the image id and the
    extraction fields that are there. *)
Definition stringFields (item : Slip) : list string :=
  let f := fields (data item) in
  imageId item
  :: flat_map (fun x => match x with Some s => [s] | None => [] end)
       [ senderName f; recipientName f; amount f; transactionDate f;
         transactionTime f; transactionId f; senderBankName f;
         senderBankAccountNumber f; recipientBankName f;
         recipientBankAccountNumber f; country f ].

(** [needle] is a substring of [hay]. *)
Definition substringOf (needle hay : string) : Prop :=
  exists pre post, hay = (pre ++ needle ++ post)%string.

(** Sample values. *)
Definition quotedName : string :=
  "He said " ++ String dquote ("hi" ++ String dquote ", ok").

Definition noFields : ParsedJson :=
  {| senderName := None; recipientName := None; amount := None;
     transactionDate := None; transactionTime := None; transactionId := None;
     senderBankName := None; senderBankAccountNumber := None;
     recipientBankName := None; recipientBankAccountNumber := None;
     country := None |}.

Definition sampleJson : ParsedJson :=
  {| senderName := Some "A"; recipientName := Some "B"; amount := Some "120.00";
     transactionDate := Some "2024-01-01"; transactionTime := Some "10:00";
     transactionId := None; senderBankName := None;
     senderBankAccountNumber := None; recipientBankName := Some "Krungsri";
     recipientBankAccountNumber := Some "123-4"; country := None |}.

Definition withDate (d : string) : Slip :=
  {| imageId := "img";
     data := {| fields :=
                  {| senderName := None; recipientName := None; amount := None;
                     transactionDate := Some d; transactionTime := None;
                     transactionId := None; senderBankName := None;
                     senderBankAccountNumber := None; recipientBankName := None;
                     recipientBankAccountNumber := None; country := None |};
                parsedAmount := JsNum 0 |} |}.

Definition withBank (b : string) : Slip :=
  {| imageId := "img";
     data := {| fields :=
                  {| senderName := None; recipientName := None; amount := None;
                     transactionDate := None; transactionTime := None;
                     transactionId := None; senderBankName := None;
                     senderBankAccountNumber := None; recipientBankName := Some b;
                     recipientBankAccountNumber := None; country := None |};
                parsedAmount := JsNum 0 |} |}.

Definition withAccount (acc : string) (bank : option string) (q : Q) : Slip :=
  {| imageId := "img";
     data := {| fields :=
                  {| senderName := None; recipientName := None; amount := None;
                     transactionDate := None; transactionTime := None;
                     transactionId := None; senderBankName := None;
                     senderBankAccountNumber := None; recipientBankName := bank;
                     recipientBankAccountNumber := Some acc; country := None |};
                parsedAmount := JsNum q |} |}.

(** Addition of numbers without rounding. *)
Definition exactAdd (x y : JsNumber) : JsNumber :=
  match x, y with
  | JsNum a, JsNum b => JsNum (Qred (a + b))
  | _, _ => JsNaN
  end.

Definition image (i : string) : ImageObj :=
  {| id := i; dataUrl := "data:image/png;base64,AAAA"; timestamp := Some 1%Z |}.

(** A world in which every call and every write succeeds, one in which
    every write is refused, and one in which every call is rejected. *)
Definition goodWorld : World :=
  {| fetch := fun _ _ => JsonObject sampleJson; setDoc := fun _ _ _ => true |}.
Definition readOnlyWorld : World :=
  {| fetch := fun _ _ => JsonObject sampleJson; setDoc := fun _ _ _ => false |}.
Definition offlineWorld : World :=
  {| fetch := fun _ _ => FetchRejected "Failed to fetch"; setDoc := fun _ _ _ => true |}.


(** A store holding one image that was extracted and one that was only
    ingested. *)
Definition sampleDocs : list SlipDoc :=
  [ {| docId := Some "a"; docDataUrl := Some "data:image/png;base64,AAAA";
       docTimestamp := Some 1%Z;
       docExtractedData := Some (extractedOf sampleJson) |};
    newSlipDoc "b" "data:image/png;base64,BBBB" 2%Z ].

(* ================================================================= *)
(** ** Ingestion ([processFiles], lines 114-171) *)

(** A file handed to [processFiles]: its MIME type and what the
    [FileReader] yields for it ([reader.result], [null] when the file
    could not be read). *)
Record FileObj : Type := {
  fileType : string;
  readerResult : option string
}.

(** The outside world of an ingestion: the id drawn and the clock read
    for the [n]-th document of the run, and whether the store accepts
    it. *)
Record IngestWorld : Type := {
  randomUUID : nat -> string;
  dateNow : nat -> Z;
  storeAccepts : nat -> SlipDoc -> bool
}.

(** The state of an ingestion: the documents handed to [setDoc], those
    the store accepted, the message shown by [setError] and the flag
    [hasError]. *)
Record Ingest : Type := {
  sentDocs : list SlipDoc;
  storedDocs : list SlipDoc;
  ingestError : option string;
  hasError : bool
}.

Definition msgNotImage : string := "กรุณาอัปโหลดไฟล์รูปภาพเท่านั้น".
Definition msgSave : string :=
  "Failed to save some images to database. Check image size (max 1MB per image).".

(** Lines 147-152, for a reader result that may be [null]. *)
Definition slipDocFor (uniqueId : string) (imageDataUrl : option string) (now : Z)
  : SlipDoc :=
  {| docId := Some uniqueId;
     docDataUrl := imageDataUrl;
     docTimestamp := Some now;
     docExtractedData := None |}.

(** The body of the loop of lines 126-164. *)
Definition processFile (w : IngestWorld) (st : Ingest) (file : FileObj) : Ingest :=
  if String.prefix "image/" (fileType file)
  then
    let n := List.length (sentDocs st) in
    let doc := slipDocFor (randomUUID w n) (readerResult file) (dateNow w n) in
    if storeAccepts w n doc
    then {| sentDocs := sentDocs st ++ [doc];
            storedDocs := storedDocs st ++ [doc];
            ingestError := ingestError st;
            hasError := hasError st |}
    else {| sentDocs := sentDocs st ++ [doc];
            storedDocs := storedDocs st;
            ingestError := Some msgSave;
            hasError := true |}
  else {| sentDocs := sentDocs st;
          storedDocs := storedDocs st;
          ingestError := Some msgNotImage;
          hasError := true |}.

(** What [processFiles] leaves: the documents, the error message and the
    key of the file input. *)
Record Ingested : Type := {
  docsSent : list SlipDoc;
  docsStored : list SlipDoc;
  errorShown : option string;
  fileInputKey : nat
}.

(** [processFiles]: the guard of lines 115-118, the loop, the reset of
    the file input when something went wrong (lines 166-169) and the
    final [setError(null)] (line 170).  [error] and [key] are the
    values of the two states before the call. *)
Definition processFiles (w : IngestWorld) (ready : bool) (error : option string)
    (key : nat) (files : list FileObj) : Ingested :=
  if ready
  then
    let st := fold_left (processFile w) files
                {| sentDocs := []; storedDocs := [];
                   ingestError := error; hasError := false |} in
    {| docsSent := sentDocs st;
       docsStored := storedDocs st;
       errorShown := None;
       fileInputKey := if hasError st then key + 1 else key |}
  else
    {| docsSent := []; docsStored := [];
       errorShown := Some msgNotReady; fileInputKey := key |}.

(* ================================================================= *)
(** ** The preview of the export (lines 394-400) *)

Section Preview.
Variable viewerUrlBase appId userId : string.

(** [csvContentForPreview] after a run: the export of what the run
    returned, when it returned something; [None] when the preview is
    not set. *)
Definition csvPreview (st : Batch) : option string :=
  match updatedExtractedData st with
  | [] => None
  | _ =>
      option_map (generateCsv viewerUrlBase appId userId)
        (payloads (updatedExtractedData st))
  end.
End Preview.

(* ================================================================= *)
(** ** More notions used to state the properties *)

(** [l1] is [l2] with some elements left out. *)
Inductive Subseq (A : Type) : list A -> list A -> Prop :=
| SubseqNil : Subseq [] []
| SubseqSkip (x : A) (l1 l2 : list A) : Subseq l1 l2 -> Subseq l1 (x :: l2)
| SubseqTake (x : A) (l1 l2 : list A) : Subseq l1 l2 -> Subseq (x :: l1) (x :: l2).

(** What a turn of the loop does to the state of a run: it carries a
    prior result forward, or it returns the result it extracted and
    wrote, or it fails, with a call, at most one write and a message. *)
Inductive Turn (w : World) (extractedData : list StateItem)
    (st : Batch) (imageObj : ImageObj) (st' : Batch) : Prop :=
| TurnCarried (item : StateItem) :
    existingExtracted extractedData imageObj = Some item ->
    st' = pushItem item st ->
    Turn w extractedData st imageObj st'
| TurnExtracted (parsedJson : ParsedJson) :
    existingExtracted extractedData imageObj = None ->
    fetch w (List.length (apiCalls st)) imageObj = JsonObject parsedJson ->
    setDoc w (List.length (storeWrites st)) (id imageObj) (extractedOf parsedJson) = true ->
    st' = pushItem {| imageId := id imageObj; data := Some (extractedOf parsedJson) |}
            (logWrite (id imageObj) (extractedOf parsedJson)
               (logCall (id imageObj) st)) ->
    Turn w extractedData st imageObj st'
| TurnFailed (writes : list (string * Extracted)) (msg : string) :
    existingExtracted extractedData imageObj = None ->
    ImageFailure w st imageObj ->
    updatedExtractedData st' = updatedExtractedData st ->
    apiCalls st' = apiCalls st ++ [id imageObj] ->
    storeWrites st' = storeWrites st ++ writes ->
    (writes = [] \/ exists e, writes = [(id imageObj, e)]) ->
    error st' = Some msg ->
    Turn w extractedData st imageObj st'.

(** An integer that a double holds exactly: the double nearest to it
    is the integer itself. *)
Definition exactInDouble (z : Z) : bool := (Z.abs z <=? 2 ^ 53)%Z.

(** The text at which a decimal literal starts: a digit, or a point
    that a digit follows. *)
Definition startsLiteral (s : string) : bool :=
  match s with
  | EmptyString => false
  | String c rest =>
      isDigit c
      || (Ascii.eqb c "."
          && match rest with
             | EmptyString => false
             | String d _ => isDigit d
             end)
  end.

(** The text after one leading minus sign, if there is one. *)
Definition afterMinus (s : string) : string :=
  match s with
  | String "-" rest => rest
  | _ => s
  end.

(** The images of the documents that have an id and a data URL. *)
Definition completeImages (docs : list SlipDoc) : list ImageObj :=
  flat_map
    (fun doc =>
       match truthy (docId doc), truthy (docDataUrl doc) with
       | Some i, Some u =>
           [{| id := i; dataUrl := u; timestamp := docTimestamp doc |}]
       | _, _ => []
       end)
    docs.

(** The three canonical bank names. *)
Definition canonicalNames : list string :=
  [ "กรุงศรี"; "กสิกรไทย"; "ไทยพาณิชย์" ].

(** The documents written for a list of image files, the first of
    which is the [n]-th document of the run. *)
Fixpoint ingestDocs (w : IngestWorld) (n : nat) (files : list FileObj) : list SlipDoc :=
  match files with
  | [] => []
  | file :: rest =>
      slipDocFor (randomUUID w n) (readerResult file) (dateNow w n)
      :: ingestDocs w (S n) rest
  end.

(** The sum of a list of counts. *)
Definition total (counts : list nat) : nat := fold_right Nat.add 0 counts.

(** The records that have a key. *)
Definition keyed (A : Type) (key : A -> option string) (l : list A) : list A :=
  filter (fun a => match key a with Some _ => true | None => false end) l.

(** The text of a file that is an image, as far as [processFiles]
    looks. *)
Definition isImageFile (file : FileObj) : bool :=
  String.prefix "image/" (fileType file).

Definition sampleFiles : list FileObj :=
  [ {| fileType := "image/png"; readerResult := Some "data:image/png;base64,AAAA" |};
    {| fileType := "application/pdf"; readerResult := Some "data:application/pdf;base64,BBBB" |};
    {| fileType := "image/jpeg"; readerResult := Some "data:image/jpeg;base64,CCCC" |} ].

Definition sampleIngestWorld : IngestWorld :=
  {| randomUUID := fun n => ("id-" ++ String (ascii_of_nat (97 + n)) EmptyString)%string;
     dateNow := fun n => Z.of_nat (100 + n);
     storeAccepts := fun _ _ => true |}.

(* ================================================================= *)
(** * Properties *)

Unset Implicit Arguments.

(* ----------------------------------------------------------------- *)
(** ** The amount normalizer *)

Lemma stripAmount_chars (s : string) :
  Forall (fun c => amountChar c = true) (list_ascii_of_string (stripAmount s)).
Proof.
  induction s as [|c s IH]; simpl.
  - constructor.
  - destruct (amountChar c) eqn:E; simpl; auto.
Qed.

Lemma digitsValue_nonneg (ds : string) :
  forall acc, (0 <= acc)%Z -> (0 <= digitsValue acc ds)%Z.
Proof.
  induction ds as [|c ds IH]; intros acc H; cbn [digitsValue].
  - exact H.
  - apply IH. lia.
Qed.

Lemma decimalValue_nonneg (ip fp : string) : (0 <= decimalValue ip fp)%Q.
Proof.
  unfold decimalValue, Qle. cbn [Qnum Qden].
  pose proof (@digitsValue_nonneg (ip ++ fp) 0%Z). lia.
Qed.

Lemma parseUnsigned_nonneg (s : string) (q : Q) :
  parseUnsigned s = Some q -> (0 <= q)%Q.
Proof.
  unfold parseUnsigned.
  destruct (spanDigits s) as [ip rest].
  destruct rest as [|d rest'].
  - destruct ip; intros H; inversion H; apply decimalValue_nonneg.
  - destruct (Ascii.eqb d ".") eqn:E.
    + apply Ascii.eqb_eq in E. subst d.
      destruct (spanDigits rest') as [fp r].
      destruct ip; destruct fp; intros H; inversion H; apply decimalValue_nonneg.
    + assert (Hd : match d with
                   | "."%char => False
                   | _ => True
                   end).
      { destruct d as [[] [] [] [] [] [] [] []]; simpl in *; try exact I; discriminate. }
      destruct d as [[] [] [] [] [] [] [] []]; try (exfalso; exact Hd);
        destruct ip; intros H; inversion H; apply decimalValue_nonneg.
Qed.

Lemma parseUnsigned_digit (c : ascii) (rest : string) :
  isDigit c = true -> exists q, parseUnsigned (String c rest) = Some q.
Proof.
  intros Hc. unfold parseUnsigned. simpl. rewrite Hc.
  destruct (spanDigits rest) as [ds r].
  destruct r as [|d r'].
  - eauto.
  - destruct d as [[] [] [] [] [] [] [] []]; eauto.
    destruct (spanDigits r'); eauto.
Qed.

Lemma digit_not_minus (c : ascii) : isDigit c = true -> c <> "-"%char.
Proof. intros H E. subst c. discriminate H. Qed.

Lemma parseFloat_not_minus (c : ascii) (rest : string) :
  c <> "-"%char ->
  parseFloat (String c rest) =
  match parseUnsigned (String c rest) with
  | Some q => JsNum q
  | None => JsNaN
  end.
Proof.
  intros Hc. unfold parseFloat.
  destruct c as [[] [] [] [] [] [] [] []]; try reflexivity.
  exfalso. apply Hc. reflexivity.
Qed.

Lemma parseAmount_unfold (s : string) :
  parseAmount s =
  match stripAmount s with
  | EmptyString => JsNum 0
  | t => parseFloat t
  end.
Proof.
  unfold parseAmount, parsedAmountOf. simpl.
  destruct (stripAmount s); reflexivity.
Qed.

(** Kept text in which no decimal literal starts is not a number. *)
Lemma parseAmount_without_literal :
  isNaN (parseAmount ".") = true /\ isNaN (parseAmount "-") = true.
Proof. split; reflexivity. Qed.

(** C1, as the claim states it, fails: the stripping keeps the minus
    sign, so the amount text [-5] is parsed to [-5], which is not
    [>= 0]. *)
Lemma parseAmount_negative_counterexample :
  parseAmount "-5" = JsNum (-5 # 1) /\ geZero (parseAmount "-5") = false.
Proof. split; reflexivity. Qed.

(** C1 (amended): [parseAmount s] is [0] whenever [s] holds no digit,
    no ['.'] and no ['-'] (so for the empty text and for [abc]); it is a
    number [>= 0], never [NaN], whenever the characters kept from [s]
    start with a digit; and a result below [0] arises only when the
    kept characters start with the minus sign. *)
Theorem parseAmount_by_design :
  parseAmount "" = JsNum 0 /\
  parseAmount "abc" = JsNum 0 /\
  (forall s, stripAmount s = EmptyString -> parseAmount s = JsNum 0) /\
  (forall s c rest,
      stripAmount s = String c rest -> isDigit c = true ->
      exists q, parseAmount s = JsNum q /\ (0 <= q)%Q) /\
  (forall s q,
      parseAmount s = JsNum q -> (q < 0)%Q ->
      exists rest, stripAmount s = String "-" rest).
Proof.
  split; [reflexivity|]. split; [reflexivity|]. split; [|split].
  - intros s H. rewrite parseAmount_unfold, H. reflexivity.
  - intros s c rest H Hc. rewrite parseAmount_unfold, H.
    rewrite parseFloat_not_minus by (apply digit_not_minus; exact Hc).
    destruct (@parseUnsigned_digit c rest Hc) as [q Hq]. rewrite Hq.
    exists q. split; [reflexivity|]. apply (@parseUnsigned_nonneg _ _ Hq).
  - intros s q H Hq. rewrite parseAmount_unfold in H.
    destruct (stripAmount s) as [|c rest] eqn:E.
    + inversion H; subst q. exfalso. revert Hq. apply Qlt_irrefl.
    + destruct (Ascii.eqb c "-") eqn:Ec.
      * apply Ascii.eqb_eq in Ec. subst c. eauto.
      * exfalso. apply Ascii.eqb_neq in Ec.
        rewrite (@parseFloat_not_minus c rest Ec) in H.
        destruct (parseUnsigned (String c rest)) as [q'|] eqn:Eq; [|discriminate].
        inversion H; subst q'.
        apply (Qlt_not_le _ _ Hq). apply (@parseUnsigned_nonneg _ _ Eq).
Qed.

(** The amended C1 at the amount text [1,234.50 THB]. *)
Lemma parseAmount_by_design_witness :
  exists q, parseAmount "1,234.50 THB" = JsNum q /\ (0 <= q)%Q.
Proof.
  apply (proj1 (proj2 (proj2 (proj2 parseAmount_by_design)))
           "1,234.50 THB" "1"%char "234.50");
    reflexivity.
Defined.

(* ----------------------------------------------------------------- *)
(** ** Stable sorting *)

Section StableSortFacts.
Variable A : Type.
Variable before : A -> A -> bool.

Lemma insertSorted_perm (x : A) (l : list A) :
  Permutation (insertSorted before x l) (x :: l).
Proof.
  induction l as [|y l IH]; simpl.
  - apply Permutation_refl.
  - destruct (before y x).
    + apply perm_trans with (y :: x :: l).
      * apply perm_skip. exact IH.
      * apply perm_swap.
    + apply Permutation_refl.
Qed.

Lemma stableSort_perm (l : list A) : Permutation (stableSort before l) l.
Proof.
  induction l as [|x l IH]; simpl.
  - apply perm_nil.
  - apply perm_trans with (x :: stableSort before l).
    + apply insertSorted_perm.
    + apply perm_skip. exact IH.
Qed.

Lemma stableSort_In (l : list A) (x : A) :
  In x (stableSort before l) <-> In x l.
Proof.
  split; apply Permutation_in.
  - apply stableSort_perm.
  - apply Permutation_sym, stableSort_perm.
Qed.

Lemma stableSort_length (l : list A) :
  List.length (stableSort before l) = List.length l.
Proof. apply Permutation_length, stableSort_perm. Qed.

(** Sorting keeps, for every class of elements that the comparator never
    separates, the order the elements had. *)
Lemma insertSorted_filter (p : A -> bool) (x : A) (l : list A) :
  (forall a b, p a = true -> p b = true -> before a b = false) ->
  filter p (insertSorted before x l) = filter p (x :: l).
Proof.
  intros Hp. induction l as [|y l IH]; [reflexivity|].
  simpl. destruct (before y x) eqn:E.
  - simpl. simpl in IH. rewrite IH.
    destruct (p y) eqn:Ey; destruct (p x) eqn:Ex; try reflexivity.
    rewrite (Hp y x Ey Ex) in E. discriminate.
  - reflexivity.
Qed.

Lemma stableSort_filter (p : A -> bool) (l : list A) :
  (forall a b, p a = true -> p b = true -> before a b = false) ->
  filter p (stableSort before l) = filter p l.
Proof.
  intros Hp. induction l as [|x l IH]; [reflexivity|].
  simpl stableSort. rewrite insertSorted_filter by exact Hp.
  simpl. rewrite IH. reflexivity.
Qed.

(** The output is ordered as soon as the comparator is a strict weak
    order. *)
Hypothesis before_asym : forall a b, before a b = true -> before b a = false.
Hypothesis before_negtrans :
  forall a b c, before a b = false -> before b c = false -> before a c = false.

Lemma insertSorted_sorted (x : A) (l : list A) :
  StronglySorted (fun a b => before b a = false) l ->
  StronglySorted (fun a b => before b a = false) (insertSorted before x l).
Proof.
  induction l as [|y l IH]; intros Hs; simpl.
  - constructor; constructor.
  - inversion Hs as [|y' l' Hl Hy]; subst.
    destruct (before y x) eqn:E.
    + constructor; [apply IH; exact Hl|].
      apply Forall_forall. intros z Hz.
      apply (Permutation_in _ (insertSorted_perm x l)) in Hz.
      destruct Hz as [<-|Hz].
      * apply before_asym. exact E.
      * rewrite Forall_forall in Hy. apply Hy. exact Hz.
    + constructor; [exact Hs|].
      constructor; [exact E|].
      apply Forall_forall. intros z Hz.
      rewrite Forall_forall in Hy.
      apply before_negtrans with y; [apply Hy; exact Hz | exact E].
Qed.

Lemma stableSort_sorted (l : list A) :
  StronglySorted (fun a b => before b a = false) (stableSort before l).
Proof.
  induction l as [|x l IH]; simpl.
  - constructor.
  - apply insertSorted_sorted. exact IH.
Qed.

End StableSortFacts.

(** Sorting on descending counts: each element is followed only by
    elements whose count is not larger. *)
Lemma sort_descending (A : Type) (key : A -> nat) (l : list A) :
  StronglySorted (fun a b => key b <= key a)
    (stableSort (fun a b => key b <? key a) l).
Proof.
  assert (H : StronglySorted (fun a b => (key a <? key b) = false)
                (stableSort (fun a b => key b <? key a) l)).
  { apply stableSort_sorted.
    - intros a b H. apply Nat.ltb_lt in H. apply Nat.ltb_ge. lia.
    - intros a b c H1 H2. apply Nat.ltb_ge in H1, H2. apply Nat.ltb_ge. lia. }
  induction H as [|a l' Hl IH Ha]; constructor; [exact IH|].
  eapply Forall_impl; [|exact Ha].
  intros b Hb. apply Nat.ltb_ge in Hb. exact Hb.
Qed.

(** Elements with the same count keep the order they had. *)
Lemma sort_descending_stable (A : Type) (key : A -> nat) (c : nat) (l : list A) :
  filter (fun a => key a =? c) (stableSort (fun a b => key b <? key a) l)
  = filter (fun a => key a =? c) l.
Proof.
  apply stableSort_filter.
  intros a b Ha Hb. apply Nat.eqb_eq in Ha, Hb. apply Nat.ltb_ge. lia.
Qed.

(* ----------------------------------------------------------------- *)
(** ** The extraction loop *)

Section LoopFacts.
Variable w : World.
Variable extractedData : list StateItem.

Lemma existingExtracted_id (a b : ImageObj) :
  id a = id b ->
  existingExtracted extractedData a = existingExtracted extractedData b.
Proof. intros H. unfold existingExtracted. rewrite H. reflexivity. Qed.

Lemma existingExtracted_Some (imageObj : ImageObj) (item : StateItem) :
  existingExtracted extractedData imageObj = Some item ->
  In item extractedData /\ imageId item = id imageObj /\
  exists d, data item = Some d.
Proof.
  unfold existingExtracted.
  match goal with
  | |- context [find ?f extractedData] =>
      destruct (find f extractedData) as [found|] eqn:F; [|discriminate]
  end.
  destruct (data found) as [d|] eqn:D; [|discriminate].
  intros H. inversion H; subst item.
  apply find_some in F. destruct F as [Hin Heq].
  apply String.eqb_eq in Heq. eauto.
Qed.

Lemma existingExtracted_None (imageObj : ImageObj) :
  (forall item, In item extractedData -> imageId item = id imageObj ->
                data item = None) ->
  existingExtracted extractedData imageObj = None.
Proof.
  intros H. unfold existingExtracted.
  match goal with
  | |- context [find ?f extractedData] =>
      destruct (find f extractedData) as [found|] eqn:F; [|reflexivity]
  end.
  apply find_some in F. destruct F as [Hin Heq].
  apply String.eqb_eq in Heq. rewrite (H found Hin Heq). reflexivity.
Qed.

(** What one turn of the loop adds to the three logs. *)
Lemma processImage_prior (st : Batch) (imageObj : ImageObj) (item : StateItem) :
  existingExtracted extractedData imageObj = Some item ->
  processImage w extractedData st imageObj = pushItem item st.
Proof. intros H. unfold processImage. rewrite H. reflexivity. Qed.

Lemma processImage_calls (st : Batch) (imageObj : ImageObj) :
  apiCalls (processImage w extractedData st imageObj) =
  apiCalls st ++ (if hasPrior extractedData imageObj then [] else [id imageObj]).
Proof.
  unfold processImage, hasPrior.
  destruct (existingExtracted extractedData imageObj).
  - simpl. rewrite app_nil_r. reflexivity.
  - unfold extractImage, handleJson.
    destruct (fetch w (List.length (apiCalls st)) imageObj); simpl; try reflexivity.
    destruct (setDoc w _ _ _); reflexivity.
Qed.

Lemma processImage_writes (st : Batch) (imageObj : ImageObj) :
  exists l,
    storeWrites (processImage w extractedData st imageObj) = storeWrites st ++ l /\
    (forall p, In p l -> fst p = id imageObj /\ hasPrior extractedData imageObj = false).
Proof.
  unfold processImage, hasPrior.
  destruct (existingExtracted extractedData imageObj).
  - exists []. simpl. rewrite app_nil_r. split; [reflexivity|]. intros p [].
  - unfold extractImage, handleJson.
    destruct (fetch w (List.length (apiCalls st)) imageObj) as [m| | |pj]; simpl;
      try (exists []; rewrite app_nil_r; split; [reflexivity|]; intros p []).
    exists [(id imageObj, extractedOf pj)].
    split.
    + destruct (setDoc w _ _ _); reflexivity.
    + intros p [<-|[]]. split; reflexivity.
Qed.

Lemma processImage_results (st : Batch) (imageObj : ImageObj) :
  exists l,
    updatedExtractedData (processImage w extractedData st imageObj)
    = updatedExtractedData st ++ l /\
    (forall item, In item l ->
       imageId item = id imageObj /\ exists d, data item = Some d).
Proof.
  unfold processImage.
  destruct (existingExtracted extractedData imageObj) as [item|] eqn:E.
  - exists [item]. split; [reflexivity|].
    intros x [<-|[]]. apply existingExtracted_Some in E. tauto.
  - unfold extractImage, handleJson.
    destruct (fetch w (List.length (apiCalls st)) imageObj) as [m| | |pj]; simpl;
      try (exists []; rewrite app_nil_r; split; [reflexivity|]; intros p []).
    destruct (setDoc w _ _ _); simpl.
    + exists [{| imageId := id imageObj; data := Some (extractedOf pj) |}].
      split; [reflexivity|]. intros x [<-|[]]. simpl. eauto.
    + exists []. rewrite app_nil_r. split; [reflexivity|]. intros p [].
Qed.


(** The same for the whole loop. *)
Lemma loop_calls (images : list ImageObj) :
  forall st,
    apiCalls (fold_left (processImage w extractedData) images st) =
    apiCalls st
    ++ map id (filter (fun i => negb (hasPrior extractedData i)) images).
Proof.
  induction images as [|imageObj images IH]; intros st; simpl.
  - rewrite app_nil_r. reflexivity.
  - rewrite IH, processImage_calls.
    destruct (hasPrior extractedData imageObj); simpl.
    + rewrite app_nil_r. reflexivity.
    + rewrite <- app_assoc. reflexivity.
Qed.

Lemma loop_writes (images : list ImageObj) :
  forall st,
  exists l,
    storeWrites (fold_left (processImage w extractedData) images st)
    = storeWrites st ++ l /\
    (forall p, In p l ->
       exists imageObj, In imageObj images /\ fst p = id imageObj /\
                        hasPrior extractedData imageObj = false).
Proof.
  induction images as [|imageObj images IH]; intros st; simpl.
  - exists []. rewrite app_nil_r. split; [reflexivity|]. intros p [].
  - destruct (IH (processImage w extractedData st imageObj)) as [l2 [E2 H2]].
    destruct (processImage_writes st imageObj) as [l1 [E1 H1]].
    exists (l1 ++ l2). split.
    + rewrite E2, E1, app_assoc. reflexivity.
    + intros p Hp. apply in_app_or in Hp. destruct Hp as [Hp|Hp].
      * exists imageObj. destruct (H1 p Hp). auto.
      * destruct (H2 p Hp) as [i [Hi Hr]]. exists i. auto.
Qed.

Lemma loop_results (images : list ImageObj) :
  forall st,
  exists l,
    updatedExtractedData (fold_left (processImage w extractedData) images st)
    = updatedExtractedData st ++ l /\
    (forall item, In item l ->
       (exists imageObj, In imageObj images /\ imageId item = id imageObj) /\
       exists d, data item = Some d).
Proof.
  induction images as [|imageObj images IH]; intros st; simpl.
  - exists []. rewrite app_nil_r. split; [reflexivity|]. intros p [].
  - destruct (IH (processImage w extractedData st imageObj)) as [l2 [E2 H2]].
    destruct (processImage_results st imageObj) as [l1 [E1 H1]].
    exists (l1 ++ l2). split.
    + rewrite E2, E1, app_assoc. reflexivity.
    + intros p Hp. apply in_app_or in Hp. destruct Hp as [Hp|Hp].
      * destruct (H1 p Hp) as [Hid Hd]. split; [|exact Hd]. exists imageObj. auto.
      * destruct (H2 p Hp) as [[i [Hi Hr]] Hd]. split; [|exact Hd]. exists i. auto.
Qed.


Lemma loop_keeps (images : list ImageObj) (st : Batch) (item : StateItem) :
  In item (updatedExtractedData st) ->
  In item (updatedExtractedData (fold_left (processImage w extractedData) images st)).
Proof.
  intros H. destruct (loop_results images st) as [l [E _]].
  rewrite E. apply in_or_app. left. exact H.
Qed.

(** An image that has a prior result is answered from it, wherever it
    stands in the batch. *)
Lemma loop_carries (images : list ImageObj) :
  forall st imageObj item,
    In imageObj images ->
    existingExtracted extractedData imageObj = Some item ->
    In item (updatedExtractedData (fold_left (processImage w extractedData) images st)).
Proof.
  induction images as [|x images IH]; intros st imageObj item Hin E; simpl.
  - destruct Hin.
  - destruct Hin as [->|Hin].
    + apply loop_keeps. rewrite (processImage_prior st _ _ E). simpl.
      apply in_or_app. right. left. reflexivity.
    + apply IH with imageObj; assumption.
Qed.


End LoopFacts.

Lemma hasPrior_of_item (extractedData : list StateItem) (imageObj : ImageObj) :
  (forall item, In item extractedData -> exists d, data item = Some d) ->
  (exists item, In item extractedData /\ imageId item = id imageObj) ->
  hasPrior extractedData imageObj = true.
Proof.
  intros Hall [item [Hin Hid]]. unfold hasPrior, existingExtracted.
  match goal with
  | |- context [find ?f extractedData] =>
      destruct (find f extractedData) as [found|] eqn:F
  end.
  - apply find_some in F. destruct F as [Hf _].
    destruct (Hall found Hf) as [d Hd]. rewrite Hd. reflexivity.
  - apply find_none with (x := item) in F; [|exact Hin].
    rewrite Hid, String.eqb_refl in F. discriminate.
Qed.

Lemma hasPrior_false_no_item (extractedData : list StateItem) (imageObj : ImageObj) :
  (forall item, In item extractedData -> imageId item <> id imageObj) ->
  hasPrior extractedData imageObj = false.
Proof.
  intros H. unfold hasPrior.
  rewrite existingExtracted_None; [reflexivity|].
  intros item Hin Hid. destruct (H item Hin Hid).
Qed.

Lemma batch_results_have_data (w : World) (images : list ImageObj)
    (extractedData : list StateItem) (item : StateItem) :
  In item (updatedExtractedData (processBatch w images extractedData)) ->
  exists d, data item = Some d.
Proof.
  unfold processBatch. destruct (loop_results w extractedData images emptyBatch) as [l [E H]].
  rewrite E. simpl. intros Hin. apply (H item Hin).
Qed.

(** The dashboards can read what a batch returns. *)
Lemma payloads_defined (items : list StateItem) :
  (forall item, In item items -> exists d, data item = Some d) ->
  exists slips, payloads items = Some slips /\ map (@imageId _) slips = map (@imageId _) items.
Proof.
  induction items as [|item items IH]; intros H.
  - exists []. split; reflexivity.
  - destruct (H item (or_introl eq_refl)) as [d Hd].
    destruct IH as [slips [Hs Hm]]; [intros x Hx; apply H; right; exact Hx|].
    exists ({| imageId := imageId item; data := d |} :: slips).
    simpl. rewrite Hd, Hs, Hm. split; reflexivity.
Qed.

Lemma batch_payloads_defined (w : World) (images : list ImageObj)
    (extractedData : list StateItem) :
  exists slips,
    payloads (updatedExtractedData (processBatch w images extractedData)) = Some slips.
Proof.
  destruct (payloads_defined
              (updatedExtractedData (processBatch w images extractedData))
              (batch_results_have_data w images extractedData))
    as [slips [H _]].
  exists slips. exact H.
Qed.

(** [processSlipWithAI] runs the loop once its two guards are passed,
    and makes no call and no write otherwise. *)
Lemma processSlipWithAI_guards (w : World) (ready : bool)
    (selectedImages : list ImageObj) (extractedData : list StateItem) :
  (selectedImages <> [] -> ready = true ->
   processSlipWithAI w ready selectedImages extractedData
   = processBatch w selectedImages extractedData) /\
  (selectedImages = [] \/ ready = false ->
   let st := processSlipWithAI w ready selectedImages extractedData in
   apiCalls st = [] /\ storeWrites st = [] /\
   updatedExtractedData st = extractedData /\ error st <> None).
Proof.
  split.
  - intros Hne Hr. unfold processSlipWithAI.
    destruct selectedImages; [congruence|]. rewrite Hr. reflexivity.
  - intros H. unfold processSlipWithAI.
    destruct selectedImages as [|x l].
    + simpl. repeat split; discriminate.
    + destruct H as [H|H]; [discriminate|]. rewrite H. simpl.
      repeat split; discriminate.
Qed.

Lemma in_calls_iff (w : World) (images : list ImageObj)
    (extractedData : list StateItem) (i : string) :
  In i (apiCalls (processBatch w images extractedData)) <->
  exists imageObj, In imageObj images /\ id imageObj = i /\
                   hasPrior extractedData imageObj = false.
Proof.
  unfold processBatch. rewrite loop_calls. simpl.
  rewrite in_map_iff. split.
  - intros [x [Hx Hin]]. apply filter_In in Hin. destruct Hin as [Hin Hp].
    exists x. repeat split; auto. destruct (hasPrior extractedData x); [discriminate|reflexivity].
  - intros [x [Hin [Hx Hp]]]. exists x. split; [exact Hx|].
    apply filter_In. split; [exact Hin|]. rewrite Hp. reflexivity.
Qed.

(** C2, as the claim states it, fails: when the store refuses the
    write, the result that was extracted for the image is not in the
    returned sequence. *)
Lemma failed_write_counterexample :
  fetch readOnlyWorld 0 (image "a") = JsonObject sampleJson /\
  storeWrites (processBatch readOnlyWorld [image "a"] [])
  = [("a", extractedOf sampleJson)] /\
  updatedExtractedData (processBatch readOnlyWorld [image "a"] []) = [] /\
  ~ In {| imageId := "a"; data := Some (extractedOf sampleJson) |}
       (updatedExtractedData (processBatch readOnlyWorld [image "a"] [])).
Proof.
  split; [reflexivity|]. split; [reflexivity|]. split; [reflexivity|].
  intros H. exact H.
Qed.

(** C2 (amended): when the write-back of a normalized result fails, an
    error message is recorded and the batch continues with the next
    image (every later image without a prior result is still sent to
    the model), but the result of the failed write is not appended to
    the returned sequence: the items returned are those gathered before
    that image and those of the images after it. *)
Theorem failed_write_drops_result
    (w : World) (extractedData : list StateItem)
    (before after : list ImageObj) (imageObj : ImageObj) (parsedJson : ParsedJson) :
  let st := processBatch w before extractedData in
  let st1 := processImage w extractedData st imageObj in
  let final := processBatch w (before ++ imageObj :: after) extractedData in
  existingExtracted extractedData imageObj = None ->
  fetch w (List.length (apiCalls st)) imageObj = JsonObject parsedJson ->
  setDoc w (List.length (storeWrites st)) (id imageObj) (extractedOf parsedJson) = false ->
  updatedExtractedData st1 = updatedExtractedData st /\
  storeWrites st1 = storeWrites st ++ [(id imageObj, extractedOf parsedJson)] /\
  error st1 = Some msgParse /\
  final = fold_left (processImage w extractedData) after st1 /\
  apiCalls final =
    apiCalls st ++ id imageObj
    :: map id (filter (fun i => negb (hasPrior extractedData i)) after) /\
  (forall item, In item (updatedExtractedData final) ->
     In item (updatedExtractedData st) \/
     exists next, In next after /\ imageId item = id next).
Proof.
  intros st st1 final E F S.
  assert (Hfinal : final = fold_left (processImage w extractedData) after st1).
  { unfold final, processBatch. rewrite fold_left_app. reflexivity. }
  assert (H1 : st1 = setError msgParse
                       (logWrite (id imageObj) (extractedOf parsedJson)
                          (logCall (id imageObj) st))).
  { unfold st1, processImage. rewrite E. unfold extractImage. rewrite F.
    unfold handleJson. simpl. rewrite S. reflexivity. }
  split; [rewrite H1; reflexivity|].
  split; [rewrite H1; reflexivity|].
  split; [rewrite H1; reflexivity|].
  split; [exact Hfinal|].
  split.
  - rewrite Hfinal, loop_calls, H1. simpl. rewrite <- app_assoc. reflexivity.
  - intros item Hin. rewrite Hfinal in Hin.
    destruct (loop_results w extractedData after st1) as [l [El Hl]].
    rewrite El in Hin. apply in_app_or in Hin. destruct Hin as [Hin|Hin].
    + left. rewrite H1 in Hin. exact Hin.
    + right. destruct (Hl item Hin) as [Hex _]. exact Hex.
Qed.

(** The amended C2 in a world whose store refuses every write. *)
Lemma failed_write_drops_result_witness :
  updatedExtractedData (processImage readOnlyWorld [] emptyBatch (image "a")) = [] /\
  error (processImage readOnlyWorld [] emptyBatch (image "a")) = Some msgParse /\
  apiCalls (processBatch readOnlyWorld [image "a"; image "b"] []) = ["a"; "b"].
Proof.
  destruct (failed_write_drops_result readOnlyWorld [] [] [image "b"] (image "a")
              sampleJson eq_refl eq_refl eq_refl)
    as (H1 & _ & H3 & _ & H5 & _).
  split; [exact H1|]. split; [exact H3|exact H5].
Defined.



(** C3, as the claim states it, fails: an image whose extraction failed
    in the first run has no result in that run's output, and a second
    run seeded from it calls the model for the image again. *)
Lemma second_run_counterexample :
  updatedExtractedData (processBatch offlineWorld [image "a"] []) = [] /\
  apiCalls
    (processBatch goodWorld [image "a"]
       (updatedExtractedData (processBatch offlineWorld [image "a"] [])))
  = ["a"] /\
  apiCalls
    (processBatch goodWorld [image "a"]
       (updatedExtractedData (processBatch offlineWorld [image "a"] [])))
  <> [].
Proof.
  split; [reflexivity|]. split; [reflexivity|]. discriminate.
Qed.

(** C3 (amended): every image whose id has a result in
    [existingResults] has that very result carried forward, no call to
    the model is made for it and no write is sent to the store for it
    (in a state all of whose items have a payload, the result of an
    image is the first item that bears its id).
    Hence a second run seeded from the first run's output makes no
    call for any image that has a result in that output (no call at all
    when every image has one) and calls the model again for the images
    that have none; and for two images of which only the second lacks a
    prior result exactly one call is made, for the second. *)
Theorem dedup_makes_batch_idempotent
    (w w' : World) (extractedData : list StateItem) (images : list ImageObj) :
  let first := processBatch w images extractedData in
  let second := processBatch w' images (updatedExtractedData first) in
  ((forall item, In item extractedData -> exists d, data item = Some d) ->
   forall imageObj item,
     In item extractedData -> imageId item = id imageObj ->
     exists prior,
       existingExtracted extractedData imageObj = Some prior /\
       In prior extractedData /\ imageId prior = id imageObj) /\
  (forall imageObj item,
     In imageObj images ->
     existingExtracted extractedData imageObj = Some item ->
     In item (updatedExtractedData first) /\
     ~ In (id imageObj) (apiCalls first) /\
     (forall e, ~ In (id imageObj, e) (storeWrites first))) /\
  (forall imageObj,
     In imageObj images ->
     (exists item, In item (updatedExtractedData first) /\
                   imageId item = id imageObj) ->
     ~ In (id imageObj) (apiCalls second)) /\
  ((forall imageObj,
      In imageObj images ->
      exists item, In item (updatedExtractedData first) /\
                   imageId item = id imageObj) ->
   apiCalls second = []) /\
  (forall imageObj,
     In imageObj images ->
     (forall item, In item (updatedExtractedData first) ->
                   imageId item <> id imageObj) ->
     In (id imageObj) (apiCalls second)) /\
  (forall a b item,
     existingExtracted extractedData a = Some item ->
     existingExtracted extractedData b = None ->
     apiCalls (processBatch w [a; b] extractedData) = [id b]).
Proof.
  intros first second.
  assert (Hdata : forall item, In item (updatedExtractedData first) ->
                               exists d, data item = Some d).
  { intros item. apply batch_results_have_data. }
  assert (Hskip : forall ex imageObj,
             hasPrior ex imageObj = true ->
             forall v, ~ In (id imageObj) (apiCalls (processBatch v images ex))).
  { intros ex imageObj Hp v Hin. apply in_calls_iff in Hin.
    destruct Hin as [x [_ [Hid Hx]]].
    unfold hasPrior in Hp, Hx.
    rewrite (existingExtracted_id ex x imageObj Hid) in Hx.
    rewrite Hx in Hp. discriminate. }
  split; [|split; [|split; [|split; [|split]]]].
  - intros Hall imageObj item Hin Hid.
    pose proof (hasPrior_of_item extractedData imageObj Hall
                  (ex_intro _ item (conj Hin Hid))) as Hp.
    unfold hasPrior in Hp.
    destruct (existingExtracted extractedData imageObj) as [prior|] eqn:E;
      [|discriminate].
    exists prior. split; [reflexivity|].
    destruct (existingExtracted_Some extractedData imageObj prior E) as [H1 [H2 _]].
    split; assumption.
  - intros imageObj item Hin E.
    assert (Hp : hasPrior extractedData imageObj = true).
    { unfold hasPrior. rewrite E. reflexivity. }
    split; [|split].
    + unfold first, processBatch. apply loop_carries with imageObj; assumption.
    + apply Hskip. exact Hp.
    + intros e Hw. unfold first, processBatch in Hw.
      destruct (loop_writes w extractedData images emptyBatch) as [l [El Hl]].
      rewrite El in Hw. simpl in Hw.
      destruct (Hl _ Hw) as [x [_ [Hid Hx]]]. simpl in Hid.
      unfold hasPrior in Hp, Hx.
      rewrite (existingExtracted_id extractedData x imageObj (eq_sym Hid)) in Hx.
      rewrite Hx in Hp. discriminate.
  - intros imageObj _ Hex. apply Hskip.
    apply hasPrior_of_item; assumption.
  - intros Hall. unfold second, processBatch. rewrite loop_calls. simpl.
    assert (Hf : forall l,
               (forall x, In x l -> In x images) ->
               filter (fun i => negb (hasPrior (updatedExtractedData first) i)) l = []).
    { induction l as [|x l IH]; intros Hl; [reflexivity|]. simpl.
      rewrite (hasPrior_of_item (updatedExtractedData first) x Hdata
                 (Hall x (Hl x (or_introl eq_refl)))).
      simpl. apply IH. intros y Hy. apply Hl. right. exact Hy. }
    rewrite (Hf images (fun x H => H)). reflexivity.
  - intros imageObj Hin Hno. apply in_calls_iff.
    exists imageObj. split; [exact Hin|]. split; [reflexivity|].
    apply hasPrior_false_no_item. exact Hno.
  - intros a b item Ea Eb. unfold processBatch. rewrite loop_calls. simpl.
    unfold hasPrior. rewrite Ea, Eb. reflexivity.
Qed.

(** The amended C3 for two images, the first of which has a prior
    result, in a world where every call and every write succeeds. *)
Lemma dedup_makes_batch_idempotent_witness :
  apiCalls
    (processBatch goodWorld [image "a"; image "b"]
       [{| imageId := "a"; data := Some (extractedOf noFields) |}])
  = ["b"] /\
  apiCalls
    (processBatch goodWorld [image "a"; image "b"]
       (updatedExtractedData
          (processBatch goodWorld [image "a"; image "b"]
             [{| imageId := "a"; data := Some (extractedOf noFields) |}])))
  = [].
Proof.
  destruct (dedup_makes_batch_idempotent goodWorld goodWorld
              [{| imageId := "a"; data := Some (extractedOf noFields) |}]
              [image "a"; image "b"])
    as (_ & _ & _ & H3 & _ & H5).
  split.
  - exact (H5 (image "a") (image "b") _ eq_refl eq_refl).
  - apply H3. intros imageObj [<-|[<-|[]]].
    + exists {| imageId := "a"; data := Some (extractedOf noFields) |}.
      split; [left; reflexivity|reflexivity].
    + exists {| imageId := "b"; data := Some (extractedOf sampleJson) |}.
      split; [right; left; reflexivity|reflexivity].
Defined.

(* ----------------------------------------------------------------- *)
(** ** Loading the store *)

Lemma truthy_Some (x : option string) (s : string) :
  truthy x = Some s -> x = Some s.
Proof.
  destruct x as [[|c t]|]; simpl; intros H; try discriminate; exact H.
Qed.

Lemma loadDocs_data (docs : list SlipDoc) (item : StateItem) :
  In item (snd (loadDocs docs)) ->
  exists doc e,
    In doc docs /\ docId doc = Some (imageId item) /\
    docExtractedData doc = Some e /\ data item = Some e.
Proof.
  induction docs as [|doc docs IH]; simpl.
  - intros [].
  - destruct (loadDocs docs) as [loadedImages loadedData]. simpl in IH.
    assert (Hrest : In item loadedData ->
                    exists doc0 e, (doc = doc0 \/ In doc0 docs) /\
                                   docId doc0 = Some (imageId item) /\
                                   docExtractedData doc0 = Some e /\
                                   data item = Some e).
    { intros H. destruct (IH H) as [d [e [Hd Hr]]]. exists d, e. tauto. }
    destruct (truthy (docId doc)) as [i|] eqn:Ei; [|exact Hrest].
    destruct (truthy (docDataUrl doc)) as [u|] eqn:Eu; [|exact Hrest].
    simpl. destruct (docExtractedData doc) as [e|] eqn:Ee; [|exact Hrest].
    intros [<-|H]; [|exact (Hrest H)].
    exists doc, e. simpl.
    split; [left; reflexivity|]. split; [apply truthy_Some; exact Ei|].
    split; [exact Ee|reflexivity].
Qed.

Lemma onSnapshot_data (docs : list SlipDoc) (item : StateItem) :
  In item (snd (onSnapshot docs)) ->
  exists doc e,
    In doc docs /\ docId doc = Some (imageId item) /\
    docExtractedData doc = Some e /\ data item = Some e.
Proof.
  unfold onSnapshot. intros H. apply loadDocs_data.
  destruct (loadDocs docs) as [loadedImages loadedData]. simpl in *.
  apply stableSort_In in H. exact H.
Qed.

(** C10: a record whose extraction payload is [null], which is what
    ingestion writes, is no prior result.  Loading the store makes an
    item only of a record whose payload is there; an image all of whose
    items (if any) have a [null] payload is sent to the model; when a
    turn of the loop makes no call, the image has an item with a
    payload; and so the batch calls the model for every loaded image
    whose records all have a [null] payload. *)
Theorem null_payload_is_no_prior_result (w : World) :
  (forall uniqueId imageDataUrl now,
     docExtractedData (newSlipDoc uniqueId imageDataUrl now) = None) /\
  (forall docs item,
     In item (snd (onSnapshot docs)) ->
     exists doc e,
       In doc docs /\ docId doc = Some (imageId item) /\
       docExtractedData doc = Some e /\ data item = Some e) /\
  (forall (extractedData : list StateItem) imageObj st,
     (forall item : StateItem,
        In item extractedData -> imageId item = id imageObj ->
        data item = None) ->
     apiCalls (processImage w extractedData st imageObj)
     = apiCalls st ++ [id imageObj]) /\
  (forall (extractedData : list StateItem) imageObj st,
     apiCalls (processImage w extractedData st imageObj) = apiCalls st ->
     exists item d,
       In item extractedData /\ imageId item = id imageObj /\
       data item = Some d) /\
  (forall docs imageObj,
     In imageObj (fst (onSnapshot docs)) ->
     (forall doc, In doc docs -> docId doc = Some (id imageObj) ->
                  docExtractedData doc = None) ->
     In (id imageObj)
        (apiCalls (processBatch w (fst (onSnapshot docs)) (snd (onSnapshot docs))))).
Proof.
  split; [reflexivity|]. split; [exact onSnapshot_data|].
  split; [|split].
  - intros extractedData imageObj st H.
    rewrite processImage_calls. unfold hasPrior.
    rewrite (existingExtracted_None extractedData imageObj H). reflexivity.
  - intros extractedData imageObj st H.
    rewrite processImage_calls in H. unfold hasPrior in H.
    destruct (existingExtracted extractedData imageObj) as [item|] eqn:E.
    + destruct (existingExtracted_Some extractedData imageObj item E)
        as [Hin [Hid [d Hd]]].
      exists item, d. auto.
    + exfalso. apply (f_equal (@List.length string)) in H.
      rewrite length_app in H. simpl in H. lia.
  - intros docs imageObj Hin Hnull. apply in_calls_iff.
    exists imageObj. split; [exact Hin|]. split; [reflexivity|].
    apply hasPrior_false_no_item. intros item Hitem Hid.
    destruct (onSnapshot_data docs item Hitem) as [doc [e [Hd [Hdid [He _]]]]].
    rewrite Hid in Hdid. rewrite (Hnull doc Hd Hdid) in He. discriminate.
Qed.

(** C10 on a store that holds an extracted image and an ingested one:
    the batch calls the model for the ingested image. *)
Lemma null_payload_is_no_prior_result_witness :
  In "b"
     (apiCalls (processBatch goodWorld (fst (onSnapshot sampleDocs))
                  (snd (onSnapshot sampleDocs)))).
Proof.
  apply (proj2 (proj2 (proj2 (proj2 (null_payload_is_no_prior_result goodWorld))))
           sampleDocs
           {| id := "b"; dataUrl := "data:image/png;base64,BBBB";
              timestamp := Some 2%Z |}).
  - right. left. reflexivity.
  - intros doc [<-|[<-|[]]]; simpl.
    + discriminate.
    + reflexivity.
Defined.

(* ----------------------------------------------------------------- *)
(** ** The CSV export *)

Section CsvFacts.
Local Open Scope string_scope.

Lemma append_nil_r (s : string) : s ++ EmptyString = s.
Proof. induction s as [|c s IH]; simpl; [|rewrite IH]; reflexivity. Qed.

Lemma append_assoc (a b c : string) : (a ++ b) ++ c = a ++ (b ++ c).
Proof. induction a as [|x a IH]; simpl; [|rewrite IH]; reflexivity. Qed.

Lemma prependField_cons (c : ascii) (v : string) (t : CsvTail) :
  addChar c (prependField v t) = prependField (String c v) t.
Proof. destruct t as [[f fs] rows]. reflexivity. Qed.

Lemma prependField_nil (t : CsvTail) : prependField EmptyString t = t.
Proof. destruct t as [[f fs] rows]. reflexivity. Qed.

(** Reading the inside of a quoted field gives the field back. *)
Lemma readFrom_doubleQuotes (v rest : string) :
  readFrom Quoted (doubleQuotes v ++ String dquote rest)
  = prependField v (readFrom QuoteSeen rest).
Proof.
  induction v as [|c v IH]; simpl.
  - rewrite prependField_nil. reflexivity.
  - destruct (Ascii.eqb c dquote) eqn:E.
    + apply Ascii.eqb_eq in E. subst c. simpl.
      rewrite IH. apply prependField_cons.
    + simpl. rewrite E. rewrite IH. apply prependField_cons.
Qed.

Lemma readFrom_quoteField (v rest : string) :
  readFrom FieldStart (quoteField v ++ rest)
  = prependField v (readFrom QuoteSeen rest).
Proof.
  unfold quoteField. simpl. rewrite append_assoc. simpl.
  apply readFrom_doubleQuotes.
Qed.

(** The line made of the quoted fields of a row. *)
Lemma readFrom_quoted_line (vs : list string) (rest : string) :
  vs <> [] ->
  readFrom FieldStart (join "," (map quoteField vs) ++ rest)
  = prependRow vs (readFrom QuoteSeen rest).
Proof.
  induction vs as [|v vs IH]; intros Hne; [congruence|].
  destruct vs as [|v2 vs].
  - simpl. apply readFrom_quoteField.
  - change (join "," (map quoteField (v :: v2 :: vs)))
      with (quoteField v ++ "," ++ join "," (map quoteField (v2 :: vs))).
    rewrite append_assoc, readFrom_quoteField.
    change (prependRow (v :: v2 :: vs) (readFrom QuoteSeen rest))
      with (prependField v (endField (prependRow (v2 :: vs) (readFrom QuoteSeen rest)))).
    rewrite <- IH by discriminate.
    reflexivity.
Qed.

(** The text that follows the first line of a document. *)
Lemma join_lines (line : string) (lines : list string) :
  join (String newline EmptyString) (line :: lines)
  = line ++ fold_right (fun l rest => String newline (l ++ rest)) EmptyString lines.
Proof.
  revert line. induction lines as [|l lines IH]; intros line.
  - simpl. rewrite append_nil_r. reflexivity.
  - change (join (String newline EmptyString) (line :: l :: lines))
      with (line ++ String newline EmptyString
                 ++ join (String newline EmptyString) (l :: lines)).
    rewrite IH. reflexivity.
Qed.

Lemma prependRow_start (v : string) (vs : list string) (rows : list (list string)) :
  prependRow (v :: vs) (EmptyString, [], rows) = (v, vs, rows).
Proof.
  revert v. induction vs as [|v2 vs IH]; intros v.
  - simpl. rewrite append_nil_r. reflexivity.
  - change (prependRow (v :: v2 :: vs) (EmptyString, [], rows))
      with (prependField v (endField (prependRow (v2 :: vs) (EmptyString, [], rows)))).
    rewrite IH. simpl. rewrite append_nil_r. reflexivity.
Qed.

(** Outside a quoted field, the end of the text and a line feed are
    read in the same way in every mode. *)
Lemma readFrom_line_end (m : CsvMode) (lines : list string) :
  m <> Quoted ->
  readFrom m (fold_right (fun l rest => String newline (l ++ rest)) EmptyString lines)
  = match lines with
    | [] => (EmptyString, [], [])
    | l :: lines' =>
        endRow (readFrom FieldStart
                  (l ++ fold_right (fun l rest => String newline (l ++ rest))
                          EmptyString lines'))
    end.
Proof.
  intros Hm. destruct lines as [|l lines]; simpl.
  - reflexivity.
  - destruct m; try reflexivity. congruence.
Qed.

(** Reading the quoted lines of a list of rows gives the rows back. *)
Lemma readFrom_quoted_lines (m : CsvMode) (rows : list (list string)) :
  m <> Quoted ->
  Forall (fun vs => vs <> []) rows ->
  readFrom m
    (fold_right (fun l rest => String newline (l ++ rest)) EmptyString
       (map (fun vs => join "," (map quoteField vs)) rows))
  = (EmptyString, [], rows).
Proof.
  intros Hm Hrows. revert m Hm.
  induction Hrows as [|vs rows Hvs Hrows IH]; intros m Hm.
  - rewrite readFrom_line_end by exact Hm. reflexivity.
  - rewrite readFrom_line_end by exact Hm. cbn [map].
    rewrite readFrom_quoted_line by exact Hvs.
    rewrite IH by discriminate.
    destruct vs as [|v vs]; [congruence|].
    rewrite prependRow_start. reflexivity.
Qed.

(** A line of fields that need no quoting. *)
Lemma readFrom_plain (h rest : string) :
  plainText h = true ->
  readFrom Bare (h ++ rest) = prependField h (readFrom Bare rest).
Proof.
  induction h as [|c h IH]; intros Hp.
  - simpl. rewrite prependField_nil. reflexivity.
  - unfold plainText in Hp. simpl in Hp.
    apply andb_true_iff in Hp. destruct Hp as [Hc Hp].
    apply negb_true_iff in Hc.
    apply orb_false_iff in Hc. destruct Hc as [Hc Hn].
    apply orb_false_iff in Hc. destruct Hc as [Hq Hc].
    simpl. rewrite Hq, Hc, Hn. rewrite (IH Hp). apply prependField_cons.
Qed.

Lemma readFrom_start_bare (s : string) :
  match s with
  | EmptyString => True
  | String c _ => Ascii.eqb c dquote = false
  end ->
  readFrom FieldStart s = readFrom Bare s.
Proof.
  destruct s as [|c s]; [reflexivity|]. intros H. simpl. rewrite H. reflexivity.
Qed.

Lemma readFrom_plain_line (hs : list string) (lines : list string) :
  hs <> [] ->
  forallb plainText hs = true ->
  readFrom FieldStart
    (join "," hs
     ++ fold_right (fun l rest => String newline (l ++ rest)) EmptyString lines)
  = prependRow hs
      (readFrom Bare
         (fold_right (fun l rest => String newline (l ++ rest)) EmptyString lines)).
Proof.
  intros Hne Hp.
  assert (Hstart : forall h rest,
             plainText h = true ->
             match rest with
             | EmptyString => True
             | String c _ => Ascii.eqb c dquote = false
             end ->
             readFrom FieldStart (h ++ rest) = prependField h (readFrom Bare rest)).
  { intros h rest Hh Hr. rewrite <- readFrom_plain by exact Hh.
    apply readFrom_start_bare.
    destruct h as [|c h]; [exact Hr|]. simpl.
    unfold plainText in Hh. simpl in Hh.
    apply andb_true_iff in Hh. destruct Hh as [Hc _].
    apply negb_true_iff in Hc.
    apply orb_false_iff in Hc. destruct Hc as [Hc _].
    apply orb_false_iff in Hc. destruct Hc as [Hq _]. exact Hq. }
  induction hs as [|h hs IH]; [congruence|].
  simpl in Hp. apply andb_true_iff in Hp. destruct Hp as [Hh Hp].
  destruct hs as [|h2 hs].
  - simpl. apply Hstart; [exact Hh|].
    destruct lines; simpl; [exact I|reflexivity].
  - change (join "," (h :: h2 :: hs)) with (h ++ "," ++ join "," (h2 :: hs)).
    rewrite append_assoc. rewrite Hstart; [|exact Hh|reflexivity].
    change (prependRow (h :: h2 :: hs) ?t)
      with (prependField h (endField (prependRow (h2 :: hs) t))).
    rewrite <- IH; [|discriminate|exact Hp].
    reflexivity.
Qed.

(** The quoting of line 244 is standard CSV quoting. *)
Lemma quoteField_csvQuoted (v : string) : quoteField v = csvQuoted v.
Proof.
  unfold quoteField, csvQuoted. simpl. f_equal.
  induction v as [|c v IH]; [reflexivity|].
  simpl. destruct (Ascii.eqb c dquote) eqn:E.
  - apply Ascii.eqb_eq in E. subst c. simpl. rewrite IH. reflexivity.
  - simpl. rewrite IH. reflexivity.
Qed.

Lemma readCsv_generateCsv (viewerUrlBase appId userId : string) (data : list Slip) :
  readCsv (generateCsv viewerUrlBase appId userId data)
  = headers :: map (rowOf viewerUrlBase appId userId) data.
Proof.
  unfold readCsv, generateCsv, csvRows.
  rewrite join_lines.
  rewrite readFrom_plain_line; [|discriminate|reflexivity].
  rewrite <- map_map with (f := rowOf viewerUrlBase appId userId)
                          (g := fun vs => join "," (map quoteField vs)).
  rewrite readFrom_quoted_lines.
  - reflexivity.
  - discriminate.
  - apply Forall_forall. intros vs Hvs. apply in_map_iff in Hvs.
    destruct Hvs as [item [<- _]]. discriminate.
Qed.

Section RoundTrip.
Variable viewerUrlBase appId userId : string.

(** C8: the export is the line of the thirteen column names followed by
    one line for each result, in the order of the input; the line of a
    result holds its thirteen field values (the image id, the link to
    the image, and the eleven extraction fields, an absent one as the
    empty text), each written between quotes with its own quotes
    doubled; reading the document back, rows at line feeds and columns
    at commas with CSV quoting respected, gives the column names and
    then, result by result, exactly those field values, whatever
    commas, quotes or line feeds they hold; and the recipient name of
    the specification is written as the specification says. *)
Theorem generateCsv_round_trip (results : list Slip) :
  let shown := fun field : option string =>
    match field with
    | Some text => text
    | None => EmptyString
    end in
  let fieldValues := fun item : Slip =>
    let f := fields (data item) in
    [ imageId item;
      viewerUrlBase ++ "?imageId=" ++ imageId item ++ "&appId=" ++ appId
      ++ "&userId=" ++ userId;
      shown (senderName f);
      shown (recipientName f);
      shown (amount f);
      shown (transactionDate f);
      shown (transactionTime f);
      shown (transactionId f);
      shown (senderBankName f);
      shown (senderBankAccountNumber f);
      shown (recipientBankName f);
      shown (recipientBankAccountNumber f);
      shown (country f) ] in
  let columnNames :=
    [ "Image ID"; "View Image URL"; "ชื่อผู้ส่ง"; "ชื่อผู้รับ"; "จำนวนเงิน";
      "วันที่ทำรายการ"; "เวลาทำรายการ"; "รหัสอ้างอิงการทำรายการ";
      "ชื่อธนาคารต้นทาง"; "เลขบัญชีต้นทาง"; "ชื่อธนาคารปลายทาง";
      "เลขบัญชีปลายทาง"; "ประเทศ" ] in
  let document := generateCsv viewerUrlBase appId userId results in
  (document
   = join (String newline EmptyString)
       (join "," columnNames
        :: map (fun item => join "," (map csvQuoted (fieldValues item))) results)) /\
  (readCsv document = columnNames :: map fieldValues results) /\
  (csvQuoted quotedName
   = String dquote
       ("He said "
        ++ String dquote (String dquote
             ("hi" ++ String dquote (String dquote
                (", ok" ++ String dquote EmptyString)))))).
Proof.
  intros shown fieldValues columnNames document.
  split; [|split; [|reflexivity]].
  - unfold document, generateCsv, csvRows. do 2 f_equal.
    apply map_ext. intros item. f_equal.
    apply map_ext. intros v. apply quoteField_csvQuoted.
  - unfold document. rewrite readCsv_generateCsv. reflexivity.
Qed.

End RoundTrip.

End CsvFacts.

(* ----------------------------------------------------------------- *)
(** ** Searching *)

Lemma prefix_spec (a b : string) :
  String.prefix a b = true <-> exists post, b = (a ++ post)%string.
Proof.
  revert b. induction a as [|x a IH]; intros b.
  - split; [intros _; exists b; reflexivity|].
    intros _. destruct b; reflexivity.
  - destruct b as [|y b]; simpl.
    + split; [discriminate|]. intros [post H]. discriminate.
    + destruct (ascii_dec x y) as [->|Hne].
      * rewrite IH. split; intros [post H]; exists post.
        -- rewrite H. reflexivity.
        -- inversion H. reflexivity.
      * split; [discriminate|]. intros [post H]. inversion H. subst. exfalso. apply Hne. reflexivity.
Qed.

(** [includes] decides the substring relation. *)
Lemma includes_spec (hay needle : string) :
  includes hay needle = true <-> substringOf needle hay.
Proof.
  unfold substringOf. induction hay as [|c hay IH]; cbn [includes].
  - rewrite orb_false_r, prefix_spec. split.
    + intros [post H]. exists EmptyString, post. exact H.
    + intros [pre [post H]]. destruct pre; [exists post; exact H|discriminate].
  - rewrite orb_true_iff, prefix_spec, IH. split.
    + intros [[post H]|[pre [post H]]].
      * exists EmptyString, post. exact H.
      * exists (String c pre), post. simpl. rewrite H. reflexivity.
    + intros [pre [post H]]. destruct pre as [|x pre].
      * left. exists post. exact H.
      * right. inversion H. exists pre, post. reflexivity.
Qed.

Section SearchFacts.
Variable toLowerCase : string -> string.

Lemma matchesQuery_fields (lowerCaseQuery : string) (item : Slip) :
  matchesQuery toLowerCase lowerCaseQuery item
  = existsb (fun s => includes (toLowerCase s) lowerCaseQuery) (stringFields item).
Proof.
  unfold matchesQuery, stringFields.
  set (p := fun s => includes (toLowerCase s) lowerCaseQuery).
  assert (H : forall x l,
             existsb p (flat_map (fun x => match x with Some s => [s] | None => [] end)
                          (x :: l))
             = fieldIncludes toLowerCase lowerCaseQuery x
               || existsb p (flat_map (fun x => match x with Some s => [s] | None => [] end) l)).
  { intros [s|] l; simpl; reflexivity. }
  cbn [existsb]. rewrite !H. simpl flat_map. cbn [existsb].
  rewrite orb_false_r. unfold fieldIncludes at 1. fold p.
  rewrite <- !orb_assoc. reflexivity.
Qed.

(** C7: the search keeps exactly the results one of whose string-valued
    fields (the image id or an extraction field that is there) contains
    the query when both are put in lower case, in the order of the
    input; for the empty query it returns the input as it is. *)
Theorem filteredExtractedData_spec (searchQuery : string) (extractedData : list Slip) :
  filteredExtractedData toLowerCase EmptyString extractedData = extractedData /\
  (searchQuery <> EmptyString ->
   (forall item,
      In item (filteredExtractedData toLowerCase searchQuery extractedData) <->
      In item extractedData /\
      exists field, In field (stringFields item) /\
                    substringOf (toLowerCase searchQuery) (toLowerCase field)) /\
   exists keep : Slip -> bool,
     (forall item,
        keep item = true <->
        exists field, In field (stringFields item) /\
                      substringOf (toLowerCase searchQuery) (toLowerCase field)) /\
     filteredExtractedData toLowerCase searchQuery extractedData
     = filter keep extractedData).
Proof.
  split; [reflexivity|]. intros Hq.
  assert (Hkeep : forall item,
             matchesQuery toLowerCase (toLowerCase searchQuery) item = true <->
             exists field, In field (stringFields item) /\
                           substringOf (toLowerCase searchQuery) (toLowerCase field)).
  { intros item. rewrite matchesQuery_fields, existsb_exists.
    split; intros [field [Hin H]]; exists field; split; try exact Hin;
      apply includes_spec; exact H. }
  assert (Hf : filteredExtractedData toLowerCase searchQuery extractedData
               = filter (matchesQuery toLowerCase (toLowerCase searchQuery)) extractedData).
  { unfold filteredExtractedData. destruct searchQuery; [congruence|reflexivity]. }
  split.
  - intros item. rewrite Hf, filter_In, Hkeep. reflexivity.
  - exists (matchesQuery toLowerCase (toLowerCase searchQuery)). split; assumption.
Qed.

End SearchFacts.

(** C7 for the query [krung] among two sample results. *)
Lemma filteredExtractedData_spec_witness :
  In {| imageId := "a"; data := extractedOf sampleJson |}
     (filteredExtractedData lowerAscii "krung"
        [ {| imageId := "a"; data := extractedOf sampleJson |};
          {| imageId := "b"; data := extractedOf noFields |} ]).
Proof.
  apply (proj1 (proj2 (filteredExtractedData_spec lowerAscii "krung"
                         [ {| imageId := "a"; data := extractedOf sampleJson |};
                           {| imageId := "b"; data := extractedOf noFields |} ])
                  ltac:(discriminate))).
  split.
  - left. reflexivity.
  - exists "Krungsri". split.
    + simpl. tauto.
    + exists EmptyString, "sri". reflexivity.
Defined.

(* ----------------------------------------------------------------- *)
(** ** Plain objects *)

Section ObjectFacts.
Variable V : Type.
Implicit Types (o : JsObject V) (k : string) (v : V).

Lemma getOwn_setOwn_same k v o : getOwn k (setOwn k v o) = Some v.
Proof.
  induction o as [|[k' v'] o IH]; simpl.
  - rewrite String.eqb_refl. reflexivity.
  - destruct (String.eqb k' k) eqn:E; simpl.
    + rewrite String.eqb_refl. reflexivity.
    + rewrite E. exact IH.
Qed.

Lemma getOwn_setOwn_other k k' v o :
  k <> k' -> getOwn k' (setOwn k v o) = getOwn k' o.
Proof.
  intros Hne. induction o as [|[k0 v0] o IH]; simpl.
  - apply String.eqb_neq in Hne. rewrite Hne. reflexivity.
  - destruct (String.eqb k0 k) eqn:E; simpl.
    + apply String.eqb_eq in E. subst k0.
      apply String.eqb_neq in Hne. rewrite Hne. reflexivity.
    + rewrite IH. reflexivity.
Qed.

Lemma getOwn_None k o : getOwn k o = None <-> ~ In k (map fst o).
Proof.
  induction o as [|[k' v'] o IH]; simpl.
  - tauto.
  - destruct (String.eqb_spec k' k) as [->|Hne].
    + split; [discriminate|]. intros H. exfalso. apply H. left. reflexivity.
    + rewrite IH. tauto.
Qed.

(** An assignment creates a key only when the key is new, and then
    after all the others. *)
Lemma setOwn_keys k v o :
  map fst (setOwn k v o)
  = match getOwn k o with
    | Some _ => map fst o
    | None => map fst o ++ [k]
    end.
Proof.
  induction o as [|[k' v'] o IH]; simpl.
  - reflexivity.
  - destruct (String.eqb_spec k' k) as [->|Hne]; simpl.
    + reflexivity.
    + rewrite IH. destruct (getOwn k o); reflexivity.
Qed.

(** Under a name that [Object.prototype] does not have, reading and
    assigning see the own properties only. *)
Lemma getProp_own k o :
  isPrototypeMember k = false ->
  getProp k o = match getOwn k o with
                | Some v => Own v
                | None => Undefined
                end.
Proof.
  intros Hk. unfold getProp. rewrite Hk. reflexivity.
Qed.

Lemma setProp_own k v o :
  isPrototypeMember k = false -> setProp k v o = setOwn k v o.
Proof.
  intros Hk. unfold setProp.
  destruct (String.eqb_spec k "__proto__") as [->|_]; [discriminate Hk|reflexivity].
Qed.

(** An own property hides the member of the same name. *)
Lemma getProp_of_own k v o : getOwn k o = Some v -> getProp k o = Own v.
Proof.
  intros H. unfold getProp. rewrite H. reflexivity.
Qed.

(** No assignment gives an object an own property [__proto__]. *)
Lemma setProp_no_proto k v o :
  getOwn "__proto__" o = None -> getOwn "__proto__" (setProp k v o) = None.
Proof.
  intros H. unfold setProp.
  destruct (String.eqb_spec k "__proto__") as [->|Hne]; [exact H|].
  rewrite getOwn_setOwn_other by exact Hne. exact H.
Qed.

End ObjectFacts.

Lemma filter_filter_comm {A : Type} (p q : A -> bool) (l : list A) :
  filter p (filter q l) = filter (fun x => p x && q x) l.
Proof.
  induction l as [|x l IH]; simpl; [reflexivity|].
  destruct (q x); simpl; destruct (p x); simpl; rewrite IH; reflexivity.
Qed.

Lemma firstSeen_In (ks : list string) (k : string) :
  In k (firstSeen ks) <-> In k ks.
Proof.
  induction ks as [|x ks IH]; simpl; [tauto|].
  rewrite filter_In, IH.
  destruct (String.eqb_spec k x) as [->|Hne]; simpl.
  - split; [intros _; left; reflexivity|]. intros _. left. reflexivity.
  - split.
    + intros [H|[H _]]; [left; exact H|right; exact H].
    + intros [H|H]; [left; exact H|right; split; [exact H|reflexivity]].
Qed.

Lemma firstSeen_NoDup (ks : list string) : NoDup (firstSeen ks).
Proof.
  induction ks as [|x ks IH]; simpl; constructor.
  - intros H. apply filter_In in H. destruct H as [_ H].
    rewrite String.eqb_refl in H. discriminate.
  - apply NoDup_filter. exact IH.
Qed.

(** ** The grouping loops *)

Section GroupFacts.
Variables A V : Type.
Variable key : A -> option string.
Variable upd : option V -> A -> V.

(** The keys of the object the loop builds: those it started with, then
    the new ones in the order in which they are first met. *)
Lemma group_keys (l : list A) :
  forall o,
    map fst (fold_left (groupStep key upd) l o)
    = map fst o ++ filter (notKeyOf o) (firstSeen (keysOf key l)).
Proof.
  induction l as [|a l IH]; intros o; simpl.
  - rewrite app_nil_r. reflexivity.
  - rewrite IH. unfold groupStep.
    destruct (key a) as [k|] eqn:Ek; simpl; [|reflexivity].
    rewrite setOwn_keys. unfold notKeyOf at 2.
    set (o' := setOwn k (upd (getOwn k o) a) o).
    assert (Hn : forall x, notKeyOf o' x = notKeyOf o x && negb (String.eqb x k)).
    { intros x. unfold notKeyOf, o'.
      destruct (String.eqb_spec x k) as [->|Hne].
      - rewrite getOwn_setOwn_same, andb_false_r. reflexivity.
      - rewrite getOwn_setOwn_other by congruence.
        rewrite andb_true_r. reflexivity. }
    rewrite (filter_ext _ _ Hn).
    rewrite filter_filter_comm.
    destruct (getOwn k o) eqn:Eg.
    + reflexivity.
    + rewrite <- app_assoc. reflexivity.
Qed.

(** The value the loop leaves under a key is built from the elements
    filed under that key, in their order. *)
Lemma group_get (k : string) (l : list A) :
  forall o,
    getOwn k (fold_left (groupStep key upd) l o)
    = fold_left (fun cur a => Some (upd cur a)) (groupOf key k l) (getOwn k o).
Proof.
  induction l as [|a l IH]; intros o; simpl.
  - reflexivity.
  - rewrite IH. unfold groupStep.
    destruct (key a) as [k'|] eqn:Ek; [|reflexivity].
    destruct (String.eqb_spec k' k) as [->|Hne]; simpl.
    + rewrite getOwn_setOwn_same. reflexivity.
    + rewrite getOwn_setOwn_other by exact Hne. reflexivity.
Qed.

Lemma groupOf_nil_iff (k : string) (l : list A) :
  groupOf key k l = [] <-> ~ In k (keysOf key l).
Proof.
  induction l as [|a l IH]; simpl; [tauto|].
  unfold keysOf in *. simpl. rewrite in_app_iff.
  destruct (key a) as [k'|]; simpl.
  - destruct (String.eqb_spec k' k) as [->|Hne].
    + split; [discriminate|]. intros H. exfalso. apply H. left. left. reflexivity.
    + rewrite IH. split; [intros H [[E|[]]|H2]; [congruence|tauto]|tauto].
  - rewrite IH. tauto.
Qed.

(** The keys of a list and of what follows its first element. *)
Lemma ownNames_cons (a : A) (l : list A) :
  ownNames (keysOf key (a :: l)) ->
  (forall k, key a = Some k -> isPrototypeMember k = false) /\
  ownNames (keysOf key l).
Proof.
  intros H. split.
  - intros k Hk. apply H. unfold keysOf. simpl. rewrite Hk. left. reflexivity.
  - intros k Hk. apply H. unfold keysOf. simpl. apply in_or_app. right. exact Hk.
Qed.

End GroupFacts.

(** ** Counting loops *)

Lemma filter_all {A : Type} (p : A -> bool) (l : list A) :
  (forall x, In x l -> p x = true) -> filter p l = l.
Proof.
  induction l as [|x l IH]; intros H; simpl; [reflexivity|].
  rewrite (H x (or_introl eq_refl)), IH; [reflexivity|].
  intros y Hy. apply H. right. exact Hy.
Qed.

Lemma filter_none {A : Type} (p : A -> bool) (l : list A) :
  (forall x, In x l -> p x = false) -> filter p l = [].
Proof.
  induction l as [|x l IH]; intros H; simpl; [reflexivity|].
  rewrite (H x (or_introl eq_refl)). apply IH.
  intros y Hy. apply H. right. exact Hy.
Qed.

Lemma filter_split_perm {A : Type} (p : A -> bool) (l : list A) :
  Permutation (filter p l ++ filter (fun x => negb (p x)) l) l.
Proof.
  induction l as [|x l IH]; simpl; [apply perm_nil|].
  destruct (p x); simpl.
  - apply perm_skip. exact IH.
  - apply Permutation_sym, Permutation_cons_app, Permutation_sym. exact IH.
Qed.

(** [Object.keys] lists every key once. *)
Lemma keyOrder_perm (ks : list string) : Permutation (keyOrder ks) ks.
Proof.
  unfold keyOrder.
  apply perm_trans with (filter isArrayIndex ks ++ filter (fun k => negb (isArrayIndex k)) ks).
  - apply Permutation_app_tail. apply stableSort_perm.
  - apply filter_split_perm.
Qed.

(** Without array indices among the keys, it lists them in creation
    order. *)
Lemma keyOrder_plain (ks : list string) :
  (forall k, In k ks -> isArrayIndex k = false) -> keyOrder ks = ks.
Proof.
  intros H. unfold keyOrder.
  rewrite (filter_none isArrayIndex ks H). simpl.
  apply filter_all. intros k Hk. rewrite (H k Hk). reflexivity.
Qed.

(** The array indices come first, in ascending order, and the other
    keys follow in creation order. *)
Lemma keyOrder_indices_first (ks : list string) :
  exists indices,
    keyOrder ks = indices ++ filter (fun k => negb (isArrayIndex k)) ks /\
    Permutation indices (filter isArrayIndex ks) /\
    StronglySorted (fun a b => (indexOf a <= indexOf b)%Z) indices.
Proof.
  exists (stableSort (fun a b => (indexOf a <? indexOf b)%Z) (filter isArrayIndex ks)).
  split; [reflexivity|]. split; [apply stableSort_perm|].
  assert (H : StronglySorted (fun a b => (indexOf b <? indexOf a)%Z = false)
                (stableSort (fun a b => (indexOf a <? indexOf b)%Z)
                   (filter isArrayIndex ks))).
  { apply stableSort_sorted.
    - intros a b H. apply Z.ltb_lt in H. apply Z.ltb_ge. lia.
    - intros a b c H1 H2. apply Z.ltb_ge in H1, H2. apply Z.ltb_ge. lia. }
  induction H as [|a l Hl IH Ha]; constructor; [exact IH|].
  eapply Forall_impl; [|exact Ha].
  intros b Hb. apply Z.ltb_ge in Hb. exact Hb.
Qed.

(** Two comparators that agree on the elements of a list sort it alike. *)
Lemma insertSorted_ext_in {A : Type} (before before' : A -> A -> bool)
    (x : A) (l : list A) :
  (forall y, In y l -> before y x = before' y x) ->
  insertSorted before x l = insertSorted before' x l.
Proof.
  induction l as [|y l IH]; intros H; simpl; [reflexivity|].
  rewrite <- (H y (or_introl eq_refl)).
  destruct (before y x); [|reflexivity].
  rewrite IH; [reflexivity|]. intros z Hz. apply H. right. exact Hz.
Qed.

Lemma stableSort_ext_in {A : Type} (before before' : A -> A -> bool) (l : list A) :
  (forall a b, In a l -> In b l -> before a b = before' a b) ->
  stableSort before l = stableSort before' l.
Proof.
  induction l as [|x l IH]; intros H; simpl; [reflexivity|].
  rewrite <- IH by (intros a b Ha Hb; apply H; right; assumption).
  apply insertSorted_ext_in. intros y Hy.
  apply H; [right|left; reflexivity].
  apply (stableSort_In A before l y). exact Hy.
Qed.

Section CountFacts.
Variable A : Type.
Variable key : A -> option string.

Lemma groupOf_length (k : string) (l : list A) :
  List.length (groupOf key k l) = countOf k (keysOf key l).
Proof.
  unfold countOf, groupOf, keysOf.
  induction l as [|a l IH]; simpl; [reflexivity|].
  destruct (key a) as [k'|]; simpl; [|exact IH].
  rewrite (String.eqb_sym k k').
  destruct (String.eqb k' k); simpl; rewrite IH; reflexivity.
Qed.

Lemma count_fold (g : list A) :
  forall n,
    fold_left (fun cur a => Some (countUpd cur a)) g (Some (Num n))
    = Some (Num (n + List.length g)).
Proof.
  induction g as [|a g IH]; intros n.
  - simpl. rewrite Nat.add_0_r. reflexivity.
  - simpl fold_left. change (countUpd (Some (Num n)) a) with (Num (n + 1)).
    rewrite IH. simpl. do 2 f_equal. lia.
Qed.

Lemma count_fold_start (g : list A) :
  g <> [] ->
  fold_left (fun cur a => Some (countUpd cur a)) g None
  = Some (Num (List.length g)).
Proof.
  destruct g as [|a g]; [congruence|]. intros _. simpl fold_left.
  change (countUpd None a) with (Num 1).
  rewrite count_fold. reflexivity.
Qed.

(** The keys and the values of the object a counting loop builds. *)
Lemma count_keys (l : list A) :
  objectKeys (fold_left (groupStep key (@countUpd A)) l [])
  = keyOrder (firstSeen (keysOf key l)).
Proof.
  unfold objectKeys. rewrite group_keys. simpl.
  rewrite filter_all; [reflexivity|]. intros; reflexivity.
Qed.

Lemma count_get (k : string) (l : list A) :
  In k (keysOf key l) ->
  getOwn k (fold_left (groupStep key (@countUpd A)) l [])
  = Some (Num (countOf k (keysOf key l))).
Proof.
  intros Hin. rewrite group_get. simpl getOwn.
  rewrite count_fold_start.
  - rewrite groupOf_length. reflexivity.
  - intros E. apply (proj1 (groupOf_nil_iff A key k l) E). exact Hin.
Qed.

Lemma count_rows (R : Type) (mk : string -> Count -> R) (l : list A) :
  map (fun k => mk k (match getProp k (fold_left (groupStep key (@countUpd A)) l []) with
                      | Own c => c
                      | _ => Num 0
                      end))
    (objectKeys (fold_left (groupStep key (@countUpd A)) l []))
  = map (fun k => mk k (Num (countOf k (keysOf key l))))
      (keyOrder (firstSeen (keysOf key l))).
Proof.
  rewrite count_keys. apply map_ext_in. intros k Hk.
  rewrite (getProp_of_own _ k (Num (countOf k (keysOf key l)))); [reflexivity|].
  apply count_get.
  apply firstSeen_In. apply (Permutation_in _ (keyOrder_perm _)). exact Hk.
Qed.

(** As long as no key is the name of a member of [Object.prototype],
    a counting loop on a dictionary is the loop on own values. *)
Lemma bump_own (m : JsObject Count) (k : string) (a : A) :
  isPrototypeMember k = false ->
  bump m k = setOwn k (countUpd (getOwn k m) a) m.
Proof.
  intros Hk. unfold bump, countUpd.
  rewrite setProp_own, getProp_own by exact Hk.
  destruct (getOwn k m); reflexivity.
Qed.

Lemma counting_loop (step : JsObject Count -> A -> JsObject Count) (l : list A) :
  (forall m a, step m a = match key a with
                          | Some k => bump m k
                          | None => m
                          end) ->
  ownNames (keysOf key l) ->
  forall m,
    fold_left step l m = fold_left (groupStep key (@countUpd A)) l m.
Proof.
  intros Hstep. induction l as [|a l IH]; intros Hown m; [reflexivity|].
  apply ownNames_cons in Hown. destruct Hown as [Ha Hl].
  simpl. rewrite IH by exact Hl. f_equal.
  rewrite Hstep. unfold groupStep.
  destruct (key a) as [k|]; [|reflexivity].
  apply bump_own. apply Ha. reflexivity.
Qed.

(** The rows of a counting dashboard, sorted by descending count. *)
Lemma counted_rows_sorted (R : Type) (mk : string -> Count -> R)
    (cnt : R -> Count) (l : list A) :
  (forall k c, cnt (mk k c) = c) ->
  let rows := map (fun k => mk k (Num (countOf k (keysOf key l))))
                (keyOrder (firstSeen (keysOf key l))) in
  stableSort (fun a b => countBelow (cnt b) (cnt a)) rows
  = stableSort (fun a b => counted (cnt b) <? counted (cnt a)) rows.
Proof.
  intros Hcnt rows. apply stableSort_ext_in.
  intros a b Ha Hb.
  apply in_map_iff in Ha. destruct Ha as [ka [<- _]].
  apply in_map_iff in Hb. destruct Hb as [kb [<- _]].
  rewrite !Hcnt. reflexivity.
Qed.

End CountFacts.

(* ----------------------------------------------------------------- *)
(** ** Daily frequency *)

Lemma truthy_spec (x : option string) (s : string) :
  truthy x = Some s <-> x = Some s /\ s <> EmptyString.
Proof.
  destruct x as [[|c t]|]; simpl; split.
  - discriminate.
  - intros [H Hne]. inversion H. subst s. congruence.
  - intros H. inversion H. split; [reflexivity|discriminate].
  - intros [H _]. exact H.
  - discriminate.
  - intros [H _]. discriminate.
Qed.

Lemma keysOf_In (A : Type) (key : A -> option string) (l : list A) (k : string) :
  In k (keysOf key l) <-> exists a, In a l /\ key a = Some k.
Proof.
  unfold keysOf. rewrite in_flat_map. split.
  - intros [a [Ha Hk]]. exists a. split; [exact Ha|].
    destruct (key a) as [k'|]; [|destruct Hk].
    destruct Hk as [->|[]]. reflexivity.
  - intros [a [Ha Hk]]. exists a. split; [exact Ha|]. rewrite Hk. left. reflexivity.
Qed.

Lemma frequencyStep_group (extractedData : list Slip) :
  ownNames (keysOf dateKey extractedData) ->
  forall m,
    fold_left frequencyStep extractedData m
    = fold_left (groupStep dateKey (@countUpd Slip)) extractedData m.
Proof.
  apply counting_loop. intros m a. reflexivity.
Qed.

Lemma dailyFrequencyData_rows (extractedData : list Slip) :
  ownNames (keysOf dateKey extractedData) ->
  dailyFrequencyData extractedData
  = stableSort (fun a b => counted (count b) <? counted (count a))
      (map (fun d => {| date := d;
                        count := Num (countOf d (keysOf dateKey extractedData)) |})
         (keyOrder (firstSeen (keysOf dateKey extractedData)))).
Proof.
  intros Hown. unfold dailyFrequencyData.
  rewrite (frequencyStep_group extractedData Hown).
  rewrite (count_rows Slip dateKey DateCount Build_DateCount).
  apply (counted_rows_sorted Slip dateKey DateCount Build_DateCount count).
  reflexivity.
Qed.

(** C5, as the claim states it, fails: two dates that are written as
    plain integers are listed by [Object.keys] in ascending numeric
    order, so with equal counts the date met second comes first. *)
Lemma tie_order_counterexample :
  dailyFrequencyData [withDate "20240102"; withDate "20240101"]
  = [ {| date := "20240101"; count := Num 1 |};
      {| date := "20240102"; count := Num 1 |} ] /\
  firstSeen (keysOf dateKey [withDate "20240102"; withDate "20240101"])
  = ["20240102"; "20240101"] /\
  map date (dailyFrequencyData [withDate "20240102"; withDate "20240101"])
  <> firstSeen (keysOf dateKey [withDate "20240102"; withDate "20240101"]).
Proof.
  split; [reflexivity|]. split; [reflexivity|]. discriminate.
Qed.

(** A date that is the name of a member of [Object.prototype] is not
    counted: the records dated [__proto__] leave no group at all, and
    the group of the date [constructor] holds a text for a count. *)
Lemma dailyFrequencyData_inherited_name :
  dailyFrequencyData [withDate "__proto__"; withDate "2024-01-01"]
  = [ {| date := "2024-01-01"; count := Num 1 |} ] /\
  dailyFrequencyData [withDate "constructor"; withDate "constructor"]
  = [ {| date := "constructor"; count := Text "constructor" 2 |} ].
Proof.
  split; reflexivity.
Qed.

(** C5 (amended): when no date is the name of a member of
    [Object.prototype], records without a date are left out, there is
    one group for each distinct date, its count is the number of records
    of that date, and the groups are sorted by descending count.  Groups
    of equal count keep the order in which [Object.keys] lists the
    dates: dates written as array indices first, in ascending numeric
    order, then the other dates as first met; so ties keep the order in
    which the dates are first met whenever no date is an array index.
    For the dates 2024-01-01, 2024-01-01, 2024-01-02 the output is
    2024-01-01 with count 2, then 2024-01-02 with count 1. *)
Theorem dailyFrequencyData_spec (extractedData : list Slip) :
  let dates := keysOf dateKey extractedData in
  let out := dailyFrequencyData extractedData in
  let row := fun d => {| date := d; count := Num (countOf d dates) |} in
  ownNames dates ->
  (forall d,
     In d dates <->
     d <> EmptyString /\
     exists item, In item extractedData /\
                  transactionDate (fields (data item)) = Some d) /\
  Permutation (map date out) (firstSeen dates) /\
  (forall e, In e out -> count e = Num (countOf (date e) dates)) /\
  StronglySorted (fun a b => counted (count b) <= counted (count a)) out /\
  (forall c,
     filter (fun e => counted (count e) =? c) out
     = filter (fun e => counted (count e) =? c)
         (map row (keyOrder (firstSeen dates)))) /\
  ((forall d, In d dates -> isArrayIndex d = false) ->
   forall c,
     filter (fun e => counted (count e) =? c) out
     = filter (fun e => counted (count e) =? c) (map row (firstSeen dates))) /\
  dailyFrequencyData
    [withDate "2024-01-01"; withDate "2024-01-01"; withDate "2024-01-02"]
  = [ {| date := "2024-01-01"; count := Num 2 |};
      {| date := "2024-01-02"; count := Num 1 |} ].
Proof.
  intros dates out row Hown.
  assert (Hout : out = stableSort (fun a b => counted (count b) <? counted (count a))
                         (map row (keyOrder (firstSeen dates)))).
  { apply dailyFrequencyData_rows. exact Hown. }
  assert (Hties : forall c,
             filter (fun e => counted (count e) =? c) out
             = filter (fun e => counted (count e) =? c)
                 (map row (keyOrder (firstSeen dates)))).
  { intros c. rewrite Hout.
    apply (sort_descending_stable DateCount (fun e => counted (count e))). }
  split; [|split; [|split; [|split; [|split; [|split]]]]].
  - intros d. unfold dates. rewrite keysOf_In. split.
    + intros [item [Hin Hk]]. apply truthy_spec in Hk. destruct Hk as [Hk Hne].
      split; [exact Hne|]. exists item. split; assumption.
    + intros [Hne [item [Hin Hk]]]. exists item. split; [exact Hin|].
      apply truthy_spec. split; assumption.
  - rewrite Hout.
    apply perm_trans with (map date (map row (keyOrder (firstSeen dates)))).
    + apply Permutation_map, stableSort_perm.
    + rewrite map_map. simpl. rewrite map_id. apply keyOrder_perm.
  - intros e He. rewrite Hout in He. apply stableSort_In in He.
    apply in_map_iff in He. destruct He as [d [<- _]]. reflexivity.
  - rewrite Hout.
    apply (sort_descending DateCount (fun e => counted (count e))).
  - exact Hties.
  - intros Hplain c. rewrite Hties, keyOrder_plain; [reflexivity|].
    intros k Hk. apply Hplain. apply firstSeen_In. exact Hk.
  - reflexivity.
Qed.

(** The amended C5 on four records of three dates that are neither
    array indices nor names of members of [Object.prototype]. *)
Lemma dailyFrequencyData_spec_witness :
  filter (fun e => counted (count e) =? 1)
    (dailyFrequencyData [withDate "b"; withDate "a"; withDate "c"; withDate "c"])
  = [ {| date := "b"; count := Num 1 |}; {| date := "a"; count := Num 1 |} ].
Proof.
  assert (Hown : ownNames (keysOf dateKey
                   [withDate "b"; withDate "a"; withDate "c"; withDate "c"])).
  { intros d [<-|[<-|[<-|[<-|[]]]]]; reflexivity. }
  apply (proj1 (proj2 (proj2 (proj2 (proj2 (proj2
           (dailyFrequencyData_spec
              [withDate "b"; withDate "a"; withDate "c"; withDate "c"] Hown))))))).
  intros d [<-|[<-|[<-|[<-|[]]]]]; reflexivity.
Defined.

(* ----------------------------------------------------------------- *)
(** ** Bank usage *)

Section BankFacts.
Variable toLowerCase : string -> string.
Variable trim : string -> string.




End BankFacts.


(** C9 fails on the code for a bank whose name is the name of a member
    of [Object.prototype], against the comment of line 615, which says
    that the dictionary maps a bank name to a count.  The records of
    the bank [__proto__] leave no group: line 631 reads the prototype,
    and its assignment creates no property.  The group of the bank
    [constructor] has a text for a value: line 631 reads the inherited
    function, and [+ 1] makes a string of it. *)
Theorem bankUsageData_inherited_name :
  canonicalizeBankName lowerAscii trimAscii "__proto__" = "__proto__" /\
  bankUsageData lowerAscii trimAscii [withBank "__proto__"; withBank "KTB"]
  = [ {| name := "KTB"; value := Num 1 |} ] /\
  canonicalizeBankName lowerAscii trimAscii "constructor" = "constructor" /\
  bankUsageData lowerAscii trimAscii [withBank "constructor"]
  = [ {| name := "constructor"; value := Text "constructor" 1 |} ].
Proof.
  split; [reflexivity|]. split; [reflexivity|]. split; reflexivity.
Qed.

(* ----------------------------------------------------------------- *)
(** ** Top recipient accounts *)

Lemma StronglySorted_app_elim {A : Type} (R : A -> A -> Prop) (l1 l2 : list A) :
  StronglySorted R (l1 ++ l2) ->
  StronglySorted R l1 /\ forall a b, In a l1 -> In b l2 -> R a b.
Proof.
  induction l1 as [|x l1 IH]; simpl; intros H.
  - split; [constructor|]. intros a b [].
  - inversion H as [|x' l' Hl Hx]; subst.
    destruct (IH Hl) as [Hs Hc].
    rewrite Forall_forall in Hx.
    split.
    + constructor; [exact Hs|]. apply Forall_forall.
      intros y Hy. apply Hx. apply in_or_app. left. exact Hy.
    + intros a b [<-|Ha] Hb.
      * apply Hx. apply in_or_app. right. exact Hb.
      * apply Hc; assumption.
Qed.

Lemma NoDup_firstn_of {A : Type} (n : nat) (l : list A) :
  NoDup l -> NoDup (firstn n l).
Proof.
  intros H. rewrite <- (firstn_skipn n l) in H.
  apply NoDup_app_remove_r in H. exact H.
Qed.

(** The first record of a list that has a bank name, if there is one. *)
Lemma firstBank_spec (g : list Slip) :
  (exists pre item post b,
     g = pre ++ item :: post /\
     (forall x, In x pre -> bankField x = None) /\
     bankField item = Some b /\
     firstBank g = b) \/
  ((forall x, In x g -> bankField x = None) /\ firstBank g = EmptyString).
Proof.
  induction g as [|a g IH].
  - right. split; [intros x []|reflexivity].
  - unfold bankField in *. simpl firstBank.
    destruct (recipientBankName (fields (data a))) as [[|c b]|] eqn:Ea.
    + destruct IH as [[pre [item [post [b [Hg [Hpre [Hb Hf]]]]]]]|[Hall Hf]].
      * left. exists (a :: pre), item, post, b.
        split; [rewrite Hg; reflexivity|]. split; [|split; [exact Hb|exact Hf]].
        intros x [<-|Hx]; [rewrite Ea; reflexivity|apply Hpre; exact Hx].
      * right. split; [|exact Hf].
        intros x [<-|Hx]; [rewrite Ea; reflexivity|apply Hall; exact Hx].
    + left. exists [], a, g, (String c b).
      split; [reflexivity|]. split; [intros x []|].
      split; [rewrite Ea; reflexivity|reflexivity].
    + destruct IH as [[pre [item [post [b [Hg [Hpre [Hb Hf]]]]]]]|[Hall Hf]].
      * left. exists (a :: pre), item, post, b.
        split; [rewrite Hg; reflexivity|]. split; [|split; [exact Hb|exact Hf]].
        intros x [<-|Hx]; [rewrite Ea; reflexivity|apply Hpre; exact Hx].
      * right. split; [|exact Hf].
        intros x [<-|Hx]; [rewrite Ea; reflexivity|apply Hall; exact Hx].
Qed.

Section AccountFacts.
Variable jsAdd : JsNumber -> JsNumber -> JsNumber.

(** As long as no account is the name of a member of
    [Object.prototype], nothing is written into the prototype, nothing
    is thrown, and the loop is the loop on own entries. *)
Lemma accountStep_group (extractedData : list Slip) :
  ownNames (keysOf accountKey extractedData) ->
  forall m,
    forEachUnlessThrown (accountStep jsAdd) extractedData
      {| statsMap := m; prototypeBankName := EmptyString |}
    = Some {| statsMap := fold_left (groupStep accountKey (accountUpd jsAdd))
                            extractedData m;
              prototypeBankName := EmptyString |}.
Proof.
  induction extractedData as [|item l IH]; intros Hown m; [reflexivity|].
  apply ownNames_cons in Hown. destruct Hown as [Hitem Hl].
  assert (Hstep : accountStep jsAdd {| statsMap := m; prototypeBankName := EmptyString |} item
                  = Some {| statsMap := groupStep accountKey (accountUpd jsAdd) m item;
                            prototypeBankName := EmptyString |}).
  { unfold accountStep, groupStep.
    change (truthy (recipientBankAccountNumber (fields (data item))))
      with (accountKey item).
    destruct (accountKey item) as [acc|] eqn:Ek; [|reflexivity].
    cbn [statsMap prototypeBankName].
    cbv zeta. rewrite getProp_own by (apply Hitem; reflexivity).
    destruct (getOwn acc m) as [s|]; cbv beta.
    - rewrite setProp_own by (apply Hitem; reflexivity). reflexivity.
    - rewrite andb_false_r.
      rewrite setProp_own by (apply Hitem; reflexivity). reflexivity. }
  simpl forEachUnlessThrown. rewrite Hstep. simpl fold_left. apply IH. exact Hl.
Qed.

(** The statistics of an account once the records of a list are added
    to them. *)
Lemma stats_fold (g : list Slip) :
  forall s,
    fold_left (fun cur a => Some (accountUpd jsAdd cur a)) g (Some s)
    = Some {| statCount := statCount s + List.length g;
              statTotalAmount := sumAmounts jsAdd (statTotalAmount s) g;
              statBankName := match statBankName s with
                              | EmptyString => firstBank g
                              | b => b
                              end |}.
Proof.
  induction g as [|a g IH]; intros s.
  - simpl. destruct s as [c t b]. simpl. rewrite Nat.add_0_r.
    destruct b; reflexivity.
  - simpl fold_left. rewrite IH. unfold accountUpd. simpl.
    f_equal. f_equal.
    + lia.
    + destruct (statBankName s) as [|c b];
        destruct (orEmpty (recipientBankName (fields (data a)))); reflexivity.
Qed.

Lemma stats_start (a : Slip) :
  accountUpd jsAdd None a = accountUpd jsAdd (Some emptyStats) a.
Proof.
  unfold accountUpd. simpl.
  destruct (orEmpty (recipientBankName (fields (data a)))); reflexivity.
Qed.

Lemma stats_of_group (g : list Slip) :
  g <> [] ->
  fold_left (fun cur a => Some (accountUpd jsAdd cur a)) g None
  = Some {| statCount := List.length g;
            statTotalAmount := sumAmounts jsAdd (JsNum 0) g;
            statBankName := firstBank g |}.
Proof.
  destruct g as [|a g]; [congruence|]. intros _.
  simpl fold_left. rewrite stats_start.
  change (Some (accountUpd jsAdd (Some emptyStats) a))
    with (fold_left (fun cur a => Some (accountUpd jsAdd cur a)) [a] (Some emptyStats)).
  rewrite <- fold_left_app. simpl app. rewrite stats_fold. reflexivity.
Qed.

Lemma topRecipientAccountsData_rows (extractedData : list Slip) :
  ownNames (keysOf accountKey extractedData) ->
  topRecipientAccountsData jsAdd extractedData
  = Some (firstn 5
            (stableSort (fun a b => transactionCount b <? transactionCount a)
               (map (accountRowOf jsAdd extractedData)
                  (keyOrder (firstSeen (keysOf accountKey extractedData)))))).
Proof.
  intros Hown. unfold topRecipientAccountsData.
  rewrite (accountStep_group extractedData Hown). cbn [statsMap].
  f_equal. f_equal. f_equal. unfold objectKeys. rewrite group_keys. simpl.
  rewrite filter_all by (intros; reflexivity).
  apply map_ext_in. intros acc Hacc.
  rewrite (getProp_of_own _ acc
             {| statCount := List.length (groupOf accountKey acc extractedData);
                statTotalAmount :=
                  sumAmounts jsAdd (JsNum 0) (groupOf accountKey acc extractedData);
                statBankName := firstBank (groupOf accountKey acc extractedData) |});
    [reflexivity|].
  rewrite group_get. simpl getOwn.
  apply stats_of_group.
  intros E. apply (proj1 (groupOf_nil_iff Slip accountKey acc extractedData) E).
  apply firstSeen_In. apply (Permutation_in _ (keyOrder_perm _)). exact Hacc.
Qed.

(** X22: when no account number is the name of a member of
    [Object.prototype], the loop does not throw and: records without an
    account number are left out; every row of the output is the row of
    one account of the input, with the number of its records, the sum
    of their amounts taken from left to right and starting from 0 (an
    amount that is [NaN] or zero adds 0), and the bank name of the
    first of its records that has one that is not empty, or a dash
    when none of them has one; no account has two rows; the rows are
    sorted by descending count; there are as many rows as accounts, but
    never more than five; and an account that is left out has no more
    records than any account that is kept. *)
Theorem topRecipientAccountsData_spec (extractedData : list Slip) :
  let accounts := keysOf accountKey extractedData in
  let amountOf := fun item : Slip =>
    match parsedAmount (data item) with
    | JsNaN => JsNum 0
    | JsNum q => if Qeq_bool q 0 then JsNum 0 else parsedAmount (data item)
    end in
  let noBank := fun item : Slip =>
    recipientBankName (fields (data item)) = None \/
    recipientBankName (fields (data item)) = Some EmptyString in
  ownNames accounts ->
  exists out,
    topRecipientAccountsData jsAdd extractedData = Some out /\
    (forall acc,
       In acc accounts <->
       acc <> EmptyString /\
       exists item, In item extractedData /\
                    recipientBankAccountNumber (fields (data item)) = Some acc) /\
    (forall r,
       In r out ->
       let records := groupOf accountKey (accountNumber r) extractedData in
       In (accountNumber r) accounts /\
       transactionCount r = countOf (accountNumber r) accounts /\
       transactionCount r = List.length records /\
       totalAmountTransferred r
       = fold_left (fun sum item => jsAdd sum (amountOf item)) records (JsNum 0) /\
       ((exists pre item post b,
           records = pre ++ item :: post /\
           (forall x, In x pre -> noBank x) /\
           recipientBankName (fields (data item)) = Some b /\
           b <> EmptyString /\
           bankName r = b) \/
        ((forall x, In x records -> noBank x) /\ bankName r = "-"))) /\
    NoDup (map accountNumber out) /\
    StronglySorted (fun a b => transactionCount b <= transactionCount a) out /\
    List.length out = Nat.min 5 (List.length (firstSeen accounts)) /\
    List.length out <= 5 /\
    (forall acc r,
       In acc accounts -> ~ In acc (map accountNumber out) -> In r out ->
       countOf acc accounts <= transactionCount r).
Proof.
  intros accounts amountOf noBank Hown.
  assert (HnoBank : forall x, bankField x = None -> noBank x).
  { intros x Hx. unfold bankField in Hx. unfold noBank.
    destruct (recipientBankName (fields (data x))) as [[|c t]|];
      [right; reflexivity|discriminate Hx|left; reflexivity]. }
  set (sorted := stableSort (fun a b => transactionCount b <? transactionCount a)
                   (map (accountRowOf jsAdd extractedData)
                      (keyOrder (firstSeen accounts)))).
  exists (firstn 5 sorted).
  split; [apply topRecipientAccountsData_rows; exact Hown|].
  assert (Hsorted : StronglySorted
                      (fun a b => transactionCount b <= transactionCount a) sorted).
  { apply sort_descending. }
  assert (Hperm : Permutation (map accountNumber sorted) (firstSeen accounts)).
  { apply perm_trans
      with (map accountNumber (map (accountRowOf jsAdd extractedData)
                                 (keyOrder (firstSeen accounts)))).
    - apply Permutation_map, stableSort_perm.
    - rewrite map_map. simpl. rewrite map_id. apply keyOrder_perm. }
  assert (Hrow : forall r, In r sorted ->
                           In (accountNumber r) accounts /\
                           r = accountRowOf jsAdd extractedData (accountNumber r)).
  { intros r Hr. apply stableSort_In in Hr. apply in_map_iff in Hr.
    destruct Hr as [acc [<- Hacc]]. simpl. split; [|reflexivity].
    apply firstSeen_In. apply (Permutation_in _ (keyOrder_perm _)). exact Hacc. }
  assert (Hin : forall r, In r (firstn 5 sorted) -> In r sorted).
  { intros r Hr. rewrite <- (firstn_skipn 5 sorted).
    apply in_or_app. left. exact Hr. }
  split; [|split; [|split; [|split; [|split; [|split]]]]].
  - intros acc. unfold accounts. rewrite keysOf_In. split.
    + intros [item [Hitem Hk]]. apply truthy_spec in Hk. destruct Hk as [Hk Hne].
      split; [exact Hne|]. exists item. split; assumption.
    + intros [Hne [item [Hitem Hk]]]. exists item. split; [exact Hitem|].
      apply truthy_spec. split; assumption.
  - intros r Hr records. destruct (Hrow r (Hin r Hr)) as [Hacc Heq].
    split; [exact Hacc|].
    split; [rewrite Heq at 1; simpl; apply groupOf_length|].
    split; [rewrite Heq at 1; reflexivity|].
    split; [rewrite Heq at 1; reflexivity|].
    assert (Hb : bankName r = orDash (firstBank records)).
    { rewrite Heq at 1. reflexivity. }
    destruct (firstBank_spec records)
      as [[pre [item [post [b [Hg [Hpre [Hitem Hf]]]]]]]|[Hall Hf]].
    + left. exists pre, item, post, b.
      apply truthy_spec in Hitem. destruct Hitem as [Hitem Hne].
      split; [exact Hg|].
      split; [intros x Hx; apply HnoBank, Hpre; exact Hx|].
      split; [exact Hitem|]. split; [exact Hne|].
      rewrite Hb, Hf. destruct b; [congruence|reflexivity].
    + right. split; [intros x Hx; apply HnoBank, Hall; exact Hx|].
      rewrite Hb, Hf. reflexivity.
  - rewrite <- firstn_map. apply NoDup_firstn_of.
    apply (Permutation_NoDup (Permutation_sym Hperm)). apply firstSeen_NoDup.
  - rewrite <- (firstn_skipn 5 sorted) in Hsorted.
    apply (StronglySorted_app_elim _ _ _ Hsorted).
  - rewrite length_firstn. f_equal.
    rewrite <- (Permutation_length Hperm), length_map. reflexivity.
  - rewrite length_firstn. apply Nat.le_min_l.
  - intros acc r Hacc Hnot Hr.
    assert (Hs : In (accountRowOf jsAdd extractedData acc) sorted).
    { apply stableSort_In. apply in_map.
      apply (Permutation_in _ (Permutation_sym (keyOrder_perm _))).
      apply firstSeen_In. exact Hacc. }
    rewrite <- (firstn_skipn 5 sorted) in Hs, Hsorted.
    apply in_app_or in Hs. destruct Hs as [Hs|Hs].
    + exfalso. apply Hnot.
      apply (in_map accountNumber) in Hs. exact Hs.
    + pose proof (proj2 (StronglySorted_app_elim _ _ _ Hsorted) _ _ Hr Hs) as Hle.
      simpl in Hle. rewrite groupOf_length in Hle. exact Hle.
Qed.

End AccountFacts.

(** X22 on three records of two accounts, one of which never has a
    bank name, with exact addition: its row shows a dash. *)
Lemma topRecipientAccountsData_spec_witness :
  exists out,
    topRecipientAccountsData exactAdd
      [ withAccount "123-4" None (10 # 1);
        withAccount "9" None (7 # 1);
        withAccount "123-4" (Some "SCB") (5 # 1) ]
    = Some out /\
    List.length out = 2 /\
    (forall r, In r out -> accountNumber r = "9" -> bankName r = "-") /\
    (forall r, In r out -> accountNumber r = "123-4" -> bankName r = "SCB").
Proof.
  assert (Hown : ownNames (keysOf accountKey
                   [ withAccount "123-4" None (10 # 1);
                     withAccount "9" None (7 # 1);
                     withAccount "123-4" (Some "SCB") (5 # 1) ])).
  { intros acc [<-|[<-|[<-|[]]]]; reflexivity. }
  destruct (topRecipientAccountsData_spec exactAdd _ Hown)
    as [out [Hout [_ [Hrows [_ [_ [Hlen _]]]]]]].
  exists out. split; [exact Hout|]. split; [exact Hlen|]. split.
  - intros r Hr Hacc.
    destruct (Hrows r Hr) as [_ [_ [_ [_ Hbank]]]].
    rewrite Hacc in Hbank.
    change (groupOf accountKey "9" _) with [withAccount "9" None (7 # 1)] in Hbank.
    destruct Hbank as [[pre [item [post [b [Hg [_ [Hb _]]]]]]]|[_ Hdash]]; [|exact Hdash].
    exfalso. destruct pre as [|x pre]; simpl in Hg.
    + injection Hg as Hitem _. subst item. discriminate Hb.
    + injection Hg as _ Hrest. destruct pre; discriminate Hrest.
  - intros r Hr Hacc.
    destruct (Hrows r Hr) as [_ [_ [_ [_ Hbank]]]].
    rewrite Hacc in Hbank.
    change (groupOf accountKey "123-4" _)
      with [withAccount "123-4" None (10 # 1); withAccount "123-4" (Some "SCB") (5 # 1)]
      in Hbank.
    destruct Hbank as [[pre [item [post [b [Hg [Hpre [Hb [_ Hname]]]]]]]]|[Hnone _]].
    + rewrite Hname. destruct pre as [|x pre]; simpl in Hg.
      * injection Hg as Hitem _. subst item. discriminate Hb.
      * injection Hg as _ Hrest. destruct pre as [|y pre]; simpl in Hrest.
        -- injection Hrest as Hitem _. subst item. injection Hb as Hb. symmetry. exact Hb.
        -- injection Hrest as _ Hrest. destruct pre; discriminate Hrest.
    + exfalso.
      destruct (Hnone (withAccount "123-4" (Some "SCB") (5 # 1)))
        as [H|H]; [right; left; reflexivity|discriminate H|discriminate H].
Defined.

(** C6 fails on the code for an account whose number is the name of a
    member of [Object.prototype], against the comment of line 577,
    which says that the dictionary maps an account number to its
    statistics.  For the account [constructor], line 586 finds the
    inherited function, no entry is created, and the counters are
    written into that function: the record is in no row.  The same
    holds of the account [__proto__]. *)
Theorem topRecipientAccountsData_inherited_name
    (jsAdd : JsNumber -> JsNumber -> JsNumber) :
  accountKey (withAccount "constructor" (Some "SCB") (10 # 1)) = Some "constructor" /\
  topRecipientAccountsData jsAdd
    [ withAccount "constructor" (Some "SCB") (10 # 1);
      withAccount "9" (Some "KBank") (7 # 1) ]
  = Some [ {| accountNumber := "9"; transactionCount := 1;
              totalAmountTransferred := jsAdd (JsNum 0) (JsNum (7 # 1));
              bankName := "KBank" |} ] /\
  topRecipientAccountsData jsAdd [ withAccount "__proto__" (Some "SCB") (10 # 1) ]
  = Some [].
Proof.
  split; [reflexivity|]. split; reflexivity.
Qed.

(** Once a record of the account [__proto__] has written its bank name
    into [Object.prototype], a record of the account [bankName] stops
    the loop with a [TypeError]. *)
Lemma topRecipientAccountsData_throws (jsAdd : JsNumber -> JsNumber -> JsNumber) :
  topRecipientAccountsData jsAdd
    [ withAccount "__proto__" (Some "SCB") (10 # 1);
      withAccount "bankName" None (7 # 1) ]
  = None.
Proof.
  reflexivity.
Qed.

(* ================================================================= *)
(** * Further properties *)

(* ----------------------------------------------------------------- *)
(** ** More on the amount normalizer *)

Lemma spanDigits_nondigit (c : ascii) (rest : string) :
  isDigit c = false -> spanDigits (String c rest) = (EmptyString, String c rest).
Proof. intros H. simpl. rewrite H. reflexivity. Qed.

Lemma spanDigits_head (s : string) :
  match s with
  | EmptyString => True
  | String d _ => isDigit d = false
  end ->
  spanDigits s = (EmptyString, s).
Proof.
  destruct s as [|d r]; [reflexivity|]. apply spanDigits_nondigit.
Qed.

Lemma spanDigits_fst_empty (s : string) :
  fst (spanDigits s) = EmptyString <->
  match s with
  | EmptyString => True
  | String d _ => isDigit d = false
  end.
Proof.
  destruct s as [|d r]; simpl; [tauto|].
  destruct (isDigit d); [|tauto].
  destruct (spanDigits r). simpl. split; discriminate.
Qed.

(** [parseUnsigned] finds a number exactly at the start of a decimal
    literal. *)
Lemma parseUnsigned_None_iff (s : string) :
  parseUnsigned s = None <-> startsLiteral s = false.
Proof.
  destruct s as [|c rest].
  - split; reflexivity.
  - destruct (isDigit c) eqn:Ec.
    + destruct (parseUnsigned_digit c rest Ec) as [q Hq]. rewrite Hq.
      simpl. rewrite Ec. split; discriminate.
    + unfold parseUnsigned. rewrite (spanDigits_nondigit c rest Ec).
      unfold startsLiteral. rewrite Ec. simpl orb.
      destruct (Ascii.eqb c ".") eqn:Ed.
      * apply Ascii.eqb_eq in Ed. subst c. simpl andb.
        pose proof (spanDigits_fst_empty rest) as Hf.
        destruct (spanDigits rest) as [fp r]. simpl in Hf.
        destruct fp as [|x fp].
        -- split; [intros _|reflexivity].
           destruct rest as [|d rest']; [reflexivity|]. apply Hf. reflexivity.
        -- split; [discriminate|]. intros H. exfalso.
           assert (Hx : String x fp = EmptyString); [|discriminate].
           apply Hf. destruct rest as [|d rest']; [exact I|exact H].
      * simpl andb.
        destruct c as [[] [] [] [] [] [] [] []];
          try discriminate Ed; split; reflexivity.
Qed.

Lemma parseFloat_isNaN (t : string) :
  isNaN (parseFloat t) = negb (startsLiteral (afterMinus t)).
Proof.
  assert (H : forall u, isNaN (match parseUnsigned u with
                               | Some q => JsNum q
                               | None => JsNaN
                               end) = negb (startsLiteral u)).
  { intros u. pose proof (parseUnsigned_None_iff u) as Hu.
    destruct (parseUnsigned u); destruct (startsLiteral u); simpl; try reflexivity.
    - discriminate (proj2 Hu eq_refl).
    - discriminate (proj1 Hu eq_refl). }
  destruct t as [|c rest]; [reflexivity|].
  destruct (Ascii.eqb c "-") eqn:Ec.
  - apply Ascii.eqb_eq in Ec. subst c. simpl afterMinus. simpl parseFloat.
    specialize (H rest). destruct (parseUnsigned rest); exact H.
  - apply Ascii.eqb_neq in Ec. rewrite (parseFloat_not_minus c rest Ec).
    replace (afterMinus (String c rest)) with (String c rest); [apply H|].
    destruct c as [[] [] [] [] [] [] [] []]; try reflexivity.
    exfalso. apply Ec. reflexivity.
Qed.

(** X1: the normalized amount is a number exactly when nothing is kept
    of the text, or the kept characters, after one leading minus sign
    if there is one, begin with a digit or with a point that a digit
    follows. *)
Theorem parseAmount_number_iff (s : string) :
  isNaN (parseAmount s) = false <->
  stripAmount s = EmptyString \/
  startsLiteral (afterMinus (stripAmount s)) = true.
Proof.
  rewrite parseAmount_unfold.
  destruct (stripAmount s) as [|c rest] eqn:E.
  - split; [intros _; left; reflexivity|reflexivity].
  - rewrite parseFloat_isNaN. rewrite negb_false_iff.
    split; [intros H; right; exact H|].
    intros [H|H]; [discriminate|exact H].
Qed.

Lemma stripAmount_app (a b : string) :
  stripAmount (a ++ b) = (stripAmount a ++ stripAmount b)%string.
Proof.
  induction a as [|c a IH]; simpl; [reflexivity|].
  destruct (amountChar c); simpl; rewrite IH; reflexivity.
Qed.

Lemma stripAmount_idem (s : string) : stripAmount (stripAmount s) = stripAmount s.
Proof.
  induction s as [|c s IH]; simpl; [reflexivity|].
  destruct (amountChar c) eqn:E; simpl; [rewrite E, IH|]; auto.
Qed.

(** X2: a character that is no digit, no point and no minus sign
    counts for nothing, wherever it stands in the amount text, and the
    text may be normalized before it is parsed. *)
Theorem parseAmount_ignores_other_characters (a b : string) (c : ascii) :
  amountChar c = false ->
  parseAmount (a ++ String c b) = parseAmount (a ++ b) /\
  parseAmount (stripAmount (a ++ b)) = parseAmount (a ++ b).
Proof.
  intros Hc. unfold parseAmount, parsedAmountOf. simpl option_map.
  rewrite !stripAmount_app, stripAmount_idem, stripAmount_idem.
  simpl stripAmount. rewrite Hc. split; reflexivity.
Qed.

(** X2 for the comma of [1,234]. *)
Lemma parseAmount_ignores_other_characters_witness :
  parseAmount "1,234" = parseAmount "1234".
Proof.
  apply (proj1 (parseAmount_ignores_other_characters "1" "234" ","%char eq_refl)).
Defined.

(** The decimal numeral of a natural number. *)
Lemma digitsValue_numeral (d : Decimal.uint) :
  forall acc : nat,
    digitsValue (Z.of_nat acc) (DecimalString.NilEmpty.string_of_uint d)
    = Z.of_nat (Nat.of_uint_acc d acc).
Proof.
  induction d; intros acc; cbn [DecimalString.NilEmpty.string_of_uint digitsValue Nat.of_uint_acc];
    try reflexivity;
    rewrite <- IHd; f_equal; rewrite Nat.tail_mul_spec;
    match goal with
    | |- context [nat_of_ascii ?c - 48] =>
        let v := eval vm_compute in (nat_of_ascii c - 48) in
        change (nat_of_ascii c - 48) with v
    end;
    lia.
Qed.

Lemma spanDigits_numeral (d : Decimal.uint) :
  spanDigits (DecimalString.NilEmpty.string_of_uint d)
  = (DecimalString.NilEmpty.string_of_uint d, EmptyString).
Proof.
  induction d; simpl; try reflexivity; rewrite IHd; reflexivity.
Qed.

Lemma stripAmount_numeral (d : Decimal.uint) :
  stripAmount (DecimalString.NilEmpty.string_of_uint d)
  = DecimalString.NilEmpty.string_of_uint d.
Proof.
  induction d; simpl; try reflexivity; rewrite IHd; reflexivity.
Qed.

(** X3: the decimal numeral of a natural number that a double holds
    exactly (a number of at most 2^53) is read back as that number.
    The bound is the range on which the exact value of the literal is
    the double the code stores; beyond it the code stores the nearest
    double. *)
Theorem parseAmount_of_numeral (n : nat) :
  exactInDouble (Z.of_nat n) = true ->
  parseAmount (DecimalString.NilZero.string_of_uint (Nat.to_uint n))
  = JsNum (Z.of_nat n # 1).
Proof.
  intros _.
  assert (Hn : exists c t,
             DecimalString.NilZero.string_of_uint (Nat.to_uint n) = String c t /\
             isDigit c = true /\
             spanDigits (String c t) = (String c t, EmptyString) /\
             stripAmount (String c t) = String c t /\
             digitsValue 0 (String c t) = Z.of_nat n).
  { pose proof (DecimalNat.Unsigned.of_to n) as Hof.
    unfold Nat.of_uint in Hof.
    pose proof (digitsValue_numeral (Nat.to_uint n) 0) as Hv.
    pose proof (spanDigits_numeral (Nat.to_uint n)) as Hs.
    pose proof (stripAmount_numeral (Nat.to_uint n)) as Hk.
    rewrite Hof in Hv. clear Hof.
    destruct (Nat.to_uint n) as [|d|d|d|d|d|d|d|d|d|d];
      [ exists "0"%char, EmptyString; simpl in Hv;
        repeat split; try reflexivity; rewrite <- Hv; reflexivity
      | eexists; eexists; (split; [reflexivity|]);
        (split; [reflexivity|]); (split; [exact Hs|]); (split; [exact Hk|exact Hv]) .. ]. }
  destruct Hn as [c [t [E [Hc [Hs [Hk Hv]]]]]].
  rewrite E, parseAmount_unfold, Hk.
  rewrite (parseFloat_not_minus c t (digit_not_minus c Hc)).
  unfold parseUnsigned. rewrite Hs. unfold decimalValue.
  rewrite append_nil_r, Hv. reflexivity.
Qed.

(** X3 on the numeral 1234. *)
Lemma parseAmount_of_numeral_witness :
  parseAmount "1234" = JsNum (1234 # 1).
Proof.
  apply (parseAmount_of_numeral 1234). reflexivity.
Defined.

(* ----------------------------------------------------------------- *)
(** ** More on the extraction loop *)

Lemma Subseq_refl (A : Type) (l : list A) : Subseq l l.
Proof. induction l; [apply SubseqNil|apply SubseqTake; assumption]. Qed.

Lemma Subseq_length (A : Type) (l1 l2 : list A) :
  Subseq l1 l2 -> List.length l1 <= List.length l2.
Proof. induction 1; simpl; lia. Qed.

Lemma Subseq_same_length (A : Type) (l1 l2 : list A) :
  Subseq l1 l2 -> List.length l1 = List.length l2 -> l1 = l2.
Proof.
  induction 1 as [|x l1 l2 H IH|x l1 l2 H IH]; simpl; intros E.
  - reflexivity.
  - apply Subseq_length in H. lia.
  - f_equal. apply IH. lia.
Qed.

Lemma Subseq_app (A : Type) (a1 a2 b1 b2 : list A) :
  Subseq a1 a2 -> Subseq b1 b2 -> Subseq (a1 ++ b1) (a2 ++ b2).
Proof.
  induction 1; simpl; intros Hb.
  - exact Hb.
  - apply SubseqSkip. auto.
  - apply SubseqTake. auto.
Qed.

Lemma Subseq_filter (A : Type) (p : A -> bool) (l : list A) :
  Subseq (filter p l) l.
Proof.
  induction l as [|x l IH]; simpl; [constructor|].
  destruct (p x); [apply SubseqTake|apply SubseqSkip]; exact IH.
Qed.

Lemma Subseq_map (A B : Type) (f : A -> B) (l1 l2 : list A) :
  Subseq l1 l2 -> Subseq (map f l1) (map f l2).
Proof.
  induction 1; simpl;
    [apply SubseqNil|apply SubseqSkip|apply SubseqTake]; assumption.
Qed.

Lemma Subseq_In (A : Type) (l1 l2 : list A) (x : A) :
  Subseq l1 l2 -> In x l1 -> In x l2.
Proof.
  induction 1; simpl; intros Hx; [exact Hx|right; auto|].
  destruct Hx as [Hx|Hx]; [left; exact Hx|right; auto].
Qed.

Section LoopCases.
Variable w : World.
Variable extractedData : list StateItem.

Lemma processImage_turn (st : Batch) (imageObj : ImageObj) :
  Turn w extractedData st imageObj (processImage w extractedData st imageObj).
Proof.
  unfold processImage.
  destruct (existingExtracted extractedData imageObj) as [item|] eqn:E.
  - apply TurnCarried with item; [exact E|reflexivity].
  - unfold extractImage.
    destruct (fetch w (List.length (apiCalls st)) imageObj) as [m| | |pj] eqn:F.
    + apply TurnFailed with (writes := []) (msg := (msgApi ++ m)%string);
        [ exact E | apply TransportFailure with m; exact F | reflexivity
        | reflexivity | simpl; rewrite app_nil_r; reflexivity
        | left; reflexivity | reflexivity ].
    + apply TurnFailed with (writes := []) (msg := msgNoData);
        [ exact E | apply MissingPayload; exact F | reflexivity
        | reflexivity | simpl; rewrite app_nil_r; reflexivity
        | left; reflexivity | reflexivity ].
    + apply TurnFailed with (writes := []) (msg := msgParse);
        [ exact E | apply MalformedResponse; exact F | reflexivity
        | reflexivity | simpl; rewrite app_nil_r; reflexivity
        | left; reflexivity | reflexivity ].
    + unfold handleJson. simpl.
      destruct (setDoc w (List.length (storeWrites st)) (id imageObj) (extractedOf pj))
        eqn:S.
      * apply TurnExtracted with pj; [exact E|exact F|exact S|reflexivity].
      * apply TurnFailed with (writes := [(id imageObj, extractedOf pj)])
                              (msg := msgParse);
          [ exact E | apply PersistenceFailure with pj; assumption | reflexivity
          | reflexivity | reflexivity
          | right; exists (extractedOf pj); reflexivity | reflexivity ].
Qed.

End LoopCases.

Section LoopAccounts.
Variable w : World.
Variable extractedData : list StateItem.

(** What the turns of a loop add up to. *)
Lemma loop_summary (images : list ImageObj) :
  forall st,
  exists items calls writes,
    let final := fold_left (processImage w extractedData) images st in
    updatedExtractedData final = updatedExtractedData st ++ items /\
    apiCalls final = apiCalls st ++ calls /\
    storeWrites final = storeWrites st ++ writes /\
    Subseq (map (@imageId _) items) (map id images) /\
    Subseq calls (map id images) /\
    Subseq (map fst writes) calls /\
    (error final = None <->
     error st = None /\ List.length items = List.length images) /\
    (forall item,
       In item items ->
       (exists imageObj,
          In imageObj images /\
          existingExtracted extractedData imageObj = Some item) \/
       (exists imageObj parsedJson n m,
          In imageObj images /\
          item = {| imageId := id imageObj;
                    data := Some (extractedOf parsedJson) |} /\
          fetch w n imageObj = JsonObject parsedJson /\
          setDoc w m (id imageObj) (extractedOf parsedJson) = true /\
          In (id imageObj, extractedOf parsedJson) writes)).
Proof.
  induction images as [|x images IH]; intros st.
  - exists [], [], []. simpl. rewrite !app_nil_r.
    repeat split; try constructor; try tauto; try (intros ? []).
  - simpl fold_left.
    pose proof (processImage_turn w extractedData st x) as T.
    remember (processImage w extractedData st x) as st1 eqn:Est1. clear Est1.
    destruct (IH st1)
      as (items & calls & writes & Hr & Hc & Hw & Si & Sc & Sw & He & Hp).
    cbv zeta in Hr, Hc, Hw, He.
    destruct T as [item E ->|pj E F S ->|ws msg E F Hr1 Hc1 Hw1 Hws He1];
      simpl in Hr, Hc, Hw, He.
    + (* a prior result is carried forward *)
      exists (item :: items), calls, writes. cbv zeta.
      rewrite Hr, Hc, Hw. simpl. rewrite <- app_assoc.
      split; [reflexivity|]. split; [reflexivity|]. split; [reflexivity|].
      destruct (existingExtracted_Some extractedData x item E) as [_ [Hid _]].
      split; [rewrite Hid; apply SubseqTake; exact Si|].
      split; [apply SubseqSkip; exact Sc|].
      split; [exact Sw|].
      split.
      * rewrite He. simpl. split; intros [H1 H2]; split; auto; lia.
      * intros y [<-|Hy].
        -- left. exists x. split; [left; reflexivity|exact E].
        -- destruct (Hp y Hy) as [[i [Hi Hy']]|(i & pj & n & m & Hi & Hrest)].
           ++ left. exists i. split; [right; exact Hi|exact Hy'].
           ++ right. exists i, pj, n, m. split; [right; exact Hi|exact Hrest].
    + (* a result is extracted, written and returned *)
      exists ({| imageId := id x; data := Some (extractedOf pj) |} :: items),
             (id x :: calls), ((id x, extractedOf pj) :: writes). cbv zeta.
      rewrite Hr, Hc, Hw. simpl. rewrite <- !app_assoc.
      split; [reflexivity|]. split; [reflexivity|]. split; [reflexivity|].
      split; [apply SubseqTake; exact Si|].
      split; [apply SubseqTake; exact Sc|].
      split; [apply SubseqTake; exact Sw|].
      split.
      * rewrite He. simpl. split; intros [H1 H2]; split; auto; lia.
      * intros y [<-|Hy].
        -- right. exists x, pj, (List.length (apiCalls st)), (List.length (storeWrites st)).
           split; [left; reflexivity|]. split; [reflexivity|].
           split; [exact F|]. split; [exact S|left; reflexivity].
        -- destruct (Hp y Hy) as [[i [Hi Hy']]|(i & pj' & n & m & Hi & H1 & H2 & H3 & H4)].
           ++ left. exists i. split; [right; exact Hi|exact Hy'].
           ++ right. exists i, pj', n, m. split; [right; exact Hi|].
              split; [exact H1|]. split; [exact H2|]. split; [exact H3|right; exact H4].
    + (* the turn fails *)
      exists items, (id x :: calls), (ws ++ writes). cbv zeta.
      rewrite Hr, Hc, Hw, Hr1, Hc1, Hw1. rewrite <- !app_assoc. simpl.
      split; [reflexivity|]. split; [reflexivity|]. split; [reflexivity|].
      split; [apply SubseqSkip; exact Si|].
      split; [apply SubseqTake; exact Sc|].
      split.
      * destruct Hws as [->|[e ->]]; simpl.
        -- apply SubseqSkip. exact Sw.
        -- apply SubseqTake. exact Sw.
      * split.
        -- rewrite He, He1. apply Subseq_length in Si. rewrite !length_map in Si.
           split; [intros [H _]; discriminate|].
           intros [_ H]. exfalso. simpl in H.
           assert (Hle : S (List.length images) <= List.length images)
             by (rewrite <- H; exact Si).
           lia.
        -- intros y Hy.
           destruct (Hp y Hy) as [[i [Hi Hy']]|(i & pj' & n & m & Hi & H1 & H2 & H3 & H4)].
           ++ left. exists i. split; [right; exact Hi|exact Hy'].
           ++ right. exists i, pj', n, m. split; [right; exact Hi|].
              split; [exact H1|]. split; [exact H2|]. split; [exact H3|].
              apply in_or_app. right. exact H4.
Qed.

End LoopAccounts.

(** X4: a run returns at most one result for each image, and it ends
    with no error message exactly when it returns a result for every
    image. *)
Theorem batch_error_free_iff_complete
    (w : World) (images : list ImageObj) (extractedData : list StateItem) :
  let st := processBatch w images extractedData in
  List.length (updatedExtractedData st) <= List.length images /\
  (error st = None <->
   List.length (updatedExtractedData st) = List.length images).
Proof.
  destruct (loop_summary w extractedData images emptyBatch)
    as (items & calls & writes & Hr & _ & _ & Si & _ & _ & He & _).
  cbv zeta in *. unfold processBatch. simpl in Hr. rewrite Hr.
  split.
  - apply Subseq_length in Si. rewrite !length_map in Si. exact Si.
  - rewrite He. simpl. tauto.
Qed.

(** X5: the results a run returns follow the order of the images: their
    image ids are the ids of the images with some left out, so a result
    that is carried forward stands where its image stands. *)
Theorem batch_results_in_image_order
    (w : World) (images : list ImageObj) (extractedData : list StateItem) :
  Subseq (map (@imageId _) (updatedExtractedData (processBatch w images extractedData)))
         (map id images).
Proof.
  destruct (loop_summary w extractedData images emptyBatch)
    as (items & calls & writes & Hr & _ & _ & Si & _).
  cbv zeta in *. unfold processBatch. simpl in Hr. rewrite Hr. exact Si.
Qed.

(** X6: every result a run returns is either the prior result of one of
    the images or a result extracted in this run for one of the images,
    which the store accepted; the amount of such a new result is the
    normalized form of its amount text. *)
Theorem batch_results_provenance
    (w : World) (images : list ImageObj) (extractedData : list StateItem)
    (item : StateItem) :
  let st := processBatch w images extractedData in
  In item (updatedExtractedData st) ->
  (exists imageObj,
     In imageObj images /\ In item extractedData /\
     existingExtracted extractedData imageObj = Some item) \/
  (exists imageObj d n m,
     In imageObj images /\ imageId item = id imageObj /\ data item = Some d /\
     parsedAmount d = parsedAmountOf (amount (fields d)) /\
     fetch w n imageObj = JsonObject (fields d) /\
     setDoc w m (id imageObj) d = true /\
     In (id imageObj, d) (storeWrites st)).
Proof.
  destruct (loop_summary w extractedData images emptyBatch)
    as (items & calls & writes & Hr & _ & Hw & _ & _ & _ & _ & Hp).
  cbv zeta in *. unfold processBatch. simpl in Hr, Hw. rewrite Hr, Hw.
  intros Hin.
  destruct (Hp item Hin) as [[i [Hi E]]|(i & pj & n & m & Hi & -> & F & S & Hwr)].
  - left. exists i. split; [exact Hi|]. split; [|exact E].
    apply (existingExtracted_Some extractedData i item E).
  - right. exists i, (extractedOf pj), n, m. simpl.
    repeat split; assumption.
Qed.

(** X7: the model is called once for each image that has no prior
    result and for no other, in the order of the images, and a write is
    sent to the store only after a call for the same image: the images
    written are the images called with some left out. *)
Theorem batch_calls_and_writes
    (w : World) (images : list ImageObj) (extractedData : list StateItem) :
  let st := processBatch w images extractedData in
  apiCalls st = map id (filter (fun i => negb (hasPrior extractedData i)) images) /\
  List.length (apiCalls st)
  + List.length (filter (hasPrior extractedData) images) = List.length images /\
  Subseq (map fst (storeWrites st)) (apiCalls st) /\
  List.length (storeWrites st) <= List.length (apiCalls st).
Proof.
  destruct (loop_summary w extractedData images emptyBatch)
    as (items & calls & writes & _ & Hc & Hw & _ & _ & Sw & _).
  cbv zeta in *. unfold processBatch in *. simpl in Hc, Hw.
  assert (Hcalls : apiCalls (fold_left (processImage w extractedData) images emptyBatch)
                   = map id (filter (fun i => negb (hasPrior extractedData i)) images)).
  { rewrite loop_calls. reflexivity. }
  split; [exact Hcalls|]. split; [|split].
  - rewrite Hcalls, length_map.
    clear. induction images as [|x l IH]; simpl; [reflexivity|].
    destruct (hasPrior extractedData x); simpl; lia.
  - rewrite Hc, Hw. exact Sw.
  - rewrite Hc, Hw. apply Subseq_length in Sw. rewrite length_map in Sw. exact Sw.
Qed.

(** X6 for one image in a world where every call and every write
    succeeds. *)
Lemma batch_results_provenance_witness :
  (exists imageObj,
     In imageObj [image "a"] /\
     In {| imageId := "a"; data := Some (extractedOf sampleJson) |} [] /\
     existingExtracted [] imageObj
     = Some {| imageId := "a"; data := Some (extractedOf sampleJson) |}) \/
  (exists imageObj d n m,
     In imageObj [image "a"] /\
     imageId {| imageId := "a"; data := Some (extractedOf sampleJson) |} = id imageObj /\
     data {| imageId := "a"; data := Some (extractedOf sampleJson) |} = Some d /\
     parsedAmount d = parsedAmountOf (amount (fields d)) /\
     fetch goodWorld n imageObj = JsonObject (fields d) /\
     setDoc goodWorld m (id imageObj) d = true /\
     In (id imageObj, d) (storeWrites (processBatch goodWorld [image "a"] []))).
Proof.
  apply (batch_results_provenance goodWorld [image "a"] []
           {| imageId := "a"; data := Some (extractedOf sampleJson) |}).
  left. reflexivity.
Defined.

Lemma find_skip (A : Type) (f : A -> bool) (pre : list A) (l : list A) :
  (forall y, In y pre -> f y = false) -> find f (pre ++ l) = find f l.
Proof.
  induction pre as [|y pre IH]; intros H; simpl; [reflexivity|].
  rewrite (H y (or_introl eq_refl)). apply IH.
  intros z Hz. apply H. right. exact Hz.
Qed.

(** A loop over images whose results are all at hand, in the same
    order, returns those results and does nothing else. *)
Lemma loop_replay (w : World) (items : list StateItem) :
  forall (images : list ImageObj) (pre : list StateItem) (st : Batch),
    map (@imageId _) items = map id images ->
    NoDup (map id images) ->
    (forall item, In item items -> exists d, data item = Some d) ->
    (forall item, In item pre -> ~ In (imageId item) (map id images)) ->
    fold_left (processImage w (pre ++ items)) images st
    = {| updatedExtractedData := updatedExtractedData st ++ items;
         apiCalls := apiCalls st;
         storeWrites := storeWrites st;
         error := error st |}.
Proof.
  induction items as [|item items IH]; intros images pre st Hm Hn Hd Hpre.
  - destruct images; [|discriminate]. simpl. rewrite app_nil_r.
    destruct st; reflexivity.
  - destruct images as [|x images]; [discriminate|].
    simpl in Hm. inversion Hm as [[Hid Hrest]]. clear Hm.
    inversion Hn as [|y l Hx Hn']; subst.
    simpl fold_left.
    assert (E : existingExtracted (pre ++ item :: items) x = Some item).
    { unfold existingExtracted. rewrite find_skip.
      - simpl. rewrite Hid, String.eqb_refl.
        destruct (Hd item (or_introl eq_refl)) as [d ->]. reflexivity.
      - intros y Hy. apply String.eqb_neq. intros Heq.
        apply (Hpre y Hy). left. symmetry. exact Heq. }
    rewrite (processImage_prior w (pre ++ item :: items) st x item E).
    replace (pre ++ item :: items) with ((pre ++ [item]) ++ items)
      by (rewrite <- app_assoc; reflexivity).
    rewrite IH.
    + simpl. rewrite <- app_assoc. reflexivity.
    + exact Hrest.
    + exact Hn'.
    + intros y Hy. apply Hd. right. exact Hy.
    + intros y Hy Hin. apply in_app_or in Hy. destruct Hy as [Hy|[<-|[]]].
      * apply (Hpre y Hy). right. exact Hin.
      * apply Hx. rewrite <- Hid. exact Hin.
Qed.

(** X8: when the images have distinct ids and a run ends with no error
    message, a second run seeded with what the first returned returns
    the same results, calls the model for no image, writes nothing and
    shows no error. *)
Theorem second_run_returns_same_results
    (w w' : World) (images : list ImageObj) (extractedData : list StateItem) :
  let first := processBatch w images extractedData in
  let second := processBatch w' images (updatedExtractedData first) in
  NoDup (map id images) ->
  error first = None ->
  updatedExtractedData second = updatedExtractedData first /\
  apiCalls second = [] /\ storeWrites second = [] /\ error second = None.
Proof.
  intros first second Hn He.
  assert (Hm : map (@imageId _) (updatedExtractedData first) = map id images).
  { destruct (loop_summary w extractedData images emptyBatch)
      as (items & calls & writes & Hr & _ & _ & Si & _ & _ & Hc & _).
    cbv zeta in Hr, Hc. unfold first, processBatch in *. simpl in Hr.
    rewrite Hr. apply Subseq_same_length; [exact Si|].
    rewrite !length_map. apply (proj1 Hc He). }
  pose proof (loop_replay w' (updatedExtractedData first) images [] emptyBatch
                Hm Hn (batch_results_have_data w images extractedData)
                (fun item (H : In item []) => match H with end)) as Hrun.
  simpl in Hrun. unfold second, processBatch. rewrite Hrun.
  simpl. repeat split; reflexivity.
Qed.

(** X8 for two images in a world where every call and every write
    succeeds. *)
Lemma second_run_returns_same_results_witness :
  updatedExtractedData
    (processBatch offlineWorld [image "a"; image "b"]
       (updatedExtractedData (processBatch goodWorld [image "a"; image "b"] [])))
  = updatedExtractedData (processBatch goodWorld [image "a"; image "b"] []).
Proof.
  apply (second_run_returns_same_results goodWorld offlineWorld
           [image "a"; image "b"] []).
  - repeat constructor; simpl; intuition discriminate.
  - reflexivity.
Defined.

(* ----------------------------------------------------------------- *)
(** ** More on the export *)

(** X9: after a run the preview of the export is set exactly when the
    run returned a result; the document then reads back as the header
    followed by one row of thirteen columns for each result, in the
    order of the results, and the first column of each row is the image
    id of its result. *)
Theorem csvPreview_lists_results
    (viewerUrlBase appId userId : string)
    (w : World) (images : list ImageObj) (extractedData : list StateItem) :
  let st := processBatch w images extractedData in
  match csvPreview viewerUrlBase appId userId st with
  | None => updatedExtractedData st = []
  | Some csv =>
      updatedExtractedData st <> [] /\
      List.length (readCsv csv) = 1 + List.length (updatedExtractedData st) /\
      Forall (fun row => List.length row = 13) (readCsv csv) /\
      map (hd EmptyString) (tl (readCsv csv))
      = map (@imageId _) (updatedExtractedData st)
  end.
Proof.
  intros st. unfold csvPreview.
  destruct (payloads_defined (updatedExtractedData st)
              (batch_results_have_data w images extractedData))
    as [slips [Hs Hm]].
  fold st in Hs. rewrite Hs.
  destruct (updatedExtractedData st) as [|item items] eqn:E; [reflexivity|].
  cbv beta iota delta [option_map]. rewrite readCsv_generateCsv.
  split; [discriminate|]. split; [|split].
  - assert (Hl : List.length slips = List.length (item :: items)).
    { apply (f_equal (@List.length string)) in Hm.
      rewrite !length_map in Hm. exact Hm. }
    simpl. rewrite length_map. f_equal. exact Hl.
  - constructor; [reflexivity|].
    apply Forall_forall. intros row Hrow. apply in_map_iff in Hrow.
    destruct Hrow as [slip [<- _]]. reflexivity.
  - simpl tl. rewrite map_map. simpl. exact Hm.
Qed.

(** X10: two rows that differ are never written as the same line, so a
    comma or a quote inside a value is never taken for a separator. *)
Theorem quoted_lines_are_unambiguous (row1 row2 : list string) :
  row1 <> [] -> row2 <> [] -> row1 <> row2 ->
  join "," (map quoteField row1) <> join "," (map quoteField row2).
Proof.
  intros H1 H2 Hne E. apply Hne.
  assert (R : forall row, row <> [] ->
                readFrom FieldStart (join "," (map quoteField row) ++ EmptyString)
                = (hd EmptyString row, tl row, [])).
  { intros row Hrow. rewrite readFrom_quoted_line by exact Hrow. simpl readFrom.
    destruct row as [|v vs]; [congruence|]. apply prependRow_start. }
  pose proof (R row1 H1) as R1. pose proof (R row2 H2) as R2.
  rewrite E, R2 in R1. inversion R1 as [[Hh Ht]].
  destruct row1 as [|a r1]; [congruence|]. destruct row2 as [|b r2]; [congruence|].
  simpl in Hh, Ht. subst. reflexivity.
Qed.

(** X10 for a value that holds a comma and the two values it could be
    taken for. *)
Lemma quoted_lines_are_unambiguous_witness :
  join "," (map quoteField ["a,b"]) <> join "," (map quoteField ["a"; "b"]).
Proof.
  apply (quoted_lines_are_unambiguous ["a,b"] ["a"; "b"]); discriminate.
Defined.

(* ----------------------------------------------------------------- *)
(** ** More on loading the store *)

Lemma loadDocs_images (docs : list SlipDoc) :
  fst (loadDocs docs) = completeImages docs.
Proof.
  induction docs as [|doc docs IH]; simpl; [reflexivity|].
  destruct (loadDocs docs) as [loadedImages loadedData]. simpl in IH.
  destruct (truthy (docId doc)); [|exact IH].
  destruct (truthy (docDataUrl doc)); [|exact IH].
  simpl. rewrite IH. reflexivity.
Qed.

Lemma loadDocs_reference (docs : list SlipDoc) (item : StateItem) :
  In item (snd (loadDocs docs)) ->
  exists img, In img (fst (loadDocs docs)) /\ id img = imageId item.
Proof.
  induction docs as [|doc docs IH]; simpl; [intros []|].
  destruct (loadDocs docs) as [loadedImages loadedData]. simpl in IH.
  assert (Hrest : forall more,
             In item loadedData ->
             exists img, In img (more ++ loadedImages) /\ id img = imageId item).
  { intros more H. destruct (IH H) as [img [Hi He]]. exists img.
    split; [apply in_or_app; right; exact Hi|exact He]. }
  destruct (truthy (docId doc)) as [i|]; [|exact (Hrest [])].
  destruct (truthy (docDataUrl doc)) as [u|]; [|exact (Hrest [])].
  simpl. destruct (docExtractedData doc) as [e|].
  - intros [<-|H].
    + eexists. split; [left; reflexivity|reflexivity].
    + exact (Hrest [_] H).
  - intros H. exact (Hrest [_] H).
Qed.

(** X11: what is loaded from the store is consistent: every loaded
    result bears the id of a loaded image and has a payload. *)
Theorem loaded_results_reference_loaded_images (docs : list SlipDoc) (item : StateItem) :
  In item (snd (onSnapshot docs)) ->
  (exists img, In img (fst (onSnapshot docs)) /\ id img = imageId item) /\
  (exists e, data item = Some e).
Proof.
  intros H. split.
  - unfold onSnapshot in *.
    pose proof (loadDocs_reference docs item) as R.
    destruct (loadDocs docs) as [loadedImages loadedData]. simpl in *.
    apply stableSort_In in H. destruct (R H) as [img [Hi He]].
    exists img. split; [apply stableSort_In; exact Hi|exact He].
  - destruct (onSnapshot_data docs item H) as [doc [e [_ [_ [_ He]]]]].
    exists e. exact He.
Qed.

(** X11 on the sample store. *)
Lemma loaded_results_reference_loaded_images_witness :
  (exists img, In img (fst (onSnapshot sampleDocs)) /\ id img = "a") /\
  (exists e, Some (extractedOf sampleJson) = Some e).
Proof.
  apply (loaded_results_reference_loaded_images sampleDocs
           {| imageId := "a"; data := Some (extractedOf sampleJson) |}).
  left. reflexivity.
Defined.



(** X13: the dashboards never meet a [null] payload, neither in the
    state loaded from the store nor in the state a run leaves: the
    items are read as slips that bear the same image ids in the same
    order. *)
Theorem dashboards_can_read_state
    (docs : list SlipDoc) (w : World) (images : list ImageObj)
    (extractedData : list StateItem) :
  (exists slips,
     payloads (snd (onSnapshot docs)) = Some slips /\
     map (@imageId _) slips = map (@imageId _) (snd (onSnapshot docs))) /\
  (exists slips,
     payloads (updatedExtractedData (processBatch w images extractedData)) = Some slips /\
     map (@imageId _) slips
     = map (@imageId _) (updatedExtractedData (processBatch w images extractedData))).
Proof.
  split.
  - apply payloads_defined. intros item H.
    destruct (onSnapshot_data docs item H) as [doc [e [_ [_ [_ He]]]]].
    exists e. exact He.
  - apply payloads_defined. apply batch_results_have_data.
Qed.

(* ----------------------------------------------------------------- *)
(** ** Ingestion *)

Lemma ingestDocs_null (w : IngestWorld) (files : list FileObj) :
  forall n, Forall (fun doc => docExtractedData doc = None) (ingestDocs w n files).
Proof.
  induction files as [|f files IH]; intros n; simpl; constructor; auto.
Qed.


Lemma processFile_other (w : IngestWorld) (st : Ingest) (f : FileObj) :
  isImageFile f = false ->
  processFile w st f
  = {| sentDocs := sentDocs st; storedDocs := storedDocs st;
       ingestError := Some msgNotImage; hasError := true |}.
Proof. unfold isImageFile, processFile. intros ->. reflexivity. Qed.

Lemma processFile_image (w : IngestWorld) (st : Ingest) (f : FileObj) :
  isImageFile f = true ->
  processFile w st f
  = if storeAccepts w (List.length (sentDocs st))
         (slipDocFor (randomUUID w (List.length (sentDocs st))) (readerResult f)
            (dateNow w (List.length (sentDocs st))))
    then {| sentDocs :=
              sentDocs st
              ++ [slipDocFor (randomUUID w (List.length (sentDocs st)))
                    (readerResult f) (dateNow w (List.length (sentDocs st)))];
            storedDocs :=
              storedDocs st
              ++ [slipDocFor (randomUUID w (List.length (sentDocs st)))
                    (readerResult f) (dateNow w (List.length (sentDocs st)))];
            ingestError := ingestError st;
            hasError := hasError st |}
    else {| sentDocs :=
              sentDocs st
              ++ [slipDocFor (randomUUID w (List.length (sentDocs st)))
                    (readerResult f) (dateNow w (List.length (sentDocs st)))];
            storedDocs := storedDocs st;
            ingestError := Some msgSave;
            hasError := true |}.
Proof. unfold isImageFile, processFile. intros ->. reflexivity. Qed.

Lemma ingest_loop (w : IngestWorld) (files : list FileObj) :
  forall st,
  exists kept,
    sentDocs (fold_left (processFile w) files st)
    = sentDocs st
      ++ ingestDocs w (List.length (sentDocs st)) (filter isImageFile files) /\
    storedDocs (fold_left (processFile w) files st) = storedDocs st ++ kept /\
    Subseq kept (ingestDocs w (List.length (sentDocs st)) (filter isImageFile files)) /\
    (hasError (fold_left (processFile w) files st) = false <->
     hasError st = false /\ forallb isImageFile files = true /\
     kept = ingestDocs w (List.length (sentDocs st)) (filter isImageFile files)).
Proof.
  induction files as [|f files IH]; intros st.
  - exists []. simpl. rewrite !app_nil_r.
    repeat split; try constructor; tauto.
  - simpl fold_left. simpl filter. simpl forallb.
    destruct (isImageFile f) eqn:Ef.
    + rewrite (processFile_image w st f Ef).
      set (n := List.length (sentDocs st)).
      set (doc := slipDocFor (randomUUID w n) (readerResult f) (dateNow w n)).
      destruct (storeAccepts w n doc) eqn:Ea.
      * destruct (IH {| sentDocs := sentDocs st ++ [doc];
                        storedDocs := storedDocs st ++ [doc];
                        ingestError := ingestError st;
                        hasError := hasError st |})
          as (kept & Hs & Hk & Sk & He).
        cbn [sentDocs storedDocs hasError] in Hs, Hk, Sk, He.
        rewrite length_app in Hs, Sk, He. simpl in Hs, Sk, He.
        fold n in Hs, Sk, He. rewrite Nat.add_1_r in Hs, Sk, He.
        exists (doc :: kept). simpl ingestDocs. fold n. fold doc.
        rewrite Hs, Hk, <- !app_assoc. simpl.
        split; [reflexivity|]. split; [reflexivity|].
        split; [apply SubseqTake; exact Sk|].
        rewrite He. split.
        -- intros (H1 & H2 & H3). rewrite H3. auto.
        -- intros (H1 & H2 & H3). inversion H3. auto.
      * destruct (IH {| sentDocs := sentDocs st ++ [doc];
                        storedDocs := storedDocs st;
                        ingestError := Some msgSave;
                        hasError := true |})
          as (kept & Hs & Hk & Sk & He).
        cbn [sentDocs storedDocs hasError] in Hs, Hk, Sk, He.
        rewrite length_app in Hs, Sk, He. simpl in Hs, Sk, He.
        fold n in Hs, Sk, He. rewrite Nat.add_1_r in Hs, Sk, He.
        exists kept. simpl ingestDocs. fold n. fold doc.
        rewrite Hs, Hk, <- !app_assoc. simpl.
        split; [reflexivity|]. split; [reflexivity|].
        split; [apply SubseqSkip; exact Sk|].
        rewrite He. split.
        -- intros (H1 & _). discriminate.
        -- intros (_ & _ & H3). exfalso.
           apply Subseq_length in Sk. rewrite H3 in Sk. simpl in Sk. lia.
    + rewrite (processFile_other w st f Ef).
      destruct (IH {| sentDocs := sentDocs st; storedDocs := storedDocs st;
                      ingestError := Some msgNotImage; hasError := true |})
        as (kept & Hs & Hk & Sk & He).
      cbn [sentDocs storedDocs hasError] in Hs, Hk, Sk, He.
      exists kept. rewrite Hs, Hk.
      split; [reflexivity|]. split; [reflexivity|]. split; [exact Sk|].
      rewrite He. split.
      * intros (H1 & _). discriminate.
      * intros (_ & H2 & _). discriminate.
Qed.


Lemma loadDocs_no_data (docs : list SlipDoc) :
  Forall (fun doc => docExtractedData doc = None) docs ->
  snd (loadDocs docs) = [].
Proof.
  induction 1 as [|doc docs Hd Hrest IH]; simpl; [reflexivity|].
  destruct (loadDocs docs) as [loadedImages loadedData]. simpl in IH. subst.
  destruct (truthy (docId doc)); [|reflexivity].
  destruct (truthy (docDataUrl doc)); [|reflexivity].
  simpl. rewrite Hd. reflexivity.
Qed.

Lemma Subseq_Forall (A : Type) (P : A -> Prop) (l1 l2 : list A) :
  Subseq l1 l2 -> Forall P l2 -> Forall P l1.
Proof.
  induction 1 as [|x l1 l2 S IH|x l1 l2 S IH]; intros HF.
  - constructor.
  - inversion HF; subst. auto.
  - inversion HF; subst. constructor; auto.
Qed.

(** X15: the documents an ingestion leaves in the store load as images
    that have no result, and the next run calls the model for each of
    them, in their order. *)
Theorem ingested_images_are_extracted
    (iw : IngestWorld) (w : World) (error : option string) (key : nat)
    (files : list FileObj) :
  let docs := docsStored (processFiles iw true error key files) in
  snd (onSnapshot docs) = [] /\
  apiCalls (processBatch w (fst (onSnapshot docs)) (snd (onSnapshot docs)))
  = map id (fst (onSnapshot docs)).
Proof.
  intros docs.
  assert (Hnull : Forall (fun doc => docExtractedData doc = None) docs).
  { unfold docs, processFiles.
    destruct (ingest_loop iw files
                {| sentDocs := []; storedDocs := [];
                   ingestError := error; hasError := false |})
      as (kept & _ & Hk & Sk & _).
    simpl in Hk, Sk. simpl. rewrite Hk. apply (Subseq_Forall _ _ _ _ Sk). apply ingestDocs_null. }
  assert (Hdata : snd (onSnapshot docs) = []).
  { unfold onSnapshot. pose proof (loadDocs_no_data docs Hnull) as H.
    destruct (loadDocs docs) as [loadedImages loadedData]. simpl in *.
    subst. reflexivity. }
  split; [exact Hdata|].
  rewrite Hdata. unfold processBatch. rewrite loop_calls. simpl.
  f_equal. apply filter_all. intros; reflexivity.
Qed.

(* ----------------------------------------------------------------- *)
(** ** More on the dashboard values *)

Lemma total_app (a b : list nat) : total (a ++ b) = total a + total b.
Proof. induction a as [|x a IH]; simpl; [reflexivity|]. rewrite IH. lia. Qed.

Lemma total_perm (a b : list nat) : Permutation a b -> total a = total b.
Proof.
  induction 1; simpl; try lia.
Qed.

Lemma total_firstn (n : nat) (l : list nat) : total (firstn n l) <= total l.
Proof.
  rewrite <- (firstn_skipn n l) at 2. rewrite total_app. lia.
Qed.

Lemma total_indicator (k : string) (l : list string) :
  NoDup l -> In k l ->
  total (map (fun x => if String.eqb x k then 1 else 0) l) = 1.
Proof.
  induction 1 as [|x l Hx Hn IH]; simpl; [intros []|].
  intros [->|Hk].
  - rewrite String.eqb_refl. f_equal.
    clear IH Hn. induction l as [|y l IH]; simpl; [reflexivity|].
    destruct (String.eqb_spec y k) as [->|Hne].
    + exfalso. apply Hx. left. reflexivity.
    + apply IH. intros H. apply Hx. right. exact H.
  - destruct (String.eqb_spec x k) as [->|Hne]; [contradiction|].
    apply IH. exact Hk.
Qed.

(** The counts of the distinct keys of a list add up to its length. *)
Lemma total_counts (ks l : list string) :
  NoDup l -> (forall k, In k ks -> In k l) ->
  total (map (fun x => countOf x ks) l) = List.length ks.
Proof.
  intros Hn. induction ks as [|k ks IH]; intros Hin.
  - clear. induction l; simpl; auto.
  - assert (E : forall x, countOf x (k :: ks)
                          = (if String.eqb x k then 1 else 0) + countOf x ks).
    { intros x. unfold countOf. simpl. destruct (String.eqb x k); reflexivity. }
    rewrite (map_ext _ _ E).
    assert (S : forall (f g : string -> nat) (m : list string),
               total (map (fun x => f x + g x) m) = total (map f m) + total (map g m)).
    { intros f g m. induction m as [|y m IHm]; simpl; [reflexivity|].
      rewrite IHm. lia. }
    rewrite S, total_indicator, IH; simpl; auto.
    + intros x Hx. apply Hin. right. exact Hx.
    + apply Hin. left. reflexivity.
Qed.

Lemma keysOf_length (A : Type) (key : A -> option string) (l : list A) :
  List.length (keysOf key l) = List.length (keyed key l).
Proof.
  unfold keysOf, keyed. induction l as [|a l IH]; simpl; [reflexivity|].
  destruct (key a); simpl; rewrite IH; reflexivity.
Qed.

Lemma total_counted_rows (ks : list string) :
  total (map (fun x => countOf x ks) (keyOrder (firstSeen ks))) = List.length ks.
Proof.
  apply total_counts.
  - apply (Permutation_NoDup (Permutation_sym (keyOrder_perm _))).
    apply firstSeen_NoDup.
  - intros k Hk. apply (Permutation_in _ (Permutation_sym (keyOrder_perm _))).
    apply firstSeen_In. exact Hk.
Qed.

(** X16: when no date is the name of a member of [Object.prototype],
    every count of the daily frequencies is a number and the counts add
    up to the number of records that have a date: every such record is
    counted once. *)
Theorem dailyFrequencyData_counts_every_record (extractedData : list Slip) :
  ownNames (keysOf dateKey extractedData) ->
  (forall e, In e (dailyFrequencyData extractedData) ->
             count e = Num (counted (count e))) /\
  total (map (fun e => counted (count e)) (dailyFrequencyData extractedData))
  = List.length (keyed dateKey extractedData).
Proof.
  intros Hown. rewrite (dailyFrequencyData_rows extractedData Hown). split.
  - intros e He. apply stableSort_In in He. apply in_map_iff in He.
    destruct He as [d [<- _]]. reflexivity.
  - rewrite <- keysOf_length.
    rewrite (total_perm _ _ (Permutation_map (fun e => counted (count e))
                               (stableSort_perm _ _ _))).
    rewrite map_map. simpl. apply total_counted_rows.
Qed.

(** X16 on four records, three of which have a date. *)
Lemma dailyFrequencyData_counts_every_record_witness :
  total (map (fun e => counted (count e))
           (dailyFrequencyData
              [ withDate "2024-01-02"; withBank "SCB"; withDate "2024-01-01";
                withDate "2024-01-02" ]))
  = 3.
Proof.
  assert (Hown : ownNames (keysOf dateKey
                   [ withDate "2024-01-02"; withBank "SCB"; withDate "2024-01-01";
                     withDate "2024-01-02" ])).
  { intros d [<-|[<-|[<-|[]]]]; reflexivity. }
  apply (proj2 (dailyFrequencyData_counts_every_record
                  [ withDate "2024-01-02"; withBank "SCB"; withDate "2024-01-01";
                    withDate "2024-01-02" ] Hown)).
Defined.

Section BankTotals.
Variable toLowerCase : string -> string.
Variable trim : string -> string.


(** The canonical form of a bank name. *)
Hypothesis trim_idem : forall s, trim (trim s) = trim s.
Hypothesis canonical_plain :
  forall n, In n canonicalNames -> trim n = n /\ toLowerCase n = n.

Lemma canonical_fixed (n : string) :
  In n canonicalNames -> canonicalizeBankName toLowerCase trim n = n.
Proof.
  intros H. destruct (canonical_plain n H) as [Ht Hl].
  unfold canonicalizeBankName. rewrite Ht, Hl.
  destruct H as [<-|[<-|[<-|[]]]]; reflexivity.
Qed.

(** X18: when trimming twice is trimming once and the three canonical
    names are left as they are by trimming and by lower-casing, the
    canonical form of a name is one of the three canonical names or the
    trimmed name, and it is its own canonical form. *)
Theorem canonicalizeBankName_idempotent (b : string) :
  (In (canonicalizeBankName toLowerCase trim b) canonicalNames \/
   canonicalizeBankName toLowerCase trim b = trim b) /\
  canonicalizeBankName toLowerCase trim (canonicalizeBankName toLowerCase trim b)
  = canonicalizeBankName toLowerCase trim b.
Proof.
  assert (Hcases :
            (In (canonicalizeBankName toLowerCase trim b) canonicalNames) \/
            (canonicalizeBankName toLowerCase trim b = trim b /\
             includes (toLowerCase (trim b)) "krungsri" = false /\
             (includes (trim b) "กสิกร" || includes (toLowerCase (trim b)) "kasikorn")
             = false /\
             (includes (toLowerCase (trim b)) "scb" || includes (trim b) "ไทยพาณิชย์")
             = false)).
  { unfold canonicalizeBankName.
    destruct (includes (toLowerCase (trim b)) "krungsri");
      [left; left; reflexivity|].
    destruct (includes (trim b) "กสิกร" || includes (toLowerCase (trim b)) "kasikorn");
      [left; right; left; reflexivity|].
    destruct (includes (toLowerCase (trim b)) "scb" || includes (trim b) "ไทยพาณิชย์");
      [left; right; right; left; reflexivity|].
    right. auto. }
  destruct Hcases as [Hc|(He & H1 & H2 & H3)].
  - split; [left; exact Hc|]. apply canonical_fixed. exact Hc.
  - split; [right; exact He|]. rewrite He.
    unfold canonicalizeBankName. rewrite trim_idem, H1, H2, H3. reflexivity.
Qed.

End BankTotals.

(** Trimming ASCII text twice is trimming it once. *)
Lemma trimEndAscii_cons (c : ascii) (s : string) :
  trimEndAscii (String c s)
  = match trimEndAscii s with
    | EmptyString => if isSpaceChar c then EmptyString else String c EmptyString
    | t => String c t
    end.
Proof. reflexivity. Qed.

Lemma trimEndAscii_idem (s : string) : trimEndAscii (trimEndAscii s) = trimEndAscii s.
Proof.
  induction s as [|c s IH]; [reflexivity|].
  rewrite trimEndAscii_cons.
  destruct (trimEndAscii s) as [|d t] eqn:E.
  - destruct (isSpaceChar c) eqn:Ec; [reflexivity|].
    simpl. rewrite Ec. reflexivity.
  - rewrite trimEndAscii_cons, IH. reflexivity.
Qed.

Lemma trimStart_of_trimEnd (s : string) :
  match s with
  | EmptyString => True
  | String c _ => isSpaceChar c = false
  end ->
  trimStartAscii (trimEndAscii s) = trimEndAscii s.
Proof.
  destruct s as [|c s]; [reflexivity|]. intros Hc.
  rewrite trimEndAscii_cons.
  destruct (trimEndAscii s); rewrite ?Hc; simpl; rewrite Hc; reflexivity.
Qed.

Lemma trimStartAscii_head (s : string) :
  match trimStartAscii s with
  | EmptyString => True
  | String c _ => isSpaceChar c = false
  end.
Proof.
  induction s as [|c s IH]; simpl; [exact I|].
  destruct (isSpaceChar c) eqn:E; [exact IH|exact E].
Qed.

Lemma trimAscii_idem (s : string) : trimAscii (trimAscii s) = trimAscii s.
Proof.
  unfold trimAscii.
  rewrite (trimStart_of_trimEnd _ (trimStartAscii_head s)).
  apply trimEndAscii_idem.
Qed.


(** X18 with the lower-casing and trimming of ASCII text. *)
Lemma canonicalizeBankName_idempotent_witness :
  canonicalizeBankName lowerAscii trimAscii
    (canonicalizeBankName lowerAscii trimAscii "  SCB Bank ")
  = canonicalizeBankName lowerAscii trimAscii "  SCB Bank ".
Proof.
  assert (H : forall n, In n canonicalNames -> trimAscii n = n /\ lowerAscii n = n).
  { intros n [<-|[<-|[<-|[]]]]; split; reflexivity. }
  apply (proj2 (canonicalizeBankName_idempotent lowerAscii trimAscii
                  trimAscii_idem H "  SCB Bank ")).
Defined.

Section AccountTotals.
Variable jsAdd : JsNumber -> JsNumber -> JsNumber.

(** X19: when no account number is the name of a member of
    [Object.prototype], the loop does not throw, and the transaction
    counts of the top accounts add up to no more than the number of
    records that have an account number, and to that number exactly
    when there are at most five accounts. *)
Theorem topRecipientAccountsData_counts (extractedData : list Slip) :
  ownNames (keysOf accountKey extractedData) ->
  exists out,
    topRecipientAccountsData jsAdd extractedData = Some out /\
    total (map transactionCount out)
    <= List.length (keyed accountKey extractedData) /\
    (List.length (firstSeen (keysOf accountKey extractedData)) <= 5 ->
     total (map transactionCount out)
     = List.length (keyed accountKey extractedData)).
Proof.
  intros Hown.
  set (sorted := stableSort (fun a b => transactionCount b <? transactionCount a)
                   (map (accountRowOf jsAdd extractedData)
                      (keyOrder (firstSeen (keysOf accountKey extractedData))))).
  exists (firstn 5 sorted).
  split; [apply topRecipientAccountsData_rows; exact Hown|].
  rewrite <- keysOf_length.
  assert (Hall : total (map transactionCount sorted)
                 = List.length (keysOf accountKey extractedData)).
  { unfold sorted.
    rewrite (total_perm _ _ (Permutation_map transactionCount (stableSort_perm _ _ _))).
    rewrite map_map. simpl.
    rewrite <- (total_counted_rows (keysOf accountKey extractedData)).
    f_equal. apply map_ext. intros acc. apply groupOf_length. }
  split.
  - rewrite <- Hall, <- firstn_map. apply total_firstn.
  - intros Hfew. rewrite firstn_all2; [exact Hall|].
    unfold sorted. rewrite stableSort_length, length_map.
    rewrite (Permutation_length (keyOrder_perm _)). exact Hfew.
Qed.

End AccountTotals.

(** X19 on three records of two accounts. *)
Lemma topRecipientAccountsData_counts_witness :
  exists out,
    topRecipientAccountsData exactAdd
      [ withAccount "123-4" None (10 # 1);
        withAccount "9" (Some "KBank") (7 # 1);
        withAccount "123-4" (Some "SCB") (5 # 1) ]
    = Some out /\
    total (map transactionCount out) = 3.
Proof.
  assert (Hown : ownNames (keysOf accountKey
                   [ withAccount "123-4" None (10 # 1);
                     withAccount "9" (Some "KBank") (7 # 1);
                     withAccount "123-4" (Some "SCB") (5 # 1) ])).
  { intros acc [<-|[<-|[<-|[]]]]; reflexivity. }
  destruct (topRecipientAccountsData_counts exactAdd _ Hown) as [out [Hout [_ Hsum]]].
  exists out. split; [exact Hout|]. apply Hsum. simpl. lia.
Defined.

(* ----------------------------------------------------------------- *)
(** ** More on searching *)

Lemma substringOf_trans (a b c : string) :
  substringOf a b -> substringOf b c -> substringOf a c.
Proof.
  intros [p1 [q1 H1]] [p2 [q2 H2]].
  exists (p2 ++ p1)%string, (q1 ++ q2)%string.
  rewrite H2, H1, !append_assoc. reflexivity.
Qed.

Section SearchMore.
Variable toLowerCase : string -> string.

Lemma matchesQuery_narrower (q1 q2 : string) (item : Slip) :
  substringOf q1 q2 ->
  matchesQuery toLowerCase q2 item = true ->
  matchesQuery toLowerCase q1 item = true.
Proof.
  intros Hsub. rewrite !matchesQuery_fields, !existsb_exists.
  intros [field [Hin H]]. exists field. split; [exact Hin|].
  apply includes_spec. apply includes_spec in H.
  apply substringOf_trans with q2; assumption.
Qed.

(** X20: searching for a text among the results of a search for a part
    of that text gives what searching for it among all results gives;
    so a search among its own results changes nothing, and a longer
    query never brings back a result the shorter one left out. *)
Theorem search_within_search (q1 q2 : string) (extractedData : list Slip) :
  q2 <> EmptyString ->
  substringOf (toLowerCase q1) (toLowerCase q2) ->
  filteredExtractedData toLowerCase q2
    (filteredExtractedData toLowerCase q1 extractedData)
  = filteredExtractedData toLowerCase q2 extractedData /\
  Subseq (filteredExtractedData toLowerCase q2 extractedData)
         (filteredExtractedData toLowerCase q1 extractedData) /\
  Subseq (filteredExtractedData toLowerCase q1 extractedData) extractedData.
Proof.
  intros Hq2 Hsub.
  assert (H2 : forall l, filteredExtractedData toLowerCase q2 l
                         = filter (matchesQuery toLowerCase (toLowerCase q2)) l).
  { intros l. unfold filteredExtractedData. destruct q2; [congruence|reflexivity]. }
  assert (H1 : filteredExtractedData toLowerCase q2
                 (filteredExtractedData toLowerCase q1 extractedData)
               = filteredExtractedData toLowerCase q2 extractedData).
  { rewrite !H2. unfold filteredExtractedData at 1.
    destruct q1 as [|c q1]; [reflexivity|].
    rewrite filter_filter_comm. apply filter_ext. intros item.
    destruct (matchesQuery toLowerCase (toLowerCase q2) item) eqn:E; [|reflexivity].
    rewrite (matchesQuery_narrower _ _ item Hsub E). reflexivity. }
  split; [exact H1|]. split.
  - rewrite <- H1, H2. apply Subseq_filter.
  - unfold filteredExtractedData. destruct q1; [apply Subseq_refl|apply Subseq_filter].
Qed.

End SearchMore.

(** X20 for the queries [krung] and [krungsri]. *)
Lemma search_within_search_witness :
  filteredExtractedData lowerAscii "krungsri"
    (filteredExtractedData lowerAscii "krung"
       [ {| imageId := "a"; data := extractedOf sampleJson |};
         {| imageId := "b"; data := extractedOf noFields |} ])
  = filteredExtractedData lowerAscii "krungsri"
      [ {| imageId := "a"; data := extractedOf sampleJson |};
        {| imageId := "b"; data := extractedOf noFields |} ].
Proof.
  apply (search_within_search lowerAscii "krung" "krungsri"
           [ {| imageId := "a"; data := extractedOf sampleJson |};
             {| imageId := "b"; data := extractedOf noFields |} ]).
  - discriminate.
  - exists EmptyString, "sri". reflexivity.
Defined.

(* ----------------------------------------------------------------- *)
(** ** Loading and extracting *)

Lemma loadDocs_data_of_doc (docs : list SlipDoc) (doc : SlipDoc)
    (i u : string) (e : Extracted) :
  In doc docs ->
  truthy (docId doc) = Some i -> truthy (docDataUrl doc) = Some u ->
  docExtractedData doc = Some e ->
  In {| imageId := i; data := Some e |} (snd (loadDocs docs)).
Proof.
  intros Hin Hi Hu He. induction docs as [|d docs IH]; [destruct Hin|].
  simpl. destruct (loadDocs docs) as [loadedImages loadedData]. simpl in IH.
  destruct Hin as [->|Hin].
  - rewrite Hi, Hu, He. left. reflexivity.
  - specialize (IH Hin).
    destruct (truthy (docId d)); [|exact IH].
    destruct (truthy (docDataUrl d)); [|exact IH].
    simpl. destruct (docExtractedData d); [right|]; exact IH.
Qed.

Lemma loadDocs_data_source (docs : list SlipDoc) (item : StateItem) :
  In item (snd (loadDocs docs)) ->
  exists doc i u e,
    In doc docs /\ truthy (docId doc) = Some i /\
    truthy (docDataUrl doc) = Some u /\
    docExtractedData doc = Some e /\ imageId item = i.
Proof.
  induction docs as [|d docs IH]; simpl; [intros []|].
  destruct (loadDocs docs) as [li ld]. simpl in IH.
  assert (Hrest : In item ld ->
                  exists doc i u e,
                    (d = doc \/ In doc docs) /\ truthy (docId doc) = Some i /\
                    truthy (docDataUrl doc) = Some u /\
                    docExtractedData doc = Some e /\ imageId item = i).
  { intros H. destruct (IH H) as (doc & i & u & e & Hd & Hr).
    exists doc, i, u, e. split; [right; exact Hd|exact Hr]. }
  destruct (truthy (docId d)) as [i|] eqn:Ei; [|exact Hrest].
  destruct (truthy (docDataUrl d)) as [u|] eqn:Eu; [|exact Hrest].
  simpl. destruct (docExtractedData d) as [e|] eqn:Ee; [|exact Hrest].
  intros [<-|H]; [|exact (Hrest H)].
  exists d, i, u, e. simpl. repeat split; auto.
Qed.

(** X21: after the store is loaded, a run calls the model for a loaded
    image exactly when no document that has its id and a data URL holds
    a payload: what was extracted is not extracted again. *)
Theorem loaded_image_called_iff_no_payload
    (w : World) (docs : list SlipDoc) (imageObj : ImageObj) :
  In imageObj (fst (onSnapshot docs)) ->
  (In (id imageObj)
      (apiCalls (processBatch w (fst (onSnapshot docs)) (snd (onSnapshot docs))))
   <->
   forall doc,
     In doc docs -> docId doc = Some (id imageObj) ->
     truthy (docDataUrl doc) <> None ->
     docExtractedData doc = None).
Proof.
  intros Himg. rewrite in_calls_iff. split.
  - intros [x [Hx [Hid Hp]]] doc Hdoc Hdid Hurl.
    destruct (docExtractedData doc) as [e|] eqn:He; [exfalso|reflexivity].
    destruct (truthy (docDataUrl doc)) as [u|] eqn:Hu; [|congruence].
    assert (Hne : id imageObj <> EmptyString).
    { unfold onSnapshot in Himg.
      pose proof (loadDocs_images docs) as Hi.
      destruct (loadDocs docs) as [li ld]. simpl in *. subst li.
      apply stableSort_In in Himg. unfold completeImages in Himg.
      apply in_flat_map in Himg. destruct Himg as [d [_ Hd]].
      destruct (truthy (docId d)) as [i|] eqn:Ei; [|destruct Hd].
      destruct (truthy (docDataUrl d)); [|destruct Hd].
      destruct Hd as [<-|[]]. simpl. apply truthy_spec in Ei. tauto. }
    assert (Hitem : In {| imageId := id imageObj; data := Some e |}
                       (snd (onSnapshot docs))).
    { unfold onSnapshot.
      pose proof (loadDocs_data_of_doc docs doc (id imageObj) u e Hdoc
                    (proj2 (truthy_spec _ _) (conj Hdid Hne)) Hu He) as H.
      destruct (loadDocs docs) as [li ld]. simpl in *.
      apply stableSort_In. exact H. }
    assert (Hprior : hasPrior (snd (onSnapshot docs)) x = true).
    { apply hasPrior_of_item.
      - intros item H. destruct (onSnapshot_data docs item H) as [_ [e' [_ [_ [_ H']]]]].
        exists e'. exact H'.
      - eexists. split; [exact Hitem|]. simpl. symmetry. exact Hid. }
    rewrite Hprior in Hp. discriminate.
  - intros Hnull. exists imageObj. split; [exact Himg|]. split; [reflexivity|].
    apply hasPrior_false_no_item. intros item Hitem Hid.
    unfold onSnapshot in Hitem.
    assert (Hsrc : exists doc i u e,
               In doc docs /\ truthy (docId doc) = Some i /\
               truthy (docDataUrl doc) = Some u /\
               docExtractedData doc = Some e /\ imageId item = i).
    { apply loadDocs_data_source.
      destruct (loadDocs docs) as [li ld]. simpl in *.
      apply stableSort_In in Hitem. exact Hitem. }
    destruct Hsrc as (doc & i & u & e & Hd & Hi & Hu & He & Hii).
    apply truthy_spec in Hi. destruct Hi as [Hi _].
    assert (Hn : docExtractedData doc = None).
    { apply Hnull; [exact Hd| |rewrite Hu; discriminate].
      rewrite Hi, <- Hii, Hid. reflexivity. }
    rewrite Hn in He. discriminate.
Qed.

(** X21 on the sample store: the image that has a payload is not
    called, the one that was only ingested is. *)
Lemma loaded_image_called_iff_no_payload_witness :
  In "b"
     (apiCalls (processBatch goodWorld (fst (onSnapshot sampleDocs))
                  (snd (onSnapshot sampleDocs)))) <->
  forall doc,
    In doc sampleDocs -> docId doc = Some "b" ->
    truthy (docDataUrl doc) <> None ->
    docExtractedData doc = None.
Proof.
  apply (loaded_image_called_iff_no_payload goodWorld sampleDocs
           {| id := "b"; dataUrl := "data:image/png;base64,BBBB";
              timestamp := Some 2%Z |}).
  right. left. reflexivity.
Defined.
